(** * PlotLine backend: orchestration substrate

    A shallow embedding of the Python backend of PlotLine
    (event bus, rate-limited gateway, workflow graph, job registry),
    together with the properties its specification states about it.

    Conventions.
    - A Python call that may raise is a function into [outcome]; a call that
      also mutates shared objects is a state transformer returning the
      outcome together with the new state (an exception does not roll the
      state back).
    - Python dicts keyed by strings are [gmap string _]; objects that are
      shared by reference (the [asyncio.Queue] of a task) live in a store
      indexed by their address.
    - An [await] that really suspends (the graph run, a queue read, a sleep)
      is a point where the environment supplies the result. *)

From Stdlib Require Import ZArith QArith Lia Lqa Floats.
From stdpp Require Import gmap strings list fin_maps pretty.

Open Scope string_scope.

(** ** Exceptions and results *)

(** The exceptions that occur in the modelled code. [TransportError] stands
    for whatever the SDK call raises; [RetryError] is tenacity's wrapper
    around the last failed attempt. *)
Inductive exn : Type :=
  | NameError (name : string)
  | KeyError (key : string)
  | ValueError (msg : string)
  | ValidationError (msg : string)
  | TransportError (msg : string)
  | ZeroDivisionError (msg : string)
  | IndexError (msg : string)
  | GraphRecursionError (msg : string)
  | HTTPException (status_code : Z) (detail : string)
  | RetryError (last_attempt : exn).

Inductive outcome (A : Type) : Type :=
  | Returned (a : A)
  | Raised (e : exn).
Arguments Returned {A} a.
Arguments Raised {A} e.

(** [type(e).__name__] *)
Definition exn_type_name (e : exn) : string :=
  match e with
  | NameError _ => "NameError"
  | KeyError _ => "KeyError"
  | ValueError _ => "ValueError"
  | ValidationError _ => "ValidationError"
  | TransportError _ => "TransportError"
  | ZeroDivisionError _ => "ZeroDivisionError"
  | IndexError _ => "IndexError"
  | GraphRecursionError _ => "GraphRecursionError"
  | HTTPException _ _ => "HTTPException"
  | RetryError _ => "RetryError"
  end.

(** [str(e)].  For [RetryError] Python prints the future of the last attempt
    (with its address); only the exception type it names is kept here. *)
Definition exn_str (e : exn) : string :=
  match e with
  | NameError n => "name '" ++ n ++ "' is not defined"
  | KeyError k => "'" ++ k ++ "'"
  | ValueError m => m
  | ValidationError m => m
  | TransportError m => m
  | ZeroDivisionError m => m
  | IndexError m => m
  | GraphRecursionError m => m
  | HTTPException _ d => d
  | RetryError l => "RetryError[" ++ exn_type_name l ++ "]"
  end.

(** State-and-exception computations. *)
Definition M (S A : Type) : Type := S → outcome A * S.

Definition ret {S A} (a : A) : M S A := λ s, (Returned a, s).
Definition raise {S A} (e : exn) : M S A := λ s, (Raised e, s).
Definition bind {S A B} (m : M S A) (k : A → M S B) : M S B :=
  λ s, match m s with
       | (Returned a, s') => k a s'
       | (Raised e, s') => (Raised e, s')
       end.
Definition get_state {S} : M S S := λ s, (Returned s, s).
Definition modify {S} (f : S → S) : M S unit := λ s, (Returned tt, f s).

Notation "'do' x <- m 'in' k" := (bind m (λ x, k))
  (at level 10, x name, m at level 100, k at level 200).
Notation "'exec' m 'in' k" := (bind m (λ _, k))
  (at level 10, m at level 100, k at level 200).

(** JSON-like values carried in event payloads and job results. *)
#[warnings="-register-all"]
Inductive pyval : Type :=
  | VStr (s : string)
  | VInt (n : Z)
  | VDict (items : list (string * pyval)).

(** * utils/event_emitter.py *)
Module EventEmitter.

(** The dict built by [emit]: [{"type", "data", "timestamp"}]. *)
Record event : Type := Event {
  ev_type : string;
  ev_data : list (string * pyval);
  ev_timestamp : string
}.

(** The singleton emitter.  [queue_objs] holds every [asyncio.Queue] ever
    created (address ↦ buffered items, oldest first); [_queues] is the
    class attribute mapping a task id to the address of its queue;
    [next_queue] is the next free address. *)
Record state : Type := State {
  queue_objs : gmap nat (list event);
  next_queue : nat;
  _queues : gmap string nat
}.

Definition initial : state :=
  {| queue_objs := ∅; next_queue := 0; _queues := ∅ |}.

(** [queue = asyncio.Queue(); self._queues[task_id] = queue; return queue] *)
Definition create_queue (task_id : string) : M state nat := λ st,
  let queue := next_queue st in
  (Returned queue,
   {| queue_objs := <[queue := []]> (queue_objs st);
      next_queue := S queue;
      _queues := <[task_id := queue]> (_queues st) |}).

(** [return self._queues.get(task_id)] *)
Definition get_queue (task_id : string) (st : state) : option nat :=
  _queues st !! task_id.

(** [await queue.put(event)] on an unbounded queue: append at the tail. *)
Definition queue_put (queue : nat) (e : event) (st : state) : state :=
  {| queue_objs := alter (λ items, (items ++ [e])%list) queue (queue_objs st);
     next_queue := next_queue st;
     _queues := _queues st |}.

(** [emit]: [now] is the value of [datetime.now().isoformat()] at the call.
    A queue object is always truthy, so [if queue:] tests presence. *)
Definition emit (task_id event_type : string) (data : list (string * pyval))
    (now : string) : M state unit := λ st,
  match _queues st !! task_id with
  | Some queue =>
      let event := {| ev_type := event_type; ev_data := data; ev_timestamp := now |} in
      (Returned tt, queue_put queue event st)
  | None => (Returned tt, st)
  end.

(** [if task_id in self._queues: del self._queues[task_id]] *)
Definition cleanup (task_id : string) : M state unit := λ st,
  match _queues st !! task_id with
  | Some _ =>
      (Returned tt,
       {| queue_objs := queue_objs st;
          next_queue := next_queue st;
          _queues := delete task_id (_queues st) |})
  | None => (Returned tt, st)
  end.

(** What an observer can learn about a task's channel through the
    emitter: the records buffered in the queue registered for it. *)
Definition channel (task_id : string) (st : state) : option (list event) :=
  queue ← _queues st !! task_id; queue_objs st !! queue.

(** Queues registered in [_queues] have been allocated, and no queue is
    registered under two task ids. *)
Record wf (st : state) : Prop := {
  wf_alloc : ∀ t q, _queues st !! t = Some q → q < next_queue st ∧ is_Some (queue_objs st !! q);
  wf_fresh : ∀ q, is_Some (queue_objs st !! q) → q < next_queue st;
  wf_inj : ∀ t1 t2 q, _queues st !! t1 = Some q → _queues st !! t2 = Some q → t1 = t2
}.

End EventEmitter.

(** * config.py and utils/gemini_client.py *)
Module Gemini.

(** [dict.get(key, default)] *)
Definition dict_get {V} (d : gmap string V) (key : string) (dflt : V) : V :=
  default dflt (d !! key).

(** [Settings.SAFETY_PRESETS] *)
Definition SAFETY_PRESETS : gmap string string :=
  <["none" := "BLOCK_NONE"]>
  (<["low" := "BLOCK_ONLY_HIGH"]>
  (<["medium" := "BLOCK_MEDIUM_AND_ABOVE"]>
  (<["high" := "BLOCK_LOW_AND_ABOVE"]> ∅))).

(** [Settings.GEMINI_RPM_LIMIT], when the environment does not override it. *)
Definition GEMINI_RPM_LIMIT : Z := 15.

(** ** TokenBucket

    Token counts and clock readings are Python floats. The code is written
    once over the arithmetic it uses and read in two ways: over binary64
    floats, as Python computes it, and over exact rationals, an
    idealisation that leaves rounding out. What is proved of every
    arithmetic holds of the code as it computes; what is proved over the
    rationals is kept to statements that rounding does not touch. The
    clock is the environment's: [acquire] receives the successive values
    that [time.monotonic()] returns, one per iteration of its loop. *)
Record number : Type := {
  num : Type;
  #[canonical=no] of_int : Z → num;
  #[canonical=no] add : num → num → num;
  #[canonical=no] sub : num → num → num;
  #[canonical=no] mul : num → num → num;
  #[canonical=no] div : num → num → num;
  #[canonical=no] gt : num → num → bool;
  #[canonical=no] ge : num → num → bool;
  #[canonical=no] is_zero : num → bool
}.

(** Exact rationals. *)
Definition exact : number :=
  {| num := Q;
     of_int := inject_Z;
     add := Qplus; sub := Qminus; mul := Qmult; div := Qdiv;
     gt := λ a b, if Qlt_le_dec b a then true else false;
     ge := λ a b, Qle_bool b a;
     is_zero := λ a, Qeq_bool a 0 |}.
Canonical Structure exact.

(** Binary64 floats; [of_int] is [float(z)], for integers of magnitude
    below [2^63]. *)
Definition binary64 : number :=
  {| num := float;
     of_int := λ z, if (z <? 0)%Z
                    then PrimFloat.opp (PrimFloat.of_uint63 (Uint63.of_Z (- z)))
                    else PrimFloat.of_uint63 (Uint63.of_Z z);
     add := PrimFloat.add; sub := PrimFloat.sub; mul := PrimFloat.mul;
     div := PrimFloat.div;
     gt := λ a b, PrimFloat.ltb b a;
     ge := λ a b, PrimFloat.leb b a;
     is_zero := λ a, PrimFloat.eqb a PrimFloat.zero |}.
Canonical Structure binary64.

Section Bucket.
Context {N : number}.

Record TokenBucket : Type := {
  capacity : Z;
  _tokens : num N;
  refill_rate : num N;
  last_refill : num N
}.

(** [TokenBucket(capacity, refill_rate)], constructed at clock reading [now]. *)
Definition new_bucket (capacity : Z) (refill_rate : num N) (now : num N) : TokenBucket :=
  {| capacity := capacity; _tokens := of_int N capacity;
     refill_rate := refill_rate; last_refill := now |}.

(** [global_rate_limiter] *)
Definition global_rate_limiter (now : num N) : TokenBucket :=
  new_bucket GEMINI_RPM_LIMIT (div N (of_int N GEMINI_RPM_LIMIT) (of_int N 60)) now.

(** [min(a, b)] of two numbers: [b] when it is the smaller one, else [a]. *)
Definition py_min (a b : num N) : num N := if gt N a b then b else a.

(** The refill at the top of the loop body of [acquire]. *)
Definition refill (now : num N) (b : TokenBucket) : TokenBucket :=
  let elapsed := sub N now (last_refill b) in
  let new_tokens := mul N elapsed (refill_rate b) in
  if gt N new_tokens (of_int N 0) then
    {| capacity := capacity b;
       _tokens := py_min (of_int N (capacity b)) (add N (_tokens b) new_tokens);
       refill_rate := refill_rate b;
       last_refill := now |}
  else b.

(** [self._tokens -= 1.0] *)
Definition take_token (b : TokenBucket) : TokenBucket :=
  {| capacity := capacity b; _tokens := sub N (_tokens b) (of_int N 1);
     refill_rate := refill_rate b; last_refill := last_refill b |}.

(** How a call of [acquire] ends: it returned (after the listed sleeps, first
    sleep first, at the clock reading [at_time]), it raised, or it is still
    waiting when the supplied clock readings are used up. *)
Inductive acquired : Type :=
  | Acquired (sleeps : list (num N)) (at_time : num N) (b : TokenBucket)
      (unused : list (num N))
  | AcquireRaised (e : exn) (sleeps : list (num N)) (b : TokenBucket)
  | Waiting (sleeps : list (num N)) (b : TokenBucket).

(** [wait_time = (1.0 - self._tokens) / self.refill_rate] *)
Definition wait_time (b : TokenBucket) : num N :=
  div N (sub N (of_int N 1) (_tokens b)) (refill_rate b).

(** [acquire]: one clock reading per loop iteration; [slept] accumulates the
    arguments of [asyncio.sleep] in reverse. *)
Fixpoint acquire_loop (clock : list (num N)) (slept : list (num N)) (b : TokenBucket)
    : acquired :=
  match clock with
  | [] => Waiting (rev slept) b
  | now :: clock' =>
      let b1 := refill now b in
      if ge N (_tokens b1) (of_int N 1) then Acquired (rev slept) now (take_token b1) clock'
      else if is_zero N (refill_rate b1)
           then AcquireRaised (ZeroDivisionError "float division by zero") (rev slept) b1
           else acquire_loop clock' (wait_time b1 :: slept) b1
  end.

Definition acquire (clock : list (num N)) (b : TokenBucket) : acquired :=
  acquire_loop clock [] b.

(** [n] calls of [acquire] one after the other, sharing the clock. The result
    lists, for each call, its sleeps and the clock reading at which it
    returned, and gives the bucket after the last call; [None] when some
    call did not return. *)
Fixpoint acquire_times (n : nat) (clock : list (num N)) (b : TokenBucket)
    : option (list (list (num N) * num N) * TokenBucket * list (num N)) :=
  match n with
  | O => Some ([], b, clock)
  | S n' =>
      match acquire clock b with
      | Acquired sleeps at_time b' clock' =>
          match acquire_times n' clock' b' with
          | Some (calls, b'', clock'') => Some ((sleeps, at_time) :: calls, b'', clock'')
          | None => None
          end
      | _ => None
      end
  end.

End Bucket.
Arguments TokenBucket N : clear implicits.
Arguments acquired N : clear implicits.

(** ** GeminiClient.generate_structured *)

Record SafetySetting : Type := {
  category : string;
  threshold : string
}.

Record GenerateContentConfig : Type := {
  response_mime_type : string;
  response_schema : string;
  temperature : Q;
  safety_settings : list SafetySetting
}.

(** The arguments of [client.aio.models.generate_content]. *)
Record request : Type := {
  model : string;
  contents : string;
  config : GenerateContentConfig
}.

(** What the code reads of the SDK's response: the candidate list, and the
    [text] property, whose access may raise and whose value may be [None]. *)
Record response : Type := {
  candidates : list string;
  text : outcome (option string)
}.

Definition safety_setting (category safety_level : string) : SafetySetting :=
  {| category := category;
     threshold := dict_get SAFETY_PRESETS safety_level "BLOCK_NONE" |}.

Definition build_request (model_name prompt response_model : string)
    (temperature : Q) (safety_level : string) : request :=
  {| model := model_name;
     contents := prompt;
     config :=
       {| response_mime_type := "application/json";
          response_schema := response_model;
          temperature := temperature;
          safety_settings :=
            [ safety_setting "HARM_CATEGORY_HARASSMENT" safety_level;
              safety_setting "HARM_CATEGORY_HATE_SPEECH" safety_level;
              safety_setting "HARM_CATEGORY_SEXUALLY_EXPLICIT" safety_level;
              safety_setting "HARM_CATEGORY_DANGEROUS_CONTENT" safety_level ] |} |}.

Section Structured.

(** The response model [T] with its [model_validate_json]. *)
Context {T : Type}.
Variable model_validate_json : string → outcome T.

(** Step 3 of the body, "Parse Output". *)
Definition parse_output (r : response) : outcome T :=
  match candidates r with
  | [] => Raised (ValueError "Gemini returned no candidates (blocked?)")
  | candidate :: _ =>
      match text r with
      | Raised ve => Raised ve
      | Returned None => Raised (ValueError "Empty text in response")
      | Returned (Some "") => Raised (ValueError "Empty text in response")
      | Returned (Some json_text) => model_validate_json json_text
      end
  end.

(** The undecorated body of [generate_structured]: one attempt.  [token] is
    how [global_rate_limiter.acquire()] ended and [generate_content] the
    backend's answer to this call; the handlers of the body re-raise what
    they catch. *)
Definition generate_structured_body (token : outcome unit)
    (generate_content : request → outcome response) (req : request) : outcome T :=
  match token with
  | Raised e => Raised e
  | Returned _ =>
      match generate_content req with
      | Raised e => Raised e
      | Returned r => parse_output r
      end
  end.

(** tenacity's [wait_exponential(multiplier, min, max)] with base 2. *)
Definition wait_exponential (multiplier min max : Z) (attempt_number : nat) : Z :=
  Z.max (Z.max 0 min) (Z.min (multiplier * 2 ^ (Z.of_nat attempt_number - 1)) max).

(** What one decorated call did: its result, the number of attempts made and
    the waits between them (first wait first). *)
Record retry_state : Type := {
  result : outcome T;
  attempt_number : nat;
  waits : list Z
}.

(** tenacity's controller as [@retry] configures it. [fn k] is the [k]-th
    attempt (counted from 1) and [remaining] the number of attempts that
    may follow it: [retry_if_exception_type(Exception)] holds of every
    exception modelled, so a failed attempt is followed by a wait and the
    next attempt unless [stop_after_attempt] is met, which is when none
    remains; [reraise] is left at its default, so that the controller then
    raises [RetryError] around the last attempt. *)
Fixpoint retrying (remaining : nat) (attempt : nat) (fn : nat → outcome T)
    (waited : list Z) : retry_state :=
  match fn attempt with
  | Returned v => {| result := Returned v; attempt_number := attempt; waits := rev waited |}
  | Raised e =>
      match remaining with
      | O => {| result := Raised (RetryError e); attempt_number := attempt; waits := rev waited |}
      | S remaining' =>
          retrying remaining' (S attempt) fn (wait_exponential 1 2 10 attempt :: waited)
      end
  end.

(** The argument of [stop_after_attempt]. *)
Definition stop_after_attempt : nat := 3.

(** The environment of a decorated call: for the [k]-th attempt, how the
    rate limiter's [acquire] ended and what the backend answered. *)
Record backend : Type := {
  limiter : nat → outcome unit;
  generate_content : nat → request → outcome response
}.

Definition attempt_of (env : backend) (req : request) (k : nat) : outcome T :=
  generate_structured_body (limiter env k) (generate_content env k) req.

(** [generate_structured], decorated. *)
Definition generate_structured (env : backend) (model_name prompt response_model : string)
    (temperature : Q) (safety_level : string) : retry_state :=
  retrying (stop_after_attempt - 1) 1
    (attempt_of env (build_request model_name prompt response_model temperature safety_level))
    [].

End Structured.

End Gemini.


(** * models/schemas.py *)
Module Schemas.

Record NarrativeMemory : Type := {
  running_summary : string;
  last_paragraph : string;
  style_guide : string;
  critical_facts : list string;
  entity_registry : list (string * string)
}.

Record WorldState : Type := {
  attributes : list (string * pyval)
}.

(** [id] and [reasoning] are renamed: [node_id], [node_reasoning]. *)
Record NarrativeNode : Type := {
  node_reasoning : string;
  node_id : string;
  action : string;
  actors : list string;
  preconditions : list string;
  postconditions : list string
}.

Record NarrativeEdge : Type := {
  source : string;
  target : string;
  relation : string
}.

Record LogicGraph : Type := {
  nodes : list NarrativeNode;
  edges : list NarrativeEdge
}.

Record AnalogicalMapping : Type := {
  mapping_reasoning : string;
  entity_archetypes : list (string * string);
  action_patterns : list string;
  structure_type : string;
  emotional_arc : list string
}.

Record ValidationViolation : Type := {
  violation_type : string;
  description : string;
  violation_node_id : option string;
  severity : string
}.

Record ValidationResult : Type := {
  validation_reasoning : string;
  is_valid : bool;
  violations : list ValidationViolation;
  suggestions : list string
}.

Record StoryState : Type := {
  input_text : string;
  target_genre : string;
  target_audience : string;
  tone : string;
  words_per_scene : Z;
  safety_level : string;
  graph : LogicGraph;
  world_state : WorldState;
  memory : NarrativeMemory;
  rendered_chunks : list (string * string);
  error_logs : list string;
  analogical_mapping : option AnalogicalMapping;
  validation_results : list ValidationResult;
  input_guardrail_result : option pyval;
  output_guardrail_results : list pyval
}.

(** The field defaults of the pydantic models. *)
Definition NarrativeMemory_default : NarrativeMemory :=
  {| running_summary := ""; last_paragraph := ""; style_guide := "";
     critical_facts := []; entity_registry := [] |}.

Definition LogicGraph_default : LogicGraph := {| nodes := []; edges := [] |}.

(** [StoryState(input_text=…, target_genre=…, target_audience=…, tone=…,
    words_per_scene=…, safety_level=…)] *)
Definition new_StoryState (input_text target_genre target_audience tone : string)
    (words_per_scene : Z) (safety_level : string) : StoryState :=
  {| input_text := input_text; target_genre := target_genre;
     target_audience := target_audience; tone := tone;
     words_per_scene := words_per_scene; safety_level := safety_level;
     graph := LogicGraph_default;
     world_state := {| attributes := [] |};
     memory := NarrativeMemory_default;
     rendered_chunks := [];
     error_logs := [];
     analogical_mapping := None;
     validation_results := [];
     input_guardrail_result := None;
     output_guardrail_results := [] |}.

(** Attribute assignments [story.f = v]. *)
Definition set_graph (g : LogicGraph) (s : StoryState) : StoryState :=
  {| input_text := input_text s; target_genre := target_genre s;
     target_audience := target_audience s; tone := tone s;
     words_per_scene := words_per_scene s; safety_level := safety_level s;
     graph := g;
     world_state := world_state s; memory := memory s;
     rendered_chunks := rendered_chunks s; error_logs := error_logs s;
     analogical_mapping := analogical_mapping s;
     validation_results := validation_results s;
     input_guardrail_result := input_guardrail_result s;
     output_guardrail_results := output_guardrail_results s |}.

Definition set_memory (m : NarrativeMemory) (s : StoryState) : StoryState :=
  {| input_text := input_text s; target_genre := target_genre s;
     target_audience := target_audience s; tone := tone s;
     words_per_scene := words_per_scene s; safety_level := safety_level s;
     graph := graph s;
     world_state := world_state s; memory := m;
     rendered_chunks := rendered_chunks s; error_logs := error_logs s;
     analogical_mapping := analogical_mapping s;
     validation_results := validation_results s;
     input_guardrail_result := input_guardrail_result s;
     output_guardrail_results := output_guardrail_results s |}.

Definition set_rendered_chunks (c : list (string * string)) (s : StoryState) : StoryState :=
  {| input_text := input_text s; target_genre := target_genre s;
     target_audience := target_audience s; tone := tone s;
     words_per_scene := words_per_scene s; safety_level := safety_level s;
     graph := graph s;
     world_state := world_state s; memory := memory s;
     rendered_chunks := c; error_logs := error_logs s;
     analogical_mapping := analogical_mapping s;
     validation_results := validation_results s;
     input_guardrail_result := input_guardrail_result s;
     output_guardrail_results := output_guardrail_results s |}.

Definition set_analogical_mapping (a : option AnalogicalMapping) (s : StoryState) : StoryState :=
  {| input_text := input_text s; target_genre := target_genre s;
     target_audience := target_audience s; tone := tone s;
     words_per_scene := words_per_scene s; safety_level := safety_level s;
     graph := graph s;
     world_state := world_state s; memory := memory s;
     rendered_chunks := rendered_chunks s; error_logs := error_logs s;
     analogical_mapping := a;
     validation_results := validation_results s;
     input_guardrail_result := input_guardrail_result s;
     output_guardrail_results := output_guardrail_results s |}.

Definition set_validation_results (v : list ValidationResult) (s : StoryState) : StoryState :=
  {| input_text := input_text s; target_genre := target_genre s;
     target_audience := target_audience s; tone := tone s;
     words_per_scene := words_per_scene s; safety_level := safety_level s;
     graph := graph s;
     world_state := world_state s; memory := memory s;
     rendered_chunks := rendered_chunks s; error_logs := error_logs s;
     analogical_mapping := analogical_mapping s;
     validation_results := v;
     input_guardrail_result := input_guardrail_result s;
     output_guardrail_results := output_guardrail_results s |}.

Definition set_last_paragraph (p : string) (m : NarrativeMemory) : NarrativeMemory :=
  {| running_summary := running_summary m; last_paragraph := p;
     style_guide := style_guide m; critical_facts := critical_facts m;
     entity_registry := entity_registry m |}.

Definition set_running_summary (r : string) (m : NarrativeMemory) : NarrativeMemory :=
  {| running_summary := r; last_paragraph := last_paragraph m;
     style_guide := style_guide m; critical_facts := critical_facts m;
     entity_registry := entity_registry m |}.

(** [d[k] = v] on an insertion-ordered dict: an existing key keeps its
    position, a new key goes last. *)
Fixpoint dict_set (k v : string) (d : list (string * string)) : list (string * string) :=
  match d with
  | [] => [(k, v)]
  | (k', v') :: d' =>
      if String.eqb k k' then (k, v) :: d' else (k', v') :: dict_set k v d'
  end.

(** [l[i]] with Python's negative indices. *)
Definition py_index {A} (l : list A) (i : Z) : outcome A :=
  let n := Z.of_nat (length l) in
  let j := (if i <? 0 then i + n else i)%Z in
  if ((0 <=? j) && (j <? n))%Z then
    match l !! Z.to_nat j with
    | Some x => Returned x
    | None => Raised (IndexError "list index out of range")
    end
  else Raised (IndexError "list index out of range").

(** The newline character. *)
Definition nl : string := String (Ascii.ascii_of_nat 10) "".

End Schemas.

(** * graph/workflow.py *)
Module Workflow.
Import Schemas.

(** [GraphState] *)
Record GraphState : Type := {
  story_state : StoryState;
  current_node_index : Z
}.

(** The partial update a node returns: a dict with some of the state's keys. *)
Record update : Type := {
  upd_story_state : option StoryState;
  upd_current_node_index : option Z
}.

Definition empty_update : update :=
  {| upd_story_state := None; upd_current_node_index := None |}.

(** Calls of the agents, each of which (but the symbolic oracle) goes to the
    external model through the gateway. *)
Inductive agent_call : Type :=
  | DeconstructorRun (source_text : string)
  | MapperRun (g : LogicGraph)
  | OracleValidateSymbolic (g : LogicGraph)
  | ScribeRun (node : NarrativeNode) (memory : NarrativeMemory).

Inductive node_name : Type := Deconstruct | Map | Validate | Scribe.

Inductive destination : Type := To (n : node_name) | END.

(** What a run leaves behind besides its state: the agent calls made and the
    nodes executed, in order. *)
Record world : Type := {
  calls : list agent_call;
  executed : list node_name
}.

Definition no_effects : world := {| calls := []; executed := [] |}.

Definition call {A} (c : agent_call) (r : outcome A) : M world A := λ w,
  (r, {| calls := (calls w ++ [c])%list; executed := executed w |}).

Definition enter (n : node_name) : M world unit := λ w,
  (Returned tt, {| calls := calls w; executed := (executed w ++ [n])%list |}).

Section Graph.

(** The stage implementations (agents/*.py): what each answers to its
    arguments. *)
Variable deconstructor_run : string → outcome LogicGraph.
Variable mapper_run : LogicGraph → outcome AnalogicalMapping.
Variable oracle_validate_symbolic : LogicGraph → WorldState → outcome ValidationResult.
Variable scribe_run :
  NarrativeNode → NarrativeMemory → string → string → string → Z → string → outcome string.

(** The handlers of the nodes log and re-raise, so a node raises what its
    body raises. *)
Definition node_deconstruct (state : GraphState) : M world update :=
  let text := input_text (story_state state) in
  do logic_graph <- call (DeconstructorRun text) (deconstructor_run text) in
  let story := set_graph logic_graph (story_state state) in
  ret {| upd_story_state := Some story; upd_current_node_index := Some 0%Z |}.

Definition node_scribe (state : GraphState) : M world update :=
  let idx := current_node_index state in
  let story := story_state state in
  let nodes := nodes (graph story) in
  if (idx >=? Z.of_nat (length nodes))%Z then ret empty_update
  else
    match py_index nodes idx with
    | Raised e => raise e
    | Returned current_node =>
        do prose_chunk <-
          call (ScribeRun current_node (memory story))
               (scribe_run current_node (memory story) (target_genre story)
                  (target_audience story) (tone story) (words_per_scene story)
                  (safety_level story)) in
        let story1 :=
          set_rendered_chunks
            (dict_set (node_id current_node) prose_chunk (rendered_chunks story)) story in
        let story2 := set_memory (set_last_paragraph prose_chunk (memory story1)) story1 in
        let story3 :=
          set_memory
            (set_running_summary
               (running_summary (memory story2) ++ nl ++ prose_chunk) (memory story2))
            story2 in
        ret {| upd_story_state := Some story3;
               upd_current_node_index := Some (idx + 1)%Z |}
    end.

Definition node_map (state : GraphState) : M world update :=
  let g := graph (story_state state) in
  do mapping <- call (MapperRun g) (mapper_run g) in
  ret {| upd_story_state := Some (set_analogical_mapping (Some mapping) (story_state state));
         upd_current_node_index := None |}.

Definition node_validate (state : GraphState) : M world update :=
  let story := story_state state in
  do symbolic_result <-
    call (OracleValidateSymbolic (graph story))
         (oracle_validate_symbolic (graph story) (world_state story)) in
  ret {| upd_story_state :=
           Some (set_validation_results
                   (validation_results story ++ [symbolic_result])%list story);
         upd_current_node_index := None |}.

(** The conditional edge. *)
Definition should_continue_scribing (state : GraphState) : destination :=
  let idx := current_node_index state in
  let total := Z.of_nat (length (nodes (graph (story_state state)))) in
  if (idx <? total)%Z then To Scribe else END.

(** ** The graph definition *)

(** [workflow.add_node] *)
Definition node_function (n : node_name) : GraphState → M world update :=
  match n with
  | Deconstruct => node_deconstruct
  | Map => node_map
  | Validate => node_validate
  | Scribe => node_scribe
  end.

(** [workflow.set_entry_point] *)
Definition entry_point : node_name := Deconstruct.

(** [workflow.add_edge] and [workflow.add_conditional_edges] *)
Definition edge (n : node_name) (state : GraphState) : destination :=
  match n with
  | Deconstruct => To Map
  | Map => To Validate
  | Validate => To Scribe
  | Scribe => should_continue_scribing state
  end.

(** The engine writes the keys a node returned over the state's. *)
Definition apply_update (state : GraphState) (u : update) : GraphState :=
  {| story_state := default (story_state state) (upd_story_state u);
     current_node_index := default (current_node_index state) (upd_current_node_index u) |}.

(** The compiled graph: run the node, merge its update, follow its edge.
    [recursion_limit] bounds the node executions of one run. The engine
    compares its step count with the limit before it looks for what is
    left to run, so a run is given up with [GraphRecursionError] not only
    when the limit is used up before [END] is reached, but also when the
    last execution the limit permits is the one that reaches [END]: a run
    returns only if it needs fewer executions than the limit. A node that
    raises ends the run with its exception whenever it is executed. (The
    engine's message also names the limit and how to raise it; it is
    abridged here.) *)
Fixpoint run_from (recursion_limit : nat) (n : node_name) (state : GraphState)
    : M world GraphState :=
  match recursion_limit with
  | O => raise (GraphRecursionError "Recursion limit reached without hitting a stop condition")
  | S limit =>
      exec enter n in
      do u <- node_function n state in
      let state' := apply_update state u in
      match edge n state' with
      | END =>
          match limit with
          | O => raise (GraphRecursionError
                          "Recursion limit reached without hitting a stop condition")
          | S _ => ret state'
          end
      | To n' => run_from limit n' state'
      end
  end.

(** [app_graph.ainvoke(initial_state, config)] under the recursion limit of
    the config. *)
Definition ainvoke (recursion_limit : nat) (initial_state : GraphState) : M world GraphState :=
  run_from recursion_limit entry_point initial_state.

(** The limit of the runs the routes start: their config names none, so
    the engine's default applies. *)
Definition default_recursion_limit : nat := 25.

End Graph.

End Workflow.

(** * routes/narrative.py *)
Module Narrative.
Import Schemas.
Import Workflow.

Record GenerationRequest : Type := {
  req_input_text : string;
  req_target_genre : string;
  req_target_audience : string;
  req_tone : string;
  req_words_per_scene : Z;
  req_safety_level : string
}.

(** The dict stored under [JOBS[task_id]["result"]]. *)
Record job_result : Type := {
  story_text : string;
  graph_nodes : Z;
  chunks : list (string * string)
}.

(** A value of [JOBS]: a dict with the keys ["status"] and ["task_id"], and
    ["result"] and ["error"] once they are assigned ([None] for a key that
    is not there, which is what [job.get] answers). *)
Record job : Type := {
  status : string;
  task_id : string;
  result : option job_result;
  error : option string
}.

Record JobStatusResponse : Type := {
  resp_task_id : string;
  resp_status : string;
  resp_result : option job_result;
  resp_error : option string
}.

(** The module's shared objects: the job store and the emitter singleton. *)
Record state : Type := {
  JOBS : gmap string job;
  event_emitter : EventEmitter.state
}.

Definition initial : state := {| JOBS := ∅; event_emitter := EventEmitter.initial |}.

Definition with_emitter {A} (m : M EventEmitter.state A) : M state A := λ st,
  let '(r, em) := m (event_emitter st) in
  (r, {| JOBS := JOBS st; event_emitter := em |}).

Definition set_status (v : string) (j : job) : job :=
  {| status := v; task_id := task_id j; result := result j; error := error j |}.
Definition set_result (v : job_result) (j : job) : job :=
  {| status := status j; task_id := task_id j; result := Some v; error := error j |}.
Definition set_error (v : string) (j : job) : job :=
  {| status := status j; task_id := task_id j; result := result j; error := Some v |}.

(** [JOBS[task_id][key] = v]: the subscript [JOBS[task_id]] raises
    [KeyError] for an unknown id. *)
Definition jobs_setitem (task_id : string) (assign : job → job) : M state unit := λ st,
  match JOBS st !! task_id with
  | Some j =>
      (Returned tt,
       {| JOBS := <[task_id := assign j]> (JOBS st); event_emitter := event_emitter st |})
  | None => (Raised (KeyError task_id), st)
  end.

(** [try: body except Exception as e: handler(e)] *)
Definition try_except {S A} (body : M S A) (handler : exn → M S A) : M S A := λ s,
  match body s with
  | (Returned a, s') => (Returned a, s')
  | (Raised e, s') => handler e s'
  end.

(** [try: body finally: final] *)
Definition try_finally {S A} (body : M S A) (final : M S unit) : M S A := λ s,
  let '(r, s') := body s in
  match final s' with
  | (Returned _, s'') => (r, s'')
  | (Raised e, s'') => (Raised e, s'')
  end.

(** [s[:n]] cuts after [n] code points. A Python [str] is held here as its
    UTF-8 bytes, of which those of the form [10xxxxxx] continue the code
    point begun before them. *)
Definition continues_code_point (a : Ascii.ascii) : bool :=
  match a with
  | Ascii.Ascii _ _ _ _ _ _ false true => true
  | _ => false
  end.

Fixpoint slice_to (n : nat) (s : string) : string :=
  match s with
  | EmptyString => EmptyString
  | String a s' =>
      if continues_code_point a then String a (slice_to n s')
      else match n with
           | O => EmptyString
           | S n' => String a (slice_to n' s')
           end
  end.

(** [sep.join(values)] *)
Fixpoint join (sep : string) (values : list string) : string :=
  match values with
  | [] => ""
  | [v] => v
  | v :: rest => v ++ sep ++ join sep rest
  end.

Section Worker.

(** [len(s.split())] *)
Variable count_words : string → Z.

(** ** run_generation_workflow

    The coroutine really suspends once, at [await app_graph.ainvoke]; it is
    given as what runs up to that point and what runs from it on. *)

Definition initial_state (request : GenerationRequest) : GraphState :=
  {| story_state :=
       new_StoryState (req_input_text request) (req_target_genre request)
         (req_target_audience request) (req_tone request)
         (req_words_per_scene request) (req_safety_level request);
     current_node_index := 0 |}.

(** The [try] block up to the [await]. *)
Definition try_before_await (task_id : string) (request : GenerationRequest)
    : M state GraphState :=
  exec jobs_setitem task_id (set_status "processing") in
  ret (initial_state request).

(** The [try] block after the [await] returned [final_state]. *)
Definition try_after_await (task_id : string) (final_state : GraphState) (now : string)
    : M state unit :=
  exec jobs_setitem task_id (set_status "completed") in
  let story := story_state final_state in
  let full_story := join (nl ++ nl) (map snd (rendered_chunks story)) in
  exec jobs_setitem task_id
    (set_result {| story_text := full_story;
                   graph_nodes := Z.of_nat (length (nodes (graph story)));
                   chunks := rendered_chunks story |}) in
  with_emitter
    (EventEmitter.emit task_id "workflow_complete"
       [("total_nodes", VInt (Z.of_nat (length (nodes (graph story)))));
        ("total_chunks", VInt (Z.of_nat (length (rendered_chunks story))));
        ("total_words", VInt (count_words full_story))] now).

(** [except Exception as e:]; [error_trace] is [traceback.format_exc()]. *)
Definition except_clause (task_id : string) (error_trace now : string) (e : exn)
    : M state unit :=
  exec jobs_setitem task_id (set_status "failed") in
  exec jobs_setitem task_id (set_error (exn_str e)) in
  with_emitter
    (EventEmitter.emit task_id "error"
       [("message", VStr (exn_str e)); ("traceback", VStr error_trace)] now).

(** [finally:] *)
Definition finally_clause (task_id : string) : M state unit :=
  with_emitter (EventEmitter.cleanup task_id).

(** Where the first part leaves the coroutine. *)
Inductive suspension : Type :=
  | AwaitGraph (initial_state : GraphState)
  | Finished (r : outcome unit).

(** From the call to the [await]: the queue is created, [workflow_start] is
    emitted, and the [try] block is entered. *)
Definition run_generation_workflow_start (task_id : string) (request : GenerationRequest)
    (now error_trace : string) : M state suspension :=
  exec with_emitter (do _ <- EventEmitter.create_queue task_id in ret tt) in
  exec with_emitter
    (EventEmitter.emit task_id "workflow_start"
       [("input_text", VStr (slice_to 100 (req_input_text request)));
        ("genre", VStr (req_target_genre request));
        ("words_per_scene", VInt (req_words_per_scene request));
        ("safety_level", VStr (req_safety_level request))] now) in
  λ st,
    match try_before_await task_id request st with
    | (Returned init, st') => (Returned (AwaitGraph init), st')
    | (Raised e, st') =>
        let '(r, st'') :=
          try_finally (except_clause task_id error_trace now e) (finally_clause task_id) st' in
        (Returned (Finished r), st'')
    end.

(** From the [await] on: [awaited] is how [ainvoke] ended. *)
Definition run_generation_workflow_resume (task_id : string)
    (awaited : outcome GraphState) (now error_trace : string) : M state unit :=
  try_finally
    (try_except
       (match awaited with
        | Returned final_state => try_after_await task_id final_state now
        | Raised e => raise e
        end)
       (except_clause task_id error_trace now))
    (finally_clause task_id).

(** ** Endpoints *)

(** [start_generation]; [uuid4] is [str(uuid.uuid4())].  Scheduling the
    background task is the caller's part (see [step] below). *)
Definition start_generation (uuid4 : string) (req : GenerationRequest)
    : M state JobStatusResponse :=
  exec modify (λ st,
    {| JOBS := <[uuid4 := {| status := "queued"; task_id := uuid4;
                             result := None; error := None |}]> (JOBS st);
       event_emitter := event_emitter st |}) in
  ret {| resp_task_id := uuid4; resp_status := "queued";
         resp_result := None; resp_error := None |}.

Definition get_generation_status (task_id : string) : M state JobStatusResponse := λ st,
  match JOBS st !! task_id with
  | None => (Raised (HTTPException 404 "Task not found"), st)
  | Some job =>
      (Returned {| resp_task_id := task_id; resp_status := status job;
                   resp_result := result job; resp_error := error job |}, st)
  end.

(** ** The processes of the server

    Background tasks that were scheduled and have not finished, by task id,
    each at the point where it will continue. *)
Inductive task : Type :=
  | Scheduled (request : GenerationRequest)
  | Awaiting (initial_state : GraphState).

Record system : Type := {
  mem : state;
  tasks : gmap string task
}.

Definition boot : system := {| mem := initial; tasks := ∅ |}.

(** One atomic stretch of one coroutine (the event loop runs a coroutine
    from one suspension to the next without interleaving):
    - a submission, with an id that [uuid4] never gave before;
    - a scheduled background task running up to its [await];
    - a background task continuing after its [await], whatever the graph
      run produced;
    - a subscriber taking the oldest record of some queue. *)
Inductive step : system → system → Prop :=
  | step_submit sys uuid4 req :
      JOBS (mem sys) !! uuid4 = None →
      tasks sys !! uuid4 = None →
      step sys {| mem := snd (start_generation uuid4 req (mem sys));
                  tasks := <[uuid4 := Scheduled req]> (tasks sys) |}
  | step_start sys task_id req now trace init mem' :
      tasks sys !! task_id = Some (Scheduled req) →
      run_generation_workflow_start task_id req now trace (mem sys)
        = (Returned (AwaitGraph init), mem') →
      step sys {| mem := mem'; tasks := <[task_id := Awaiting init]> (tasks sys) |}
  | step_start_finished sys task_id req now trace r mem' :
      tasks sys !! task_id = Some (Scheduled req) →
      run_generation_workflow_start task_id req now trace (mem sys)
        = (Returned (Finished r), mem') →
      step sys {| mem := mem'; tasks := delete task_id (tasks sys) |}
  | step_resume sys task_id init awaited now trace :
      tasks sys !! task_id = Some (Awaiting init) →
      step sys {| mem := snd (run_generation_workflow_resume task_id awaited now trace (mem sys));
                  tasks := delete task_id (tasks sys) |}
  | step_subscriber sys queue e rest :
      EventEmitter.queue_objs (event_emitter (mem sys)) !! queue = Some (e :: rest) →
      step sys
        {| mem := {| JOBS := JOBS (mem sys);
                     event_emitter :=
                       {| EventEmitter.queue_objs :=
                            <[queue := rest]> (EventEmitter.queue_objs (event_emitter (mem sys)));
                          EventEmitter.next_queue := EventEmitter.next_queue (event_emitter (mem sys));
                          EventEmitter._queues := EventEmitter._queues (event_emitter (mem sys)) |} |};
           tasks := tasks sys |}.

Inductive reachable : system → Prop :=
  | reachable_boot : reachable boot
  | reachable_step sys sys' : reachable sys → step sys sys' → reachable sys'.

End Worker.

(** ** stream_thinking *)

(** The names bound at module level (imports, classes, functions and
    [JOBS]), in [stream_thinking] (its parameter, its imports, its inner
    function) and in [event_generator]. *)
Definition module_names : list string :=
  ["uuid"; "asyncio"; "logging"; "APIRouter"; "HTTPException"; "BackgroundTasks";
   "BaseModel"; "Optional"; "Dict"; "Any"; "StoryState"; "app_graph"; "router";
   "logger"; "JOBS"; "GenerationRequest"; "JobStatusResponse";
   "run_generation_workflow"; "start_generation"; "get_generation_status";
   "stream_thinking"; "get_state"; "get_analogical_mapping"; "get_validation_results"].

Definition stream_thinking_names : list string :=
  ["task_id"; "StreamingResponse"; "event_emitter"; "json"; "asyncio"; "event_generator"].

Definition event_generator_names : list string :=
  ["queue"; "error_event"; "event"; "heartbeat"; "e"].

(** Evaluating a name inside [event_generator]. *)
Definition lookup_name (name : string) : outcome unit :=
  if bool_decide (name ∈ event_generator_names ++ stream_thinking_names ++ module_names)%list
  then Returned tt
  else Raised (NameError name).

(** [datetime.now().isoformat()], when the clock reads [now]. *)
Definition datetime_now_isoformat (now : string) : outcome string :=
  match lookup_name "datetime" with
  | Returned _ => Returned now
  | Raised e => Raised e
  end.

(** One chunk of the stream: the dict that goes through [json.dumps]. *)
Record sse : Type := {
  sse_type : string;
  sse_data : option (list (string * pyval));
  sse_timestamp : option string
}.

Definition sse_of_event (e : EventEmitter.event) : sse :=
  {| sse_type := EventEmitter.ev_type e;
     sse_data := Some (EventEmitter.ev_data e);
     sse_timestamp := Some (EventEmitter.ev_timestamp e) |}.

(** [event['type'] in ['workflow_complete', 'error']] *)
Definition closes_stream (event_type : string) : bool :=
  String.eqb event_type "workflow_complete" || String.eqb event_type "error".

(** The async generator [event_generator()], by the point where it stands:
    not started, inside the [while] loop holding the queue it looked up, or
    after its last [yield]. *)
Inductive generator : Type :=
  | NotStarted (task_id : string)
  | Reading (queue : nat)
  | Leaving.

(** What one [__anext__] gives: a chunk, the end of the iteration (normal or
    with an exception), or nothing yet (the generator waits in
    [queue.get()], holding its queue). *)
Inductive resumed : Type :=
  | Yielded (chunk : sse) (g : generator)
  | Stopped (r : outcome unit)
  | Pending (g : generator).

(** One pass of the loop body.  [timed_out] says whether the 30 seconds of
    [asyncio.wait_for] run out while the queue is empty.  An exception in
    the loop reaches the outer [except Exception], which yields an [error]
    chunk, after which the generator returns. *)
Definition read_queue (now : string) (timed_out : bool) (queue : nat)
    (em : EventEmitter.state) : resumed * EventEmitter.state :=
  match EventEmitter.queue_objs em !! queue with
  | Some (event :: rest) =>
      (Yielded (sse_of_event event)
         (if closes_stream (EventEmitter.ev_type event) then Leaving else Reading queue),
       {| EventEmitter.queue_objs := <[queue := rest]> (EventEmitter.queue_objs em);
          EventEmitter.next_queue := EventEmitter.next_queue em;
          EventEmitter._queues := EventEmitter._queues em |})
  | _ =>
      if timed_out then
        match datetime_now_isoformat now with
        | Returned timestamp =>
            (Yielded {| sse_type := "heartbeat"; sse_data := None;
                        sse_timestamp := Some timestamp |} (Reading queue), em)
        | Raised e =>
            (Yielded {| sse_type := "error";
                        sse_data := Some [("message", VStr (exn_str e))];
                        sse_timestamp := None |} Leaving, em)
        end
      else (Pending (Reading queue), em)
  end.

(** [__anext__] of the generator. *)
Definition anext (now : string) (timed_out : bool) (g : generator)
    (em : EventEmitter.state) : resumed * EventEmitter.state :=
  match g with
  | NotStarted task_id =>
      match EventEmitter.get_queue task_id em with
      | None =>
          match datetime_now_isoformat now with
          | Returned timestamp =>
              (Yielded {| sse_type := "error";
                          sse_data := Some [("message", VStr "Task not found or already completed")];
                          sse_timestamp := Some timestamp |} Leaving, em)
          | Raised e => (Stopped (Raised e), em)
          end
      | Some queue => read_queue now timed_out queue em
      end
  | Reading queue => read_queue now timed_out queue em
  | Leaving => (Stopped (Returned tt), em)
  end.

Record StreamingResponse : Type := {
  status_code : Z;
  media_type : string;
  body : generator
}.

(** [stream_thinking]: the generator object is created, not started. *)
Definition stream_thinking (task_id : string) : outcome StreamingResponse :=
  Returned {| status_code := 200; media_type := "text/event-stream";
              body := NotStarted task_id |}.

(** ** A publisher and a subscriber on one emitter *)

Inductive action : Type :=
  | Publish (task_id event_type : string) (data : list (string * pyval)) (now : string)
  | Receive (now : string) (timed_out : bool).

(** The emitter, the subscriber's generator (or how its iteration stopped),
    and the chunks the subscriber got so far. *)
Record session : Type := {
  bus : EventEmitter.state;
  subscriber : generator + outcome unit;
  received : list sse
}.

Definition subscribe (task_id : string) (em : EventEmitter.state) : session :=
  {| bus := em; subscriber := inl (NotStarted task_id); received := [] |}.

Definition act (s : session) (a : action) : session :=
  match a with
  | Publish task_id event_type data now =>
      {| bus := snd (EventEmitter.emit task_id event_type data now (bus s));
         subscriber := subscriber s; received := received s |}
  | Receive now timed_out =>
      match subscriber s with
      | inr _ => s
      | inl g =>
          match anext now timed_out g (bus s) with
          | (Yielded chunk g', em) =>
              {| bus := em; subscriber := inl g'; received := (received s ++ [chunk])%list |}
          | (Stopped r, em) => {| bus := em; subscriber := inr r; received := received s |}
          | (Pending g', em) => {| bus := em; subscriber := inl g'; received := received s |}
          end
      end
  end.

Definition run (acts : list action) (s : session) : session := fold_left act acts s.

(** The records published on [task_id] by a list of actions, in order. *)
Fixpoint published (task_id : string) (acts : list action) : list EventEmitter.event :=
  match acts with
  | [] => []
  | Publish t event_type data now :: acts' =>
      if String.eqb t task_id
      then EventEmitter.Event event_type data now :: published task_id acts'
      else published task_id acts'
  | Receive _ _ :: acts' => published task_id acts'
  end.

(** The records up to and including the first that closes the stream. *)
Fixpoint until_closing (events : list EventEmitter.event) : list EventEmitter.event :=
  match events with
  | [] => []
  | e :: events' =>
      if closes_stream (EventEmitter.ev_type e) then [e] else e :: until_closing events'
  end.

Definition no_timeout (a : action) : Prop :=
  match a with
  | Receive _ timed_out => timed_out = false
  | Publish _ _ _ _ => True
  end.

End Narrative.

(** * Vocabulary of the properties, and example inputs *)

Section BusVocabulary.

(** A channel holding one published record. *)
Definition one_record_channel : EventEmitter.state :=
  snd (EventEmitter.emit "job" "workflow_start" [] "t0"
         (snd (EventEmitter.create_queue "job" EventEmitter.initial))).

(** An emitter with an empty channel for ["job"]. *)
Definition job_channel : EventEmitter.state :=
  snd (EventEmitter.create_queue "job" EventEmitter.initial).

End BusVocabulary.

Section GatewayVocabulary.
Import Gemini.

(** A backend whose every answer has a candidate but no text. *)
Definition filtered_backend : Gemini.backend :=
  {| Gemini.limiter := λ _, Returned tt;
     Gemini.generate_content := λ _ _,
       Returned {| Gemini.candidates := ["candidate"]; Gemini.text := Returned None |} |}.

(** A backend that fails twice, with errors of two kinds, and then answers. *)
Definition flaky_backend : Gemini.backend :=
  {| Gemini.limiter := λ _, Returned tt;
     Gemini.generate_content := λ k _,
       match k with
       | 1 => Raised (TransportError "503 UNAVAILABLE")
       | 2 => Returned {| Gemini.candidates := []; Gemini.text := Returned None |}
       | _ => Returned {| Gemini.candidates := ["candidate"];
                          Gemini.text := Returned (Some "{}") |}
       end%nat |}.

End GatewayVocabulary.

Section BucketVocabulary.
Import Gemini.
Local Open Scope Q_scope.

(** Sleeps that precede those of a call. *)
Definition with_sleeps {N : number} (before : list (num N)) (a : acquired N) : acquired N :=
  match a with
  | Acquired sleeps at_time b unused => Acquired (before ++ sleeps) at_time b unused
  | AcquireRaised e sleeps b => AcquireRaised e (before ++ sleeps) b
  | Waiting sleeps b => Waiting (before ++ sleeps) b
  end.

(** A bucket of capacity 1 and rate 1/4, full at time 0, in both readings of
    the arithmetic, and a clock for two calls: the first call comes at 0,
    the second at 2 and is resumed at 4. *)
Definition small_bucket : TokenBucket exact := @new_bucket exact 1 (1 # 4) 0.
Definition small_bucket_clock : list Q := [0; 2; 4].
Definition small_bucket64 : TokenBucket binary64 :=
  @new_bucket binary64 1 0.25%float 0%float.
Definition small_bucket64_clock : list float := [0; 2; 4]%float.

(** A binary64 bucket of capacity 1 and rate 0.3, full at time 0, and a
    clock on which the second call is woken exactly when the sleep it
    asked for is over. *)
Definition third_bucket64 : TokenBucket binary64 :=
  @new_bucket binary64 1 0x1.3333333333333p-2%float 0%float.
Definition third_bucket64_clock : list float :=
  [0; 0x1.0861cef16e345p+0; 0x1.aaaaaaaaaaaaap+1]%float.

End BucketVocabulary.

Section WorkflowVocabulary.
Import Schemas.
Import Workflow.

(** The nodes handed to the scribe agent, call by call. *)
Fixpoint scribe_calls (cs : list agent_call) : list NarrativeNode :=
  match cs with
  | [] => []
  | ScribeRun node _ :: cs' => node :: scribe_calls cs'
  | _ :: cs' => scribe_calls cs'
  end.

(** The scribe agent answers every call made for this story. *)
Definition scribe_answers
    (scribe_run : NarrativeNode → NarrativeMemory → string → string → string → Z →
                  string → outcome string)
    (story : StoryState) : Prop :=
  ∀ node m, ∃ prose,
    scribe_run node m (target_genre story) (target_audience story) (tone story)
      (words_per_scene story) (safety_level story) = Returned prose.

End WorkflowVocabulary.

(** How often the scribe node occurs among the executed nodes. *)
Definition scribe_executions (ns : list Workflow.node_name) : nat :=
  length (filter (λ n, match n with Workflow.Scribe => true | _ => false end = true) ns).

(** Stage implementations that always answer, and two stories. *)
Definition demo_deconstructor (g : Schemas.LogicGraph) : string → outcome Schemas.LogicGraph :=
  λ _, Returned g.

Definition demo_mapper : Schemas.LogicGraph → outcome Schemas.AnalogicalMapping :=
  λ _, Returned {| Schemas.mapping_reasoning := ""; Schemas.entity_archetypes := [];
                   Schemas.action_patterns := []; Schemas.structure_type := "Unknown";
                   Schemas.emotional_arc := [] |}.

Definition demo_oracle
    : Schemas.LogicGraph → Schemas.WorldState → outcome Schemas.ValidationResult :=
  λ _ _, Returned {| Schemas.validation_reasoning := ""; Schemas.is_valid := true;
                     Schemas.violations := []; Schemas.suggestions := [] |}.

Definition demo_scribe
    : Schemas.NarrativeNode → Schemas.NarrativeMemory → string → string → string → Z →
      string → outcome string :=
  λ node _ _ _ _ _ _, Returned ("Prose for " ++ Schemas.node_id node).

Definition demo_node (id action : string) : Schemas.NarrativeNode :=
  {| Schemas.node_reasoning := ""; Schemas.node_id := id; Schemas.action := action;
     Schemas.actors := ["Knight"]; Schemas.preconditions := [];
     Schemas.postconditions := [] |}.

Definition knight_graph : Schemas.LogicGraph :=
  {| Schemas.nodes := [demo_node "n1" "Depart"; demo_node "n2" "Find"];
     Schemas.edges := [{| Schemas.source := "n1"; Schemas.target := "n2";
                          Schemas.relation := "next" |}] |}.

Definition knight_request : Narrative.GenerationRequest :=
  {| Narrative.req_input_text := "A knight seeks a dragon";
     Narrative.req_target_genre := "General Fiction";
     Narrative.req_target_audience := "General";
     Narrative.req_tone := "Neutral";
     Narrative.req_words_per_scene := 200;
     Narrative.req_safety_level := "none" |}.

(** A state whose cursor stands at the end of a two-node graph. *)
Definition finished_state : Workflow.GraphState :=
  {| Workflow.story_state :=
       Schemas.set_graph knight_graph
         (Workflow.story_state (Narrative.initial_state knight_request));
     Workflow.current_node_index := 2 |}.

Section StreamVocabulary.
Import Narrative.

(** None of the records closes the stream. *)
Definition no_closing (d : list EventEmitter.event) : Prop :=
  Forall (λ e, Narrative.closes_stream (EventEmitter.ev_type e) = false) d.

(** How a session of a subscriber of [task_id], whose queue is [queue],
    stands with respect to the [records] published so far on [task_id]
    ([registry] is the emitter's [_queues]): either the subscriber is still
    in its loop, it got the records [d], none of which closes the stream,
    and the queue holds the others; or it left its loop on a closing record
    [e]. *)
Inductive tracks (task_id : string) (queue : nat) (registry : gmap string nat)
    (records : list EventEmitter.event) (s : session) : Prop :=
  | tracks_open d rest g :
      EventEmitter._queues (bus s) = registry →
      subscriber s = inl g →
      g = NotStarted task_id ∨ g = Reading queue →
      EventEmitter.queue_objs (bus s) !! queue = Some rest →
      records = (d ++ rest)%list →
      no_closing d →
      received s = map sse_of_event d →
      tracks task_id queue registry records s
  | tracks_closed d e rest :
      EventEmitter._queues (bus s) = registry →
      subscriber s = inl Leaving ∨ subscriber s = inr (Returned tt) →
      records = (d ++ e :: rest)%list →
      no_closing d →
      closes_stream (EventEmitter.ev_type e) = true →
      received s = map sse_of_event (d ++ [e]) →
      tracks task_id queue registry records s.

(** The queue of the subscriber after its oldest record was taken. *)
Definition popped (queue : nat) (rest : list EventEmitter.event) (em : EventEmitter.state)
    : EventEmitter.state :=
  {| EventEmitter.queue_objs := <[queue := rest]> (EventEmitter.queue_objs em);
     EventEmitter.next_queue := EventEmitter.next_queue em;
     EventEmitter._queues := EventEmitter._queues em |}.

(** The generator has not left its loop. *)
Definition in_loop (task_id : string) (queue : nat) (g : generator) : Prop :=
  g = NotStarted task_id ∨ g = Reading queue.

End StreamVocabulary.

(** A publisher that publishes a closing record before another one, and a
    subscriber that is then resumed three times. *)
Definition closing_first : list Narrative.action :=
  [Narrative.Publish "job" "error" [] "t1";
   Narrative.Publish "job" "scribe_progress" [] "t2";
   Narrative.Receive "t3" false; Narrative.Receive "t4" false;
   Narrative.Receive "t5" false].

Section RegistryVocabulary.
Import Narrative.

(** The shapes a job record can have. *)
Definition queued (j : Narrative.job) : Prop :=
  Narrative.status j = "queued" ∧ Narrative.result j = None ∧ Narrative.error j = None.

Definition processing (j : Narrative.job) : Prop :=
  Narrative.status j = "processing" ∧ Narrative.result j = None ∧ Narrative.error j = None.

Definition completed (j : Narrative.job) : Prop :=
  Narrative.status j = "completed" ∧ is_Some (Narrative.result j) ∧ Narrative.error j = None.

Definition failed (j : Narrative.job) : Prop :=
  Narrative.status j = "failed" ∧ Narrative.result j = None ∧ is_Some (Narrative.error j).

Definition terminal (j : Narrative.job) : Prop := completed j ∨ failed j.

(** What one step may do to a job record: nothing, or move it from queued
    to processing, or from processing to a terminal state. *)
Definition advances (j j' : Narrative.job) : Prop :=
  j' = j ∨ (queued j ∧ processing j') ∨ (processing j ∧ terminal j').

(** The job store agrees with the background tasks: a scheduled task's job
    is queued, a task awaiting the graph run has a processing job, and a
    job without a task is terminal. *)
Definition consistent (sys : Narrative.system) : Prop :=
  ∀ task_id,
    match Narrative.tasks sys !! task_id with
    | Some (Narrative.Scheduled _) =>
        ∃ j, Narrative.JOBS (Narrative.mem sys) !! task_id = Some j ∧ queued j
    | Some (Narrative.Awaiting _) =>
        ∃ j, Narrative.JOBS (Narrative.mem sys) !! task_id = Some j ∧ processing j
    | None => ∀ j, Narrative.JOBS (Narrative.mem sys) !! task_id = Some j → terminal j
    end.

(** The record the second part of the background task leaves. *)
Definition settled (awaited : outcome Workflow.GraphState) (j : job) : job :=
  match awaited with
  | Returned final_state =>
      let story := Workflow.story_state final_state in
      set_result
        {| story_text := join (Schemas.nl ++ Schemas.nl)
                           (map snd (Schemas.rendered_chunks story));
           graph_nodes := Z.of_nat (length (Schemas.nodes (Schemas.graph story)));
           chunks := Schemas.rendered_chunks story |}
        (set_status "completed" j)
  | Raised e => set_error (exn_str e) (set_status "failed" j)
  end.

(** What a step does to the job store and to the tasks. *)
Inductive effect (sys sys' : system) : Prop :=
  | effect_submit uuid4 req :
      JOBS (mem sys) !! uuid4 = None →
      tasks sys !! uuid4 = None →
      JOBS (mem sys')
        = <[uuid4 := {| status := "queued"; task_id := uuid4;
                        result := None; error := None |}]> (JOBS (mem sys)) →
      tasks sys' = <[uuid4 := Scheduled req]> (tasks sys) →
      effect sys sys'
  | effect_start t req j init :
      tasks sys !! t = Some (Scheduled req) →
      JOBS (mem sys) !! t = Some j → queued j →
      JOBS (mem sys') = <[t := set_status "processing" j]> (JOBS (mem sys)) →
      tasks sys' = <[t := Awaiting init]> (tasks sys) →
      effect sys sys'
  | effect_resume t init j awaited :
      tasks sys !! t = Some (Awaiting init) →
      JOBS (mem sys) !! t = Some j → processing j →
      JOBS (mem sys') = <[t := settled awaited j]> (JOBS (mem sys)) →
      tasks sys' = delete t (tasks sys) →
      effect sys sys'
  | effect_none :
      JOBS (mem sys') = JOBS (mem sys) →
      tasks sys' = tasks sys →
      effect sys sys'.

End RegistryVocabulary.

(** One job from submission to completion ([demo_count_words] stands in for
    [len(s.split())], which only feeds an event payload). *)
Definition demo_count_words : string → Z := λ s, Z.of_nat (String.length s).

Definition submitted : Narrative.system :=
  {| Narrative.mem := snd (Narrative.start_generation "abc123" knight_request Narrative.initial);
     Narrative.tasks := {["abc123" := Narrative.Scheduled knight_request]} |}.

Definition started : Narrative.system :=
  {| Narrative.mem :=
       snd (Narrative.run_generation_workflow_start "abc123" knight_request "t0" ""
              (Narrative.mem submitted));
     Narrative.tasks :=
       {["abc123" := Narrative.Awaiting (Narrative.initial_state knight_request)]} |}.

Definition graph_run : outcome Workflow.GraphState :=
  fst (Workflow.ainvoke (demo_deconstructor knight_graph) demo_mapper demo_oracle
         demo_scribe 25 (Narrative.initial_state knight_request) Workflow.no_effects).

Definition finished : Narrative.system :=
  {| Narrative.mem :=
       snd (Narrative.run_generation_workflow_resume demo_count_words "abc123" graph_run
              "t1" "" (Narrative.mem started));
     Narrative.tasks := ∅ |}.

(** * agents/oracle.py *)
Module Oracle.
Import Schemas.

(** The violation reported for a precondition of a node. *)
Definition precondition_violation (node : NarrativeNode) (precondition : string)
    : ValidationViolation :=
  {| violation_type := "precondition";
     description := "Precondition '" ++ precondition ++ "' for action '" ++ action node
                    ++ "' is not satisfied by any prior event";
     violation_node_id := Some (node_id node);
     severity := "error" |}.

(** The inner loop: [for precondition in node.preconditions]. *)
Fixpoint check_preconditions (node : NarrativeNode) (satisfied_conditions : gset string)
    (preconditions : list string) (violations : list ValidationViolation)
    : list ValidationViolation :=
  match preconditions with
  | [] => violations
  | precondition :: rest =>
      check_preconditions node satisfied_conditions rest
        (if bool_decide (precondition ∈ satisfied_conditions) then violations
         else (violations ++ [precondition_violation node precondition])%list)
  end.

(** The outer loop: [for i, node in enumerate(logic_graph.nodes)]. *)
Fixpoint check_nodes (nodes : list NarrativeNode) (satisfied_conditions : gset string)
    (violations : list ValidationViolation) : list ValidationViolation :=
  match nodes with
  | [] => violations
  | node :: rest =>
      let violations :=
        check_preconditions node satisfied_conditions (preconditions node) violations in
      check_nodes rest (satisfied_conditions ∪ list_to_set (postconditions node)) violations
  end.

(** [OracleAgent.validate_symbolic]; it has no [await] and raises nothing. *)
Definition validate_symbolic (logic_graph : LogicGraph) (world_state : WorldState)
    : ValidationResult :=
  let violations := check_nodes (nodes logic_graph) ∅ [] in
  let is_valid :=
    Nat.eqb (length (filter (λ v, severity v = "error") violations)) 0 in
  let suggestions :=
    if is_valid then []
    else ["Reorder events to ensure preconditions are met";
          "Add intermediate events to establish missing preconditions"] in
  {| validation_reasoning :=
       "Symbolic validation checked " ++ pretty (length (nodes logic_graph))
       ++ " nodes and " ++ pretty (length (edges logic_graph))
       ++ " edges. Found " ++ pretty (length violations) ++ " violations.";
     is_valid := is_valid;
     violations := violations;
     suggestions := suggestions |}.

(** The conditions that hold before the [i]-th node is checked: the
    postconditions of the nodes before it. *)
Definition established (nodes : list NarrativeNode) (i : nat) (condition : string) : Prop :=
  ∃ j node, j < i ∧ nodes !! j = Some node ∧ condition ∈ postconditions node.

(** The violations the nodes give rise to, when [satisfied] holds at their
    start: one for each occurrence of a precondition that is not satisfied,
    in the order of the nodes and of their preconditions. *)
Fixpoint unsatisfied (nodes : list NarrativeNode) (satisfied : gset string)
    : list ValidationViolation :=
  match nodes with
  | [] => []
  | node :: rest =>
      (map (precondition_violation node)
         (filter (λ p, p ∉ satisfied) (preconditions node))
       ++ unsatisfied rest (satisfied ∪ list_to_set (postconditions node)))%list
  end.

End Oracle.

(** * The emitter seen through its channels *)

Section BusOperations.
Import EventEmitter.

(** The calls a client can make on the emitter. *)
Inductive bus_op : Type :=
  | CreateQueue (task_id : string)
  | Emit (task_id event_type : string) (data : list (string * pyval)) (now : string)
  | Cleanup (task_id : string).

Definition apply_op (st : state) (op : bus_op) : state :=
  match op with
  | CreateQueue task_id => snd (create_queue task_id st)
  | Emit task_id event_type data now => snd (emit task_id event_type data now st)
  | Cleanup task_id => snd (cleanup task_id st)
  end.

Definition apply_ops (ops : list bus_op) (st : state) : state := fold_left apply_op ops st.

(** The channels of an emitter: for each registered task id, the records
    its queue holds. *)
Definition channels (st : state) : gmap string (list event) :=
  omap (λ queue, queue_objs st !! queue) (_queues st).

(** What a call should do to the channels, were each channel a list of its
    own. *)
Definition channels_after (chans : gmap string (list event)) (op : bus_op)
    : gmap string (list event) :=
  match op with
  | CreateQueue task_id => <[task_id := []]> chans
  | Emit task_id event_type data now =>
      alter (λ records, (records ++ [Event event_type data now])%list) task_id chans
  | Cleanup task_id => delete task_id chans
  end.

End BusOperations.

(** * More vocabulary for the token bucket *)

Section BucketBounds.
Import Gemini.
Local Open Scope Q_scope.

(** The bucket a call of [acquire] leaves. *)
Definition bucket_of {N : number} (a : acquired N) : TokenBucket N :=
  match a with
  | Acquired _ _ b _ => b
  | AcquireRaised _ _ b => b
  | Waiting _ b => b
  end.

(** The token count lies between zero and the capacity. *)
Definition within_capacity (b : TokenBucket exact) : Prop :=
  0 <= _tokens b ∧ _tokens b <= inject_Z (capacity b).

(** The bucket of an application whose [GEMINI_RPM_LIMIT] is set to 0, in
    both readings of the arithmetic. *)
Definition closed_bucket : TokenBucket exact := @new_bucket exact 0 (0 / 60) 0.
Definition closed_bucket64 : TokenBucket binary64 :=
  @new_bucket binary64 0 (0 / 60)%float 0%float.

End BucketBounds.

(** * The scribe loop as a fold over the node list *)

Section Rendering.
Import Schemas.
Import Workflow.

Variable scribe_run :
  NarrativeNode → NarrativeMemory → string → string → string → Z → string → outcome string.

(** The story after [prose_chunk] was rendered for [node]: the three
    assignments of [node_scribe]. *)
Definition rendered (node : NarrativeNode) (prose_chunk : string) (story : StoryState)
    : StoryState :=
  let story1 :=
    set_rendered_chunks (dict_set (node_id node) prose_chunk (rendered_chunks story)) story in
  let story2 := set_memory (set_last_paragraph prose_chunk (memory story1)) story1 in
  set_memory
    (set_running_summary (running_summary (memory story2) ++ nl ++ prose_chunk)
       (memory story2))
    story2.

(** The scribe agent's answer for [node] at the point [story] of the run. *)
Definition scribe_answer (node : NarrativeNode) (story : StoryState) : outcome string :=
  scribe_run node (memory story) (target_genre story) (target_audience story) (tone story)
    (words_per_scene story) (safety_level story).

(** Rendering the nodes one after the other, up to the first for which the
    agent fails: how it ends, and the agent calls made. *)
Fixpoint render_all (nodes : list NarrativeNode) (story : StoryState)
    : outcome StoryState * list agent_call :=
  match nodes with
  | [] => (Returned story, [])
  | node :: rest =>
      match scribe_answer node story with
      | Returned prose_chunk =>
          let '(r, cs) := render_all rest (rendered node prose_chunk story) in
          (r, ScribeRun node (memory story) :: cs)
      | Raised e => (Raised e, [ScribeRun node (memory story)])
      end
  end.

(** The story when the scribe node is entered for the first time. *)
Definition prepared (g : LogicGraph) (mapping : AnalogicalMapping)
    (validation : ValidationResult) (story : StoryState) : StoryState :=
  let story1 := set_graph g story in
  let story2 := set_analogical_mapping (Some mapping) story1 in
  set_validation_results (validation_results story2 ++ [validation])%list story2.

(** The calls of the three stages before the scribe. *)
Definition stage_calls (init : GraphState) (g : LogicGraph) : list agent_call :=
  [DeconstructorRun (input_text (story_state init)); MapperRun g; OracleValidateSymbolic g].

(** What a run is given up with when its recursion limit is used up. *)
Definition out_of_steps : exn :=
  GraphRecursionError "Recursion limit reached without hitting a stop condition".

(** How a run with answering first stages ends under the recursion limit
    [limit], read off the fold over the nodes the limit leaves room for:
    three executions go to the stages before the scribe, and the run
    returns only if it needs fewer executions than the limit. *)
Definition run_of_fold (limit : nat) (init : GraphState) (g : LogicGraph)
    (fold : outcome StoryState * list agent_call) : outcome GraphState * world :=
  match fold with
  | (Returned story, cs) =>
      if (Nat.max (length (nodes g)) 1 <? limit - 3)%nat then
        (Returned {| story_state := story;
                     current_node_index := Z.of_nat (length (nodes g)) |},
         {| calls := (stage_calls init g ++ cs)%list;
            executed := ([Deconstruct; Map; Validate]
                         ++ repeat Scribe (Nat.max (length (nodes g)) 1))%list |})
      else
        (Raised out_of_steps,
         {| calls := (stage_calls init g ++ cs)%list;
            executed := ([Deconstruct; Map; Validate] ++ repeat Scribe (limit - 3))%list |})
  | (Raised e, cs) =>
      (Raised e,
       {| calls := (stage_calls init g ++ cs)%list;
          executed := ([Deconstruct; Map; Validate] ++ repeat Scribe (length cs))%list |})
  end.

(** What the scribe agent was given, call by call. *)
Fixpoint scribe_requests (cs : list agent_call) : list (NarrativeNode * NarrativeMemory) :=
  match cs with
  | [] => []
  | ScribeRun node m :: cs' => (node, m) :: scribe_requests cs'
  | _ :: cs' => scribe_requests cs'
  end.

(** The keys of a dict after [d[id] = v]. *)
Definition add_key (keys : list string) (id : string) : list string :=
  if decide (id ∈ keys) then keys else (keys ++ [id])%list.

End Rendering.

(** The symbolic oracle as the validation stage of the graph. *)
Definition symbolic_oracle
    : Schemas.LogicGraph → Schemas.WorldState → outcome Schemas.ValidationResult :=
  λ g w, Returned (Oracle.validate_symbolic g w).

(** A graph whose first event needs what only its second one brings about. *)
Definition needy_node (id action : string) (pre post : list string) : Schemas.NarrativeNode :=
  {| Schemas.node_reasoning := ""; Schemas.node_id := id; Schemas.action := action;
     Schemas.actors := ["Knight"]; Schemas.preconditions := pre;
     Schemas.postconditions := post |}.

Definition slay_first : Schemas.LogicGraph :=
  {| Schemas.nodes := [needy_node "n1" "Slay" ["has sword"] ["dragon dead"]];
     Schemas.edges := [] |}.

Definition slay_then_forge : Schemas.LogicGraph :=
  {| Schemas.nodes := [needy_node "n1" "Slay" ["has sword"] ["dragon dead"];
                       needy_node "n2" "Forge" [] ["has sword"]];
     Schemas.edges := [{| Schemas.source := "n1"; Schemas.target := "n2";
                          Schemas.relation := "next" |}] |}.

(** A graph of 22 events: one more than the default recursion limit has
    room for. *)
Definition long_graph : Schemas.LogicGraph :=
  {| Schemas.nodes := repeat (demo_node "n" "Act") 22; Schemas.edges := [] |}.

(** Stages that fail. *)
Definition failing_deconstructor : string → outcome Schemas.LogicGraph :=
  λ _, Raised (RetryError (ValidationError "LogicGraph")).

Definition failing_mapper : Schemas.LogicGraph → outcome Schemas.AnalogicalMapping :=
  λ _, Raised (RetryError (TransportError "503")).

Definition failing_oracle
    : Schemas.LogicGraph → Schemas.WorldState → outcome Schemas.ValidationResult :=
  λ _ _, Raised (ValueError "oracle").

(** A scribe that fails on the node [n2]. *)
Definition failing_scribe
    : Schemas.NarrativeNode → Schemas.NarrativeMemory → string → string → string → Z →
      string → outcome string :=
  λ node _ _ _ _ _ _,
    if String.eqb (Schemas.node_id node) "n2"
    then Raised (RetryError (ValueError "Empty text in response"))
    else Returned ("Prose for " ++ Schemas.node_id node).

(** * The records of a job, and a subscriber beside the worker *)

Section JobVocabulary.
Import Narrative.

Variable count_words : string → Z.

(** The record [run_generation_workflow] publishes first. *)
Definition opening_record (request : GenerationRequest) (now : string) : EventEmitter.event :=
  EventEmitter.Event "workflow_start"
    [("input_text", VStr (slice_to 100 (req_input_text request)));
     ("genre", VStr (req_target_genre request));
     ("words_per_scene", VInt (req_words_per_scene request));
     ("safety_level", VStr (req_safety_level request))] now.

(** The record it publishes last, after the graph run ended as [awaited]. *)
Definition closing_record (awaited : outcome Workflow.GraphState) (now error_trace : string)
    : EventEmitter.event :=
  match awaited with
  | Returned final_state =>
      let story := Workflow.story_state final_state in
      let full_story :=
        join (Schemas.nl ++ Schemas.nl) (map snd (Schemas.rendered_chunks story)) in
      EventEmitter.Event "workflow_complete"
        [("total_nodes", VInt (Z.of_nat (length (Schemas.nodes (Schemas.graph story)))));
         ("total_chunks", VInt (Z.of_nat (length (Schemas.rendered_chunks story))));
         ("total_words", VInt (count_words full_story))] now
  | Raised e =>
      EventEmitter.Event "error"
        [("message", VStr (exn_str e)); ("traceback", VStr error_trace)] now
  end.

(** What the status endpoint answers for a job whose graph run ended as
    [awaited]. *)
Definition final_response (task_id : string) (awaited : outcome Workflow.GraphState)
    : JobStatusResponse :=
  match awaited with
  | Returned final_state =>
      let story := Workflow.story_state final_state in
      {| resp_task_id := task_id; resp_status := "completed";
         resp_result :=
           Some {| story_text :=
                     join (Schemas.nl ++ Schemas.nl) (map snd (Schemas.rendered_chunks story));
                   graph_nodes := Z.of_nat (length (Schemas.nodes (Schemas.graph story)));
                   chunks := Schemas.rendered_chunks story |};
         resp_error := None |}
  | Raised e =>
      {| resp_task_id := task_id; resp_status := "failed";
         resp_result := None; resp_error := Some (exn_str e) |}
  end.

(** The second part of the worker of [task_id] runs beside a subscriber's
    session: on the session's emitter, with the job store [jobs]. *)
Definition finish_job (task_id : string) (awaited : outcome Workflow.GraphState)
    (now error_trace : string) (jobs : gmap string job) (s : session) : session :=
  {| bus :=
       event_emitter
         (snd (run_generation_workflow_resume count_words task_id awaited now error_trace
                 {| JOBS := jobs; event_emitter := bus s |}));
     subscriber := subscriber s;
     received := received s |}.

End JobVocabulary.

(** A store with one other job, for the examples. *)
Definition other_job_store : Narrative.state :=
  snd (Narrative.start_generation "other" knight_request Narrative.initial).

(** The chunk a subscriber gets when its wait for a record times out:
    building the heartbeat evaluates [datetime], which the module does not
    import, and the generator's handler turns the [NameError] into this
    chunk. *)
Definition timeout_chunk : Narrative.sse :=
  {| Narrative.sse_type := "error";
     Narrative.sse_data := Some [("message", VStr "name 'datetime' is not defined")];
     Narrative.sse_timestamp := None |}.

(** * Properties of the event bus *)

Lemma wf_initial : EventEmitter.wf EventEmitter.initial.
Proof.
  split; simpl.
  - intros t q H. by rewrite lookup_empty in H.
  - intros q [x H]. by rewrite lookup_empty in H.
  - intros t1 t2 q H. by rewrite lookup_empty in H.
Qed.

Lemma wf_create_queue task_id st :
  EventEmitter.wf st → EventEmitter.wf (snd (EventEmitter.create_queue task_id st)).
Proof.
  intros [Ha Hf Hi]. split; simpl.
  - intros t q. rewrite lookup_insert. case_decide as Ht.
    + intros [= <-]. split; [lia|]. rewrite lookup_insert_eq. eauto.
    + intros Hq. destruct (Ha _ _ Hq) as [Hlt Hs]. split; [lia|].
      rewrite lookup_insert_ne; [done|lia].
  - intros q. rewrite lookup_insert. case_decide as Hq; [lia|].
    intros Hs. specialize (Hf _ Hs). lia.
  - intros t1 t2 q. rewrite !lookup_insert.
    repeat case_decide; subst; try congruence.
    + intros [= <-] Hq. pose proof (Ha _ _ Hq). lia.
    + intros Hq [= <-]. pose proof (Ha _ _ Hq). lia.
    + apply Hi.
Qed.

Lemma wf_emit task_id event_type data now st :
  EventEmitter.wf st → EventEmitter.wf (snd (EventEmitter.emit task_id event_type data now st)).
Proof.
  intros [Ha Hf Hi]. unfold EventEmitter.emit.
  destruct (EventEmitter._queues st !! task_id) as [queue|] eqn:E; [|by split].
  split; simpl.
  - intros t q Hq. destruct (Ha _ _ Hq) as [Hlt Hs]. split; [done|].
    rewrite lookup_alter. case_decide; subst; [|done].
    by apply fmap_is_Some.
  - intros q. rewrite lookup_alter. case_decide; subst; [|apply Hf].
    intros Hs. apply fmap_is_Some in Hs. by apply Hf.
  - apply Hi.
Qed.

Lemma wf_cleanup task_id st :
  EventEmitter.wf st → EventEmitter.wf (snd (EventEmitter.cleanup task_id st)).
Proof.
  intros [Ha Hf Hi]. unfold EventEmitter.cleanup.
  destruct (EventEmitter._queues st !! task_id) as [queue|] eqn:E; [|by split].
  split; simpl.
  - intros t q Hq. apply lookup_delete_Some in Hq as [_ Hq]. by eapply Ha.
  - apply Hf.
  - intros t1 t2 q H1 H2. apply lookup_delete_Some in H1 as [_ H1].
    apply lookup_delete_Some in H2 as [_ H2]. by eapply Hi.
Qed.

Lemma get_queue_cleanup task_id st :
  EventEmitter.get_queue task_id (snd (EventEmitter.cleanup task_id st)) = None.
Proof.
  unfold EventEmitter.get_queue, EventEmitter.cleanup.
  destruct (EventEmitter._queues st !! task_id) eqn:E; simpl; [|done].
  apply lookup_delete_eq.
Qed.

Lemma emit_no_queue task_id event_type data now st :
  EventEmitter.get_queue task_id st = None →
  EventEmitter.emit task_id event_type data now st = (Returned tt, st).
Proof. unfold EventEmitter.get_queue, EventEmitter.emit. by intros ->. Qed.

(** C6. Publishing on a task id that has no channel, because none was ever
    created or because [cleanup] removed it, returns normally and leaves the
    whole emitter state (the channel map and every queue) as it was. *)
Theorem emit_without_channel_is_noop task_id event_type data now st :
  (EventEmitter.get_queue task_id st = None →
     EventEmitter.emit task_id event_type data now st = (Returned tt, st))
  ∧ EventEmitter.emit task_id event_type data now (snd (EventEmitter.cleanup task_id st))
      = (Returned tt, snd (EventEmitter.cleanup task_id st))
  ∧ EventEmitter.emit task_id event_type data now EventEmitter.initial
      = (Returned tt, EventEmitter.initial).
Proof.
  split; [apply emit_no_queue|].
  split; [apply emit_no_queue, get_queue_cleanup|].
  by apply emit_no_queue.
Qed.

Lemma wf_one_record_channel : EventEmitter.wf one_record_channel.
Proof. apply wf_emit, wf_create_queue, wf_initial. Qed.

(** C7, as stated, fails: a second [create_queue] for an id that has a
    channel with a buffered record leaves an empty channel. *)
Lemma create_queue_not_idempotent :
  EventEmitter.channel "job" one_record_channel
    = Some [EventEmitter.Event "workflow_start" [] "t0"]
  ∧ EventEmitter.channel "job" (snd (EventEmitter.create_queue "job" one_record_channel))
    = Some []
  ∧ EventEmitter.channel "job" (snd (EventEmitter.create_queue "job" one_record_channel))
    ≠ EventEmitter.channel "job" one_record_channel.
Proof. vm_compute. repeat split; congruence. Qed.

(** C7, amended. [create_queue] registers a new, empty queue for the id
    whether or not one is registered: afterwards the id's channel is empty,
    the channels of the other ids are as before, every queue object that
    existed keeps its records (but the one the id had is no longer
    registered), and a second call right after the first changes nothing
    an observer of the channels can see. *)
Theorem create_queue_replaces_channel task_id st :
  EventEmitter.wf st →
  let st1 := snd (EventEmitter.create_queue task_id st) in
  let st2 := snd (EventEmitter.create_queue task_id st1) in
  EventEmitter.channel task_id st1 = Some []
  ∧ (∀ t, t ≠ task_id → EventEmitter.channel t st1 = EventEmitter.channel t st)
  ∧ (∀ q, is_Some (EventEmitter.queue_objs st !! q) →
          EventEmitter.queue_objs st1 !! q = EventEmitter.queue_objs st !! q
          ∧ EventEmitter.get_queue task_id st1 ≠ Some q)
  ∧ (∀ t, EventEmitter.channel t st2 = EventEmitter.channel t st1).
Proof.
  intros Hwf st1 st2.
  assert (Hnew : ∀ s, EventEmitter.channel task_id (snd (EventEmitter.create_queue task_id s)) = Some []).
  { intros s. unfold EventEmitter.channel. simpl.
    rewrite lookup_insert_eq. simpl. by rewrite lookup_insert_eq. }
  assert (Hold : ∀ s t, EventEmitter.wf s → t ≠ task_id →
            EventEmitter.channel t (snd (EventEmitter.create_queue task_id s))
            = EventEmitter.channel t s).
  { intros s t [Ha _ _] Hne. unfold EventEmitter.channel. simpl.
    rewrite lookup_insert_ne; [|done].
    destruct (EventEmitter._queues s !! t) as [q|] eqn:E; simpl; [|done].
    destruct (Ha _ _ E) as [Hlt _]. rewrite lookup_insert_ne; [done|lia]. }
  split; [apply Hnew|]. split; [intros t Hne; by apply Hold|]. split.
  - intros q Hq. destruct Hwf as [_ Hf _]. specialize (Hf _ Hq).
    split.
    + subst st1. simpl. rewrite lookup_insert_ne; [done|lia].
    + subst st1. unfold EventEmitter.get_queue. simpl. rewrite lookup_insert_eq.
      intros [= ?]. lia.
  - intros t. destruct (decide (t = task_id)) as [->|Hne].
    + subst st2 st1. by rewrite !Hnew.
    + subst st2. apply Hold; [|done]. by apply wf_create_queue.
Qed.

Lemma create_queue_replaces_channel_witness :
  EventEmitter.channel "job" (snd (EventEmitter.create_queue "job" one_record_channel))
    = Some [].
Proof.
  apply (create_queue_replaces_channel "job" one_record_channel wf_one_record_channel).
Defined.

(** * Properties of the gateway *)

Lemma safety_preset_unknown safety_level :
  safety_level ∉ ["none"; "low"; "medium"; "high"] →
  Gemini.SAFETY_PRESETS !! safety_level = None.
Proof.
  intros Hnot. unfold Gemini.SAFETY_PRESETS.
  rewrite !lookup_insert_ne, lookup_empty; [done|..];
    intros <-; apply Hnot; set_solver.
Qed.

(** C9. A safety level that is not a key of [SAFETY_PRESETS] makes every one
    of the four safety settings [BLOCK_NONE]; the request, and with it the
    whole decorated call, is the one made for ["none"]. *)
Theorem unknown_safety_level_is_block_none {T} (model_validate_json : string → outcome T)
    (env : Gemini.backend) (model_name prompt response_model : string)
    (temperature : Q) (safety_level : string) :
  safety_level ∉ ["none"; "low"; "medium"; "high"] →
  let req := Gemini.build_request model_name prompt response_model temperature safety_level in
  map Gemini.threshold (Gemini.safety_settings (Gemini.config req))
    = ["BLOCK_NONE"; "BLOCK_NONE"; "BLOCK_NONE"; "BLOCK_NONE"]
  ∧ req = Gemini.build_request model_name prompt response_model temperature "none"
  ∧ Gemini.generate_structured model_validate_json env model_name prompt response_model
      temperature safety_level
    = Gemini.generate_structured model_validate_json env model_name prompt response_model
        temperature "none".
Proof.
  intros Hnot req.
  assert (Hreq : req = Gemini.build_request model_name prompt response_model temperature "none").
  { subst req. unfold Gemini.build_request, Gemini.safety_setting, Gemini.dict_get.
    by rewrite (safety_preset_unknown _ Hnot). }
  split; [by rewrite Hreq|]. split; [done|].
  unfold Gemini.generate_structured. fold req. by rewrite Hreq.
Qed.

Lemma unknown_safety_level_is_block_none_witness :
  ("HIGH" ∉ ["none"; "low"; "medium"; "high"])
  ∧ Gemini.build_request "gemini-1.5-pro" "p" "ScribeOutput" 0.7 "HIGH"
    = Gemini.build_request "gemini-1.5-pro" "p" "ScribeOutput" 0.7 "none".
Proof.
  assert (H : "HIGH" ∉ ["none"; "low"; "medium"; "high"]).
  { intros H. repeat (apply elem_of_cons in H as [H|H]; [discriminate H|]).
    by apply elem_of_nil in H. }
  split; [exact H|].
  apply (unknown_safety_level_is_block_none (λ s, Returned s) filtered_backend
           "gemini-1.5-pro" "p" "ScribeOutput" 0.7 "HIGH" H).
Defined.

Section Retry.
Context {T : Type}.
Variable model_validate_json : string → outcome T.
Variable env : Gemini.backend.
Variable req : Gemini.request.

Let attempt (k : nat) : outcome T := Gemini.attempt_of model_validate_json env req k.

Lemma retrying_attempts remaining first waited :
  let run := Gemini.retrying remaining first attempt waited in
  (first ≤ Gemini.attempt_number run ≤ first + remaining)%nat.
Proof.
  revert first waited. induction remaining as [|r IH]; intros first waited; simpl.
  - destruct (attempt first); simpl; lia.
  - destruct (attempt first); simpl; [lia|].
    specialize (IH (S first) (Gemini.wait_exponential 1 2 10 first :: waited)). simpl in IH.
    lia.
Qed.

End Retry.

(** C2, as stated, fails in its last part: when all three attempts fail, the
    caller does not get the last error but tenacity's [RetryError] around
    it. *)
Lemma exhausted_retries_do_not_reraise :
  let run := Gemini.generate_structured (λ s, Returned s) filtered_backend
               "gemini-1.5-pro" "prompt" "ScribeOutput" 0.7 "none" in
  Gemini.attempt_of (λ s, Returned s) filtered_backend
    (Gemini.build_request "gemini-1.5-pro" "prompt" "ScribeOutput" 0.7 "none") 3
    = Raised (ValueError "Empty text in response")
  ∧ Gemini.attempt_number run = 3
  ∧ Gemini.result run = Raised (RetryError (ValueError "Empty text in response"))
  ∧ Gemini.result run ≠ Raised (ValueError "Empty text in response").
Proof. vm_compute. repeat split; congruence. Qed.

(** C2, amended. A decorated call makes at least one and at most three
    attempts. Whatever the two errors are (a validation failure, an empty
    or filtered answer, a transport error), a call whose first two attempts
    fail and whose third succeeds returns the third attempt's value after
    exactly three attempts, having waited 2 seconds twice; a call whose
    three attempts fail raises, after exactly three attempts, a [RetryError]
    that carries the third attempt's error. *)
Theorem generate_structured_retries {T} (model_validate_json : string → outcome T)
    (env : Gemini.backend) (model_name prompt response_model : string)
    (temperature : Q) (safety_level : string) :
  let req := Gemini.build_request model_name prompt response_model temperature safety_level in
  let attempt := Gemini.attempt_of model_validate_json env req in
  let run := Gemini.generate_structured model_validate_json env model_name prompt
               response_model temperature safety_level in
  (1 ≤ Gemini.attempt_number run ≤ 3)%nat
  ∧ (∀ v, attempt 1 = Returned v →
       Gemini.result run = Returned v ∧ Gemini.attempt_number run = 1)
  ∧ (∀ e1 e2 v,
       attempt 1 = Raised e1 → attempt 2 = Raised e2 → attempt 3 = Returned v →
       Gemini.result run = Returned v ∧ Gemini.attempt_number run = 3
       ∧ Gemini.waits run = [2; 2]%Z)
  ∧ (∀ e1 e2 e3,
       attempt 1 = Raised e1 → attempt 2 = Raised e2 → attempt 3 = Raised e3 →
       Gemini.result run = Raised (RetryError e3) ∧ Gemini.attempt_number run = 3).
Proof.
  intros req attempt run.
  assert (Hrun : run = Gemini.retrying 2 1 attempt []) by reflexivity.
  rewrite Hrun. clear Hrun run. split; [|split; [|split]].
  - pose proof (retrying_attempts model_validate_json env req 2 1 []) as H.
    simpl in H. exact H.
  - intros v H1. cbn [Gemini.retrying]. by rewrite H1.
  - intros e1 e2 v H1 H2 H3. cbn [Gemini.retrying]. by rewrite H1, H2, H3.
  - intros e1 e2 e3 H1 H2 H3. cbn [Gemini.retrying]. by rewrite H1, H2, H3.
Qed.

(** A transport error, then an answer without candidates, then a valid one. *)
Lemma generate_structured_retries_witness :
  let run := Gemini.generate_structured (λ s, Returned s) flaky_backend
               "gemini-1.5-pro" "prompt" "ScribeOutput" 0.7 "none" in
  Gemini.result run = Returned "{}" ∧ Gemini.attempt_number run = 3%nat
  ∧ Gemini.waits run = [2; 2]%Z.
Proof.
  eapply (generate_structured_retries (λ s, Returned s) flaky_backend); reflexivity.
Defined.

(** * Properties of the workflow graph *)

Section GraphFacts.
Import Schemas.
Import Workflow.

Variable deconstructor_run : string → outcome LogicGraph.
Variable mapper_run : LogicGraph → outcome AnalogicalMapping.
Variable oracle_validate_symbolic : LogicGraph → WorldState → outcome ValidationResult.
Variable scribe_run :
  NarrativeNode → NarrativeMemory → string → string → string → Z → string → outcome string.

Lemma apply_empty_update state : apply_update state empty_update = state.
Proof. by destruct state. Qed.

Lemma py_index_in_range {A} (l : list A) (i : nat) (x : A) :
  l !! i = Some x → py_index l (Z.of_nat i) = Returned x.
Proof.
  intros H. pose proof (lookup_lt_Some _ _ _ H) as Hlt. unfold py_index.
  destruct (Z.ltb_spec (Z.of_nat i) 0); [lia|].
  destruct (Z.leb_spec 0 (Z.of_nat i)); [|lia].
  destruct (Z.ltb_spec (Z.of_nat i) (Z.of_nat (length l))); [|lia].
  simpl. by rewrite Nat2Z.id, H.
Qed.

Lemma scribe_calls_app cs1 cs2 :
  scribe_calls (cs1 ++ cs2) = (scribe_calls cs1 ++ scribe_calls cs2)%list.
Proof.
  induction cs1 as [|c cs1 IH]; [done|]. destruct c; simpl; by rewrite ?IH.
Qed.

(** Unfolding one node execution of the engine. *)
Lemma run_from_S limit n state w u w' :
  node_function deconstructor_run mapper_run oracle_validate_symbolic scribe_run n state
    {| calls := calls w; executed := (executed w ++ [n])%list |} = (Returned u, w') →
  run_from deconstructor_run mapper_run oracle_validate_symbolic scribe_run
    (S limit) n state w
  = match edge n (apply_update state u) with
    | END =>
        match limit with
        | O => (Raised (GraphRecursionError
                          "Recursion limit reached without hitting a stop condition"), w')
        | S _ => (Returned (apply_update state u), w')
        end
    | To n' =>
        run_from deconstructor_run mapper_run oracle_validate_symbolic scribe_run
          limit n' (apply_update state u) w'
    end.
Proof.
  intros H. cbn [run_from]. unfold bind at 1. unfold enter.
  unfold bind at 1. rewrite H.
  destruct (edge n (apply_update state u)); [done|]. by destruct limit.
Qed.

Lemma node_scribe_idle state w :
  (current_node_index state >= Z.of_nat (length (nodes (graph (story_state state)))))%Z →
  node_scribe scribe_run state w = (Returned empty_update, w).
Proof.
  intros Hge. unfold node_scribe.
  destruct (Z.geb_spec (current_node_index state)
              (Z.of_nat (length (nodes (graph (story_state state)))))); [done|lia].
Qed.

(** C10. With the cursor at or past the end of the node list, [node_scribe]
    returns the empty update and has no effect: no agent call is made (the
    record of calls is as before, whatever the agent would answer), and the
    state the engine derives from the update is the state it had, so no
    chunk is added, the memory is untouched and the cursor stays. *)
Theorem node_scribe_past_end state w :
  (current_node_index state >= Z.of_nat (length (nodes (graph (story_state state)))))%Z →
  node_scribe scribe_run state w = (Returned empty_update, w)
  ∧ apply_update state empty_update = state
  ∧ (∀ n, edge n (apply_update state empty_update) = edge n state).
Proof.
  intros Hge. split; [by apply node_scribe_idle|].
  rewrite apply_empty_update. by split.
Qed.

End GraphFacts.

(** C3. The code at an empty node list: the scribe node is executed once,
    not zero times as the claim says. The edge from [validate] enters the
    scribe node without asking the guard, which is asked only after an
    execution; that execution calls no agent and does not move the
    cursor. *)
Lemma empty_graph_executes_scribe_once :
  let run := Workflow.ainvoke (demo_deconstructor Schemas.LogicGraph_default)
               demo_mapper demo_oracle demo_scribe Workflow.default_recursion_limit
               (Narrative.initial_state knight_request) Workflow.no_effects in
  length (Schemas.nodes Schemas.LogicGraph_default) = 0%nat
  ∧ (∃ final, fst run = Returned final ∧ Workflow.current_node_index final = 0%Z)
  ∧ Workflow.executed (snd run)
    = [Workflow.Deconstruct; Workflow.Map; Workflow.Validate; Workflow.Scribe]
  ∧ scribe_calls (Workflow.calls (snd run)) = []
  ∧ scribe_executions (Workflow.executed (snd run)) = 1%nat
  ∧ scribe_executions (Workflow.executed (snd run)) ≠ 0%nat.
Proof.
  vm_compute. split; [done|]. split; [eexists; split; reflexivity|].
  repeat split. discriminate.
Qed.

Lemma demo_scribe_answers story : scribe_answers demo_scribe story.
Proof. intros node m. eexists. reflexivity. Qed.

Lemma node_scribe_past_end_witness :
  Workflow.node_scribe demo_scribe finished_state Workflow.no_effects
    = (Returned Workflow.empty_update, Workflow.no_effects)
  ∧ Workflow.apply_update finished_state Workflow.empty_update = finished_state
  ∧ (∀ n, Workflow.edge n (Workflow.apply_update finished_state Workflow.empty_update)
          = Workflow.edge n finished_state).
Proof.
  apply (node_scribe_past_end demo_scribe finished_state Workflow.no_effects).
  vm_compute. discriminate.
Defined.

(** * Properties of the progress stream *)

(** How [event_generator] really ends for a task without a queue: building
    the error chunk evaluates [datetime], which the module does not import. *)
Lemma event_generator_unknown_task task_id em now timed_out :
  EventEmitter.get_queue task_id em = None →
  Narrative.anext now timed_out (Narrative.NotStarted task_id) em
    = (Narrative.Stopped (Raised (NameError "datetime")), em).
Proof. intros H. unfold Narrative.anext. by rewrite H. Qed.

(** C8. The code at a task id without a channel. The operation raises no
    not-found error: it returns a streaming response with status 200. The
    generator then sets out to yield one [error] record with the message
    that the task was not found; building that record evaluates
    [datetime], a name that is bound nowhere in the module, so the first
    resumption ends the iteration with [NameError] and the stream carries
    no not-found signal at all. The emitter is left as it was. (The
    status endpoint, for the same id, does raise the not-found error.) *)
Theorem stream_of_unknown_task_stops_with_name_error :
  EventEmitter.get_queue "unknown" EventEmitter.initial = None
  ∧ Narrative.stream_thinking "unknown"
    = Returned {| Narrative.status_code := 200;
                  Narrative.media_type := "text/event-stream";
                  Narrative.body := Narrative.NotStarted "unknown" |}
  ∧ fst (Narrative.get_generation_status "unknown" Narrative.initial)
    = Raised (HTTPException 404 "Task not found")
  ∧ Narrative.lookup_name "datetime" = Raised (NameError "datetime")
  ∧ (∀ now timed_out,
       Narrative.anext now timed_out (Narrative.NotStarted "unknown") EventEmitter.initial
       = (Narrative.Stopped (Raised (NameError "datetime")), EventEmitter.initial)).
Proof.
  split; [reflexivity|]. split; [reflexivity|]. split; [reflexivity|].
  split; [vm_compute; reflexivity|].
  intros now timed_out. by apply event_generator_unknown_task.
Qed.

Lemma until_closing_app d l :
  no_closing d → Narrative.until_closing (d ++ l) = (d ++ Narrative.until_closing l)%list.
Proof.
  induction 1 as [|e d He _ IH]; [done|]. simpl. by rewrite He, IH.
Qed.

Lemma until_closing_closed d e l :
  no_closing d → Narrative.closes_stream (EventEmitter.ev_type e) = true →
  Narrative.until_closing (d ++ e :: l) = (d ++ [e])%list.
Proof.
  intros Hd He. rewrite until_closing_app by done. simpl. by rewrite He.
Qed.

Lemma until_closing_all l e :
  no_closing l → Narrative.until_closing (l ++ [e]) = (l ++ [e])%list.
Proof.
  intros Hl. rewrite until_closing_app by done. simpl.
  by destruct (Narrative.closes_stream (EventEmitter.ev_type e)).
Qed.

Lemma published_app task_id acts1 acts2 :
  Narrative.published task_id (acts1 ++ acts2)
  = (Narrative.published task_id acts1 ++ Narrative.published task_id acts2)%list.
Proof.
  induction acts1 as [|a acts1 IH]; [done|].
  destruct a as [t ty d now|now b]; simpl; [|done].
  destruct (String.eqb t task_id); simpl; by rewrite IH.
Qed.

Section Subscription.
Import Narrative.

(** A subscriber of [task_id], whose queue is [queue]; [registry] is the
    emitter's [_queues], which neither publishing nor receiving changes. *)
Variable task_id : string.
Variable queue : nat.
Variable registry : gmap string nat.
Hypothesis registered : registry !! task_id = Some queue.
Hypothesis registered_once : ∀ t, registry !! t = Some queue → t = task_id.

Lemma read_queue_tracks records s d rest g now :
  EventEmitter._queues (bus s) = registry →
  subscriber s = inl g →
  EventEmitter.queue_objs (bus s) !! queue = Some rest →
  records = (d ++ rest)%list →
  no_closing d →
  received s = map sse_of_event d →
  ∀ r em, read_queue now false queue (bus s) = (r, em) →
  tracks task_id queue registry records
    match r with
    | Yielded chunk g' =>
        {| bus := em; subscriber := inl g'; received := (received s ++ [chunk])%list |}
    | Stopped o => {| bus := em; subscriber := inr o; received := received s |}
    | Pending g' => {| bus := em; subscriber := inl g'; received := received s |}
    end.
Proof.
  intros Hreg Hsub Hq Hrec Hd Hgot r em. unfold read_queue. rewrite Hq.
  destruct rest as [|e rest].
  - intros [= <- <-]. eapply tracks_open; eauto.
  - intros [= <- <-].
    destruct (closes_stream (EventEmitter.ev_type e)) eqn:He.
    + eapply (tracks_closed _ _ _ _ _ d e rest); simpl; eauto.
      by rewrite Hgot, map_app.
    + eapply (tracks_open _ _ _ _ _ (d ++ [e]) rest); simpl; eauto.
      * by rewrite lookup_insert_eq.
      * by rewrite <- app_assoc.
      * apply Forall_app. split; [done|]. by constructor.
      * by rewrite Hgot, map_app.
Qed.

Lemma act_tracks records s a :
  tracks task_id queue registry records s → no_timeout a →
  tracks task_id queue registry (records ++ published task_id [a]) (act s a).
Proof.
  intros Htr Ha. destruct a as [t ty data now|now timed_out]; simpl in *.
  - (* a publication *)
    unfold EventEmitter.emit.
    destruct Htr as [d rest g Hreg Hsub Hg Hq Hrec Hd Hgot|d e rest Hreg Hsub Hrec Hd He Hgot].
    + rewrite Hreg. destruct (String.eqb_spec t task_id) as [->|Hne].
      * rewrite registered. simpl.
        eapply (tracks_open _ _ _ _ _ d (rest ++ [_])); simpl; eauto.
        -- by rewrite lookup_alter_eq, Hq.
        -- by rewrite Hrec, <- app_assoc.
      * rewrite app_nil_r.
        destruct (registry !! t) as [q'|] eqn:Et; simpl.
        -- eapply (tracks_open _ _ _ _ _ d rest); simpl; eauto.
           rewrite lookup_alter_ne; [done|]. intros ->. by apply Hne, registered_once.
        -- eapply tracks_open; eauto.
    + rewrite Hreg.
      assert (Hbus : ∀ em', EventEmitter._queues em' = registry →
                tracks task_id queue registry (records ++ (if String.eqb t task_id
                                    then [EventEmitter.Event ty data now] else []))
                  {| bus := em'; subscriber := subscriber s; received := received s |}).
      { intros em' Hem'. destruct (String.eqb t task_id).
        - eapply (tracks_closed _ _ _ _ _ d e (rest ++ [_])); simpl; eauto.
          by rewrite Hrec, <- app_assoc.
        - rewrite app_nil_r. eapply tracks_closed; eauto. }
      destruct (registry !! t); simpl; by apply Hbus.
  - (* the subscriber is resumed *)
    subst timed_out. rewrite app_nil_r.
    destruct Htr as [d rest g Hreg Hsub Hg Hq Hrec Hd Hgot|d e rest Hreg Hsub Hrec Hd He Hgot].
    + rewrite Hsub.
      assert (Hnext : anext now false g (bus s) = read_queue now false queue (bus s)).
      { destruct Hg as [-> | ->]; simpl; [|done].
        unfold EventEmitter.get_queue. by rewrite Hreg, registered. }
      rewrite Hnext.
      destruct (read_queue now false queue (bus s)) as [r em] eqn:Hread.
      pose proof (read_queue_tracks records s d rest g now Hreg Hsub Hq Hrec Hd Hgot
                    r em Hread) as H.
      by destruct r.
    + destruct Hsub as [Hsub|Hsub]; rewrite Hsub; simpl.
      * eapply tracks_closed; simpl; eauto.
      * eapply tracks_closed; eauto.
Qed.

Lemma run_tracks acts : ∀ records s,
  tracks task_id queue registry records s → Forall no_timeout acts →
  tracks task_id queue registry (records ++ published task_id acts) (run acts s).
Proof.
  induction acts as [|a acts IH]; intros records s Htr Hno.
  - by rewrite app_nil_r.
  - apply Forall_cons in Hno as [Ha Hno].
    change (a :: acts) with ([a] ++ acts)%list at 1.
    rewrite published_app, app_assoc.
    apply (IH _ (act s a)); [|done]. by apply act_tracks.
Qed.

(** What a session that tracks [records] has received is a prefix of the
    records up to the first closing one. *)
Lemma tracks_prefix records s :
  tracks task_id queue registry records s →
  received s `prefix_of` map sse_of_event (until_closing records).
Proof.
  intros [d rest g _ _ _ _ -> Hd ->|d e rest _ _ -> Hd He ->].
  - rewrite until_closing_app by done. rewrite map_app. by apply prefix_app_r.
  - by rewrite until_closing_closed.
Qed.

Lemma receive_in_loop s g rest now :
  EventEmitter._queues (bus s) = registry →
  subscriber s = inl g → in_loop task_id queue g →
  EventEmitter.queue_objs (bus s) !! queue = Some rest →
  act s (Receive now false)
  = match rest with
    | [] => {| bus := bus s; subscriber := inl (Reading queue); received := received s |}
    | e :: rest' =>
        {| bus := popped queue rest' (bus s);
           subscriber :=
             inl (if closes_stream (EventEmitter.ev_type e) then Leaving else Reading queue);
           received := (received s ++ [sse_of_event e])%list |}
    end.
Proof.
  intros Hreg Hsub Hg Hq. simpl. rewrite Hsub.
  assert (Hnext : anext now false g (bus s) = read_queue now false queue (bus s)).
  { destruct Hg as [-> | ->]; simpl; [|done].
    unfold EventEmitter.get_queue. by rewrite Hreg, registered. }
  rewrite Hnext. unfold read_queue. rewrite Hq. by destruct rest.
Qed.

Lemma receive_left s now :
  subscriber s = inl Leaving ∨ subscriber s = inr (Returned tt) →
  received (act s (Receive now false)) = received s
  ∧ subscriber (act s (Receive now false)) = inr (Returned tt).
Proof. intros [H|H]; simpl; by rewrite H. Qed.

Lemma run_cons a acts s : run (a :: acts) s = run acts (act s a).
Proof. reflexivity. Qed.

Lemma drain_left now n : ∀ s,
  subscriber s = inl Leaving ∨ subscriber s = inr (Returned tt) →
  received (run (repeat (Receive now false) n) s) = received s.
Proof.
  induction n as [|n IH]; intros s Hs; [done|]. cbn [repeat]. rewrite run_cons.
  destruct (receive_left s now Hs) as [Hr Hsub].
  rewrite IH; [done|]. by right.
Qed.

(** Resuming a subscriber that is in its loop at least as often as its
    queue holds records, without a timeout, delivers these up to the first
    closing one. *)
Lemma drain_in_loop now n : ∀ s g rest,
  EventEmitter._queues (bus s) = registry →
  subscriber s = inl g → in_loop task_id queue g →
  EventEmitter.queue_objs (bus s) !! queue = Some rest →
  (length rest ≤ n)%nat →
  received (run (repeat (Receive now false) n) s)
  = (received s ++ map sse_of_event (until_closing rest))%list.
Proof.
  induction n as [|n IH]; intros s g rest Hreg Hsub Hg Hq Hn.
  - destruct rest; [|simpl in Hn; lia]. simpl. by rewrite app_nil_r.
  - cbn [repeat]. rewrite run_cons, (receive_in_loop s g rest now Hreg Hsub Hg Hq).
    destruct rest as [|e rest].
    + rewrite (IH _ (Reading queue) []); simpl; auto; [by right|lia].
    + cbn [until_closing]. destruct (closes_stream (EventEmitter.ev_type e)) eqn:He.
      * rewrite drain_left; [done|]. by left.
      * rewrite (IH _ (Reading queue) rest); simpl; auto.
        -- by rewrite <- app_assoc.
        -- by right.
        -- by rewrite lookup_insert_eq.
        -- simpl in Hn. lia.
Qed.

Lemma drain now n records s :
  tracks task_id queue registry records s → (length records ≤ n)%nat →
  received (run (repeat (Receive now false) n) s) = map sse_of_event (until_closing records).
Proof.
  intros [d rest g Hreg Hsub Hg Hq -> Hd Hgot|d e rest _ Hsub -> Hd He Hgot] Hn.
  - rewrite (drain_in_loop now n s g rest Hreg Hsub Hg Hq).
    + by rewrite Hgot, until_closing_app, map_app.
    + rewrite length_app in Hn. lia.
  - by rewrite drain_left, until_closing_closed.
Qed.

End Subscription.

Lemma run_app acts1 acts2 s :
  Narrative.run (acts1 ++ acts2) s = Narrative.run acts2 (Narrative.run acts1 s).
Proof. apply fold_left_app. Qed.

Lemma until_closing_whole records :
  no_closing (removelast records) → Narrative.until_closing records = records.
Proof.
  intros Hno. destruct records as [|e records]; [done|].
  assert (Hne : e :: records ≠ []) by done.
  rewrite (app_removelast_last e Hne) at 1 2.
  rewrite until_closing_all by done. by rewrite <- app_removelast_last.
Qed.

(** C5, as stated, fails: of two records published on one task id, the first
    of type [error], the subscriber gets the first only, however often it is
    resumed. *)
Lemma subscriber_stops_at_closing_record :
  Narrative.published "job" closing_first
    = [EventEmitter.Event "error" [] "t1"; EventEmitter.Event "scribe_progress" [] "t2"]
  ∧ Narrative.received (Narrative.run closing_first (Narrative.subscribe "job" job_channel))
    = [Narrative.sse_of_event (EventEmitter.Event "error" [] "t1")]
  ∧ Narrative.received (Narrative.run closing_first (Narrative.subscribe "job" job_channel))
    ≠ map Narrative.sse_of_event (Narrative.published "job" closing_first).
Proof. vm_compute. repeat split; congruence. Qed.

(** C5, amended. Take a subscriber of a task id whose channel exists, and
    any interleaving of publications (on this and on other task ids) with
    resumptions of the subscriber in which no wait times out. What the
    subscriber has received is always a prefix, in publish order, of the
    records published on its task id up to and including the first record
    of type [workflow_complete] or [error]; resumed often enough, it
    receives exactly these; and these are all the records published when
    no such record comes before the last one. Publications on other task
    ids do not show. *)
Theorem subscriber_sees_publish_order em task_id queue buffered acts :
  EventEmitter.wf em →
  EventEmitter.get_queue task_id em = Some queue →
  EventEmitter.queue_objs em !! queue = Some buffered →
  Forall Narrative.no_timeout acts →
  let records := (buffered ++ Narrative.published task_id acts)%list in
  Narrative.received (Narrative.run acts (Narrative.subscribe task_id em))
    `prefix_of` map Narrative.sse_of_event (Narrative.until_closing records)
  ∧ (∀ now n, (length records ≤ n)%nat →
       Narrative.received
         (Narrative.run (acts ++ repeat (Narrative.Receive now false) n)
            (Narrative.subscribe task_id em))
       = map Narrative.sse_of_event (Narrative.until_closing records))
  ∧ (no_closing (removelast records) → Narrative.until_closing records = records).
Proof.
  intros [_ _ Hinj] Hq Hbuf Hno records.
  assert (Hinj' : ∀ t, EventEmitter._queues em !! t = Some queue → t = task_id).
  { intros t Ht. by eapply Hinj. }
  assert (Htr : tracks task_id queue (EventEmitter._queues em) buffered
                  (Narrative.subscribe task_id em)).
  { eapply (tracks_open _ _ _ _ _ [] buffered); simpl; eauto. by constructor. }
  pose proof (run_tracks task_id queue _ Hq Hinj' acts _ _ Htr Hno) as Hrun.
  split; [by eapply tracks_prefix|]. split; [|apply until_closing_whole].
  intros now n Hn. rewrite run_app. by eapply drain.
Qed.

Lemma job_channel_wf : EventEmitter.wf job_channel.
Proof. apply wf_create_queue, wf_initial. Qed.

Lemma closing_first_no_timeout : Forall Narrative.no_timeout closing_first.
Proof. repeat constructor. Qed.

Lemma subscriber_sees_publish_order_witness :
  Narrative.received
    (Narrative.run (closing_first ++ repeat (Narrative.Receive "t6" false) 2)
       (Narrative.subscribe "job" job_channel))
  = [Narrative.sse_of_event (EventEmitter.Event "error" [] "t1")].
Proof.
  apply (subscriber_sees_publish_order job_channel "job" 0%nat [] closing_first
           job_channel_wf eq_refl eq_refl closing_first_no_timeout).
  vm_compute. lia.
Defined.

(** * Properties of the job registry *)

Section Registry.
Import Narrative.
Variable count_words : string → Z.

Lemma with_emitter_emit t ty d now st :
  with_emitter (EventEmitter.emit t ty d now) st
  = (Returned tt,
     {| JOBS := JOBS st;
        event_emitter := snd (EventEmitter.emit t ty d now (event_emitter st)) |}).
Proof.
  unfold with_emitter, EventEmitter.emit.
  by destruct (EventEmitter._queues (event_emitter st) !! t).
Qed.

Lemma with_emitter_cleanup t st :
  with_emitter (EventEmitter.cleanup t) st
  = (Returned tt,
     {| JOBS := JOBS st; event_emitter := snd (EventEmitter.cleanup t (event_emitter st)) |}).
Proof.
  unfold with_emitter, EventEmitter.cleanup.
  by destruct (EventEmitter._queues (event_emitter st) !! t).
Qed.

Lemma jobs_setitem_known t f st j :
  JOBS st !! t = Some j →
  jobs_setitem t f st
  = (Returned tt, {| JOBS := <[t := f j]> (JOBS st); event_emitter := event_emitter st |}).
Proof. unfold jobs_setitem. by intros ->. Qed.

(** The first part of the background task, for a job that is in the store:
    the job's status becomes ["processing"] and the task suspends. *)
Lemma start_known task_id req now trace st j :
  JOBS st !! task_id = Some j →
  ∃ em,
    run_generation_workflow_start task_id req now trace st
    = (Returned (AwaitGraph (initial_state req)),
       {| JOBS := <[task_id := set_status "processing" j]> (JOBS st); event_emitter := em |}).
Proof.
  intros Hj. unfold run_generation_workflow_start.
  unfold bind at 1. unfold with_emitter at 1. unfold bind at 1.
  cbn [EventEmitter.create_queue ret].
  unfold bind at 1. rewrite with_emitter_emit. cbn [snd].
  unfold try_before_await, bind.
  erewrite jobs_setitem_known by (cbn [JOBS]; exact Hj).
  cbn. eexists. reflexivity.
Qed.

Lemma resume_known task_id awaited now trace st j :
  JOBS st !! task_id = Some j →
  ∃ em,
    run_generation_workflow_resume count_words task_id awaited now trace st
    = (Returned tt,
       {| JOBS := <[task_id := settled awaited j]> (JOBS st); event_emitter := em |}).
Proof.
  intros Hj. unfold run_generation_workflow_resume, try_finally, try_except, finally_clause.
  destruct awaited as [final_state|e].
  - unfold try_after_await, bind.
    erewrite jobs_setitem_known by exact Hj.
    erewrite jobs_setitem_known by (cbn [JOBS]; apply lookup_insert_eq).
    rewrite with_emitter_emit, with_emitter_cleanup. cbn.
    rewrite insert_insert_eq. eexists. reflexivity.
  - unfold raise, except_clause, bind.
    erewrite jobs_setitem_known by exact Hj.
    erewrite jobs_setitem_known by (cbn [JOBS]; apply lookup_insert_eq).
    rewrite with_emitter_emit, with_emitter_cleanup. cbn.
    rewrite insert_insert_eq. eexists. reflexivity.
Qed.

Lemma settled_terminal awaited j : processing j → terminal (settled awaited j).
Proof.
  intros (_ & Hr & He). destruct awaited as [final_state|e]; [left|right].
  - repeat split; simpl; eauto.
  - repeat split; simpl; eauto.
Qed.

Lemma consistent_boot : consistent boot.
Proof. intros t. simpl. rewrite lookup_empty. intros j H. by rewrite lookup_empty in H. Qed.

Lemma step_effect sys sys' :
  consistent sys → step count_words sys sys' → effect sys sys'.
Proof.
  intros Hc Hstep.
  destruct Hstep as [sys uuid4 req Hj Ht|sys t req now trace init mem' Ht Hrun
                    |sys t req now trace r mem' Ht Hrun|sys t init awaited now trace Ht
                    |sys q e rest Hq].
  - by eapply effect_submit.
  - specialize (Hc t). rewrite Ht in Hc. destruct Hc as (j & Hj & Hqueued).
    destruct (start_known t req now trace (mem sys) j Hj) as [em Heq].
    rewrite Heq in Hrun. injection Hrun as <- <-.
    by eapply effect_start.
  - specialize (Hc t). rewrite Ht in Hc. destruct Hc as (j & Hj & Hqueued).
    destruct (start_known t req now trace (mem sys) j Hj) as [em Heq].
    rewrite Heq in Hrun. discriminate Hrun.
  - specialize (Hc t). rewrite Ht in Hc. destruct Hc as (j & Hj & Hproc).
    destruct (resume_known t awaited now trace (mem sys) j Hj) as [em Heq].
    eapply (effect_resume _ _ t init j awaited); try done. simpl. by rewrite Heq.
  - by apply effect_none.
Qed.

Lemma queued_processing j : queued j → processing (set_status "processing" j).
Proof. intros (_ & ? & ?). by repeat split. Qed.

Lemma effect_consistent sys sys' : consistent sys → effect sys sys' → consistent sys'.
Proof.
  intros Hc [uuid4 req Hj Ht HJ HT|t req j init Ht Hj Hq HJ HT
            |t init j awaited Ht Hj Hp HJ HT|HJ HT] t'; rewrite ?HJ, ?HT.
  - destruct (decide (uuid4 = t')) as [<-|Hne].
    + rewrite !lookup_insert_eq. eexists. split; [done|]. by repeat split.
    + rewrite !lookup_insert_ne by done. apply Hc.
  - destruct (decide (t = t')) as [<-|Hne].
    + rewrite !lookup_insert_eq. eexists. split; [done|]. by apply queued_processing.
    + rewrite !lookup_insert_ne by done. apply Hc.
  - destruct (decide (t = t')) as [<-|Hne].
    + rewrite lookup_delete_eq, lookup_insert_eq. intros j' [= <-].
      by apply settled_terminal.
    + rewrite lookup_delete_ne, lookup_insert_ne by done. apply Hc.
  - apply Hc.
Qed.

Lemma reachable_consistent sys : reachable count_words sys → consistent sys.
Proof.
  induction 1 as [|sys sys' _ IH Hstep]; [apply consistent_boot|].
  eapply effect_consistent; [exact IH|]. by apply step_effect.
Qed.

Lemma consistent_shape sys t j :
  consistent sys → JOBS (mem sys) !! t = Some j → queued j ∨ processing j ∨ terminal j.
Proof.
  intros Hc Hj. specialize (Hc t).
  destruct (tasks sys !! t) as [[req|init]|].
  - destruct Hc as (j' & Hj' & H). rewrite Hj in Hj'. injection Hj' as <-. by left.
  - destruct Hc as (j' & Hj' & H). rewrite Hj in Hj'. injection Hj' as <-. by right; left.
  - right; right. by apply Hc.
Qed.

Lemma terminal_not_processing j : terminal j → processing j → False.
Proof.
  intros [(Hs & _)|(Hs & _)] (Hs' & _); rewrite Hs in Hs'; discriminate Hs'.
Qed.

Lemma terminal_not_queued j : terminal j → queued j → False.
Proof.
  intros [(Hs & _)|(Hs & _)] (Hs' & _); rewrite Hs in Hs'; discriminate Hs'.
Qed.

(** C1. In every state the server can reach, each job record is queued,
    processing or terminal, a terminal record being completed with a
    result and no error, or failed with an error and no result. In one
    step of the server, a job that is not in the store can only appear
    queued; a job in the store stays in the store and either keeps its
    record, or goes from queued to processing, or from processing to a
    terminal state; a terminal record is never changed; and the step in
    which a background task ends leaves its job terminal. *)
Theorem job_lifecycle sys sys' :
  reachable count_words sys → step count_words sys sys' →
  ∀ t,
    match JOBS (mem sys) !! t with
    | None => ∀ j', JOBS (mem sys') !! t = Some j' → queued j'
    | Some j =>
        (queued j ∨ processing j ∨ terminal j)
        ∧ ∃ j', JOBS (mem sys') !! t = Some j'
                ∧ advances j j'
                ∧ (terminal j → j' = j)
                ∧ (is_Some (tasks sys !! t) → tasks sys' !! t = None → terminal j')
    end.
Proof.
  intros Hreach Hstep t.
  pose proof (reachable_consistent sys Hreach) as Hc.
  pose proof (step_effect sys sys' Hc Hstep) as Heff.
  destruct (JOBS (mem sys) !! t) as [j|] eqn:Hjt.
  - split; [by eapply consistent_shape|].
    destruct Heff as [uuid4 req Hj Ht HJ HT|t0 req j0 init Ht Hj Hq HJ HT
                     |t0 init j0 awaited Ht Hj Hp HJ HT|HJ HT]; rewrite HJ, ?HT.
    + assert (uuid4 ≠ t) by congruence.
      rewrite !lookup_insert_ne by done. exists j. split; [done|].
      split; [by left|]. split; [done|]. intros [x Hx] Hnone. congruence.
    + destruct (decide (t0 = t)) as [->|Hne].
      * rewrite Hjt in Hj. injection Hj as <-.
        rewrite !lookup_insert_eq. eexists. split; [done|].
        split; [right; left; split; [done|by apply queued_processing]|].
        split; [intros Hterm; by destruct (terminal_not_queued j)|].
        intros _ Hnone. discriminate Hnone.
      * rewrite !lookup_insert_ne by done. exists j. split; [done|].
        split; [by left|]. split; [done|]. intros [x Hx] Hnone. congruence.
    + destruct (decide (t0 = t)) as [->|Hne].
      * rewrite Hjt in Hj. injection Hj as <-.
        rewrite lookup_insert_eq. eexists. split; [done|].
        split; [right; right; split; [done|by apply settled_terminal]|].
        split; [intros Hterm; by destruct (terminal_not_processing j)|].
        intros _ _. by apply settled_terminal.
      * rewrite lookup_insert_ne, lookup_delete_ne by done. exists j. split; [done|].
        split; [by left|]. split; [done|]. intros [x Hx] Hnone. congruence.
    + exists j. split; [done|]. split; [by left|]. split; [done|].
      intros [x Hx] Hnone. congruence.
  - destruct Heff as [uuid4 req Hj Ht HJ HT|t0 req j0 init Ht Hj Hq HJ HT
                     |t0 init j0 awaited Ht Hj Hp HJ HT|HJ HT]; rewrite HJ.
    + destruct (decide (uuid4 = t)) as [->|Hne].
      * rewrite lookup_insert_eq. intros j' [= <-]. by repeat split.
      * rewrite lookup_insert_ne by done. congruence.
    + assert (t0 ≠ t) by congruence. rewrite lookup_insert_ne by done. congruence.
    + assert (t0 ≠ t) by congruence. rewrite lookup_insert_ne by done. congruence.
    + congruence.
Qed.

End Registry.

Lemma submitted_reachable : Narrative.reachable demo_count_words submitted.
Proof.
  eapply Narrative.reachable_step; [apply Narrative.reachable_boot|].
  unfold submitted.
  rewrite <- (insert_empty (M := gmap string) "abc123" (Narrative.Scheduled knight_request)).
  by apply (Narrative.step_submit demo_count_words Narrative.boot "abc123" knight_request).
Qed.

Lemma started_reachable : Narrative.reachable demo_count_words started.
Proof.
  eapply Narrative.reachable_step; [apply submitted_reachable|].
  unfold started.
  replace ({["abc123" := Narrative.Awaiting (Narrative.initial_state knight_request)]}
           : gmap string Narrative.task)
    with (<["abc123" := Narrative.Awaiting (Narrative.initial_state knight_request)]>
            (Narrative.tasks submitted)).
  2: { simpl. by rewrite insert_singleton_eq. }
  by eapply (Narrative.step_start demo_count_words submitted "abc123" knight_request "t0" "").
Qed.

Lemma started_finishes : Narrative.step demo_count_words started finished.
Proof.
  unfold finished.
  replace (∅ : gmap string Narrative.task)
    with (delete "abc123" (Narrative.tasks started)).
  2: { simpl. by rewrite delete_singleton_eq. }
  by eapply (Narrative.step_resume demo_count_words started "abc123").
Qed.

Example job_statuses :
  Narrative.status <$> (Narrative.JOBS (Narrative.mem submitted) !! "abc123") = Some "queued"
  ∧ Narrative.status <$> (Narrative.JOBS (Narrative.mem started) !! "abc123")
    = Some "processing"
  ∧ Narrative.status <$> (Narrative.JOBS (Narrative.mem finished) !! "abc123")
    = Some "completed".
Proof. vm_compute. done. Qed.

Lemma job_lifecycle_witness :
  ∃ j j',
    Narrative.JOBS (Narrative.mem started) !! "abc123" = Some j
    ∧ Narrative.JOBS (Narrative.mem finished) !! "abc123" = Some j'
    ∧ processing j ∧ advances j j' ∧ terminal j'.
Proof.
  pose proof (job_lifecycle demo_count_words started finished started_reachable
                started_finishes "abc123") as H.
  destruct (Narrative.JOBS (Narrative.mem started) !! "abc123") as [j|] eqn:E.
  - destruct H as (_ & j' & Hj' & Hadv & _ & Hterm).
    exists j, j'. split; [reflexivity|]. split; [exact Hj'|].
    split; [injection E as <-; by repeat split|]. split; [exact Hadv|].
    apply Hterm; [eexists|]; reflexivity.
  - vm_compute in E. discriminate E.
Defined.

(** * Properties of the token bucket *)

Section BucketFacts.
Import Gemini.
Local Open Scope Q_scope.

Ltac expose :=
  cbn [num of_int add sub mul div gt ge is_zero exact] in *;
  change (inject_Z 1) with 1 in *; change (inject_Z 0) with 0 in *.

Lemma with_sleeps_app {N : number} (l1 l2 : list (num N)) (a : acquired N) :
  with_sleeps l1 (with_sleeps l2 a) = with_sleeps (l1 ++ l2) a.
Proof. destruct a; simpl; by rewrite app_assoc. Qed.

Lemma acquire_loop_slept {N : number} (clock : list (num N)) : ∀ slept (b : TokenBucket N),
  acquire_loop clock slept b = with_sleeps (rev slept) (acquire_loop clock [] b).
Proof.
  induction clock as [|now clock IH]; intros slept b; simpl.
  - by rewrite app_nil_r.
  - destruct (ge N (_tokens (refill now b)) (of_int N 1)); [simpl; by rewrite app_nil_r|].
    destruct (is_zero N (refill_rate (refill now b))); [simpl; by rewrite app_nil_r|].
    rewrite IH, (IH [_]). simpl. by rewrite with_sleeps_app.
Qed.

Lemma refill_rate_refill {N : number} (now : num N) (b : TokenBucket N) :
  refill_rate (refill now b) = refill_rate b.
Proof. unfold refill. by destruct (gt N _ _). Qed.

Lemma capacity_refill {N : number} (now : num N) (b : TokenBucket N) :
  capacity (refill now b) = capacity b.
Proof. unfold refill. by destruct (gt N _ _). Qed.

(** [min] over the rationals. *)
Lemma py_min_exact (a b : Q) :
  @py_min exact a b <= a ∧ @py_min exact a b <= b
  ∧ ∀ k, k <= a → k <= b → k <= @py_min exact a b.
Proof.
  unfold py_min. expose. destruct (Qlt_le_dec b a); repeat split; try lra; by intros.
Qed.

(** The tokens after a refill, over the rationals. *)
Lemma refill_exact (now : Q) (b : TokenBucket exact) :
  (0 < (now - last_refill b) * refill_rate b
   ∧ refill now b
     = {| capacity := capacity b;
          _tokens := @py_min exact (inject_Z (capacity b))
                       (_tokens b + (now - last_refill b) * refill_rate b);
          refill_rate := refill_rate b;
          last_refill := now |})
  ∨ ((now - last_refill b) * refill_rate b <= 0 ∧ refill now b = b).
Proof.
  unfold refill. expose. destruct (Qlt_le_dec 0 _); [left|right]; by split.
Qed.

(** The refill takes no token away. *)
Lemma refill_keeps now (b : TokenBucket exact) k :
  k <= inject_Z (capacity b) → k <= _tokens b → k <= _tokens (refill now b).
Proof.
  intros Hc Ht. destruct (refill_exact now b) as [[Hpos ->]|[_ ->]]; [|done].
  cbn [_tokens]. apply py_min_exact; lra.
Qed.

Lemma refill_same_time (b : TokenBucket exact) : refill (last_refill b) b = b.
Proof.
  destruct (refill_exact (last_refill b) b) as [[Hpos _]|[_ ->]]; [|done]. exfalso. lra.
Qed.

Lemma acquire_at_once now clock (b : TokenBucket exact) :
  1 <= _tokens (refill now b) →
  acquire (now :: clock) b = Acquired [] now (take_token (refill now b)) clock.
Proof.
  intros H. unfold acquire. cbn [acquire_loop]. expose.
  apply Qle_bool_iff in H. by rewrite H.
Qed.

Lemma acquire_sleeps now clock (b : TokenBucket exact) :
  _tokens (refill now b) < 1 → ¬ refill_rate b == 0 →
  acquire (now :: clock) b
  = with_sleeps [wait_time (refill now b)] (acquire clock (refill now b)).
Proof.
  intros Hlt Hr. unfold acquire. cbn [acquire_loop]. expose.
  destruct (Qle_bool 1 (_tokens (refill now b))) eqn:E.
  { apply Qle_bool_iff in E. lra. }
  destruct (Qeq_bool (refill_rate (refill now b)) 0) eqn:E0.
  { apply Qeq_bool_iff in E0. rewrite refill_rate_refill in E0. contradiction. }
  by rewrite acquire_loop_slept.
Qed.

Lemma inject_S (n : nat) : inject_Z (Z.of_nat (S n)) == inject_Z (Z.of_nat n) + 1.
Proof. rewrite Nat2Z.inj_succ. unfold Z.succ. rewrite inject_Z_plus. reflexivity. Qed.

Lemma inject_nat_nonneg (n : nat) : 0 <= inject_Z (Z.of_nat n).
Proof. change 0 with (inject_Z 0). rewrite <- Zle_Qle. lia. Qed.

(** As many calls as the bucket has whole tokens return without sleeping,
    one clock reading each. *)
Lemma acquire_times_at_once n : ∀ clock (b : TokenBucket exact),
  length clock = n →
  inject_Z (Z.of_nat n) <= inject_Z (capacity b) →
  inject_Z (Z.of_nat n) <= _tokens b →
  ∃ b', acquire_times n clock b = Some (map (λ now, ([], now)) clock, b', []).
Proof.
  induction n as [|n IH]; intros clock b Hlen Hc Ht.
  - destruct clock; [|discriminate]. by eexists.
  - destruct clock as [|now clock]; [discriminate|]. injection Hlen as Hlen.
    rewrite inject_S in Hc, Ht.
    pose proof (inject_nat_nonneg n) as Hz.
    pose proof (refill_keeps now b (inject_Z (Z.of_nat n) + 1) Hc Ht) as Hk.
    cbn [acquire_times]. rewrite acquire_at_once by lra.
    destruct (IH clock (take_token (refill now b)) Hlen) as [b' Hb'].
    { cbn [capacity take_token]. rewrite capacity_refill. lra. }
    { cbn [_tokens take_token]. expose. lra. }
    rewrite Hb'. by eexists.
Qed.

Lemma acquire_times_standing n : ∀ (b : TokenBucket exact),
  _tokens b == inject_Z (Z.of_nat n) →
  ∃ b', acquire_times n (repeat (last_refill b) n) b
        = Some (repeat ([], last_refill b) n, b', [])
        ∧ _tokens b' == 0 ∧ last_refill b' = last_refill b
        ∧ refill_rate b' = refill_rate b ∧ capacity b' = capacity b.
Proof.
  induction n as [|n IH]; intros b Ht.
  - exists b. by repeat split.
  - cbn [repeat acquire_times]. rewrite inject_S in Ht.
    pose proof (inject_nat_nonneg n) as Hz.
    rewrite acquire_at_once by (rewrite refill_same_time; lra).
    rewrite refill_same_time.
    destruct (IH (take_token b)) as (b' & Hrun & H0 & Hl & Hr & Hc).
    { cbn [_tokens take_token]. expose. lra. }
    cbn [last_refill refill_rate capacity take_token] in Hrun, Hl, Hr, Hc.
    rewrite Hrun. exists b'. by repeat split.
Qed.

(** C4, as stated, fails in its third part: a bucket of capacity 1 and rate
    1/4 is full at time 0; the first call comes at 0, the second at 2, when
    half a token is back. The second call sleeps for 2 seconds and returns
    at 4: it was blocked for less than [1/r = 4] seconds. The run is the
    same in exact and in binary64 arithmetic. *)
Lemma second_call_blocks_less_than_period :
  (∃ s b',
     acquire_times 2 small_bucket_clock small_bucket = Some ([([], 0); ([s], 4)], b', [])
     ∧ s == 2 ∧ s < 1 / (1 # 4) ∧ 4 - 2 < 1 / (1 # 4))
  ∧ (∃ b',
       acquire_times 2 small_bucket64_clock small_bucket64
         = Some ([([], 0%float); ([2%float], 4%float)], b', [])
       ∧ PrimFloat.ltb 2 (1 / 0.25) = true
       ∧ PrimFloat.ltb (4 - 2) (1 / 0.25) = true).
Proof.
  split.
  - eexists _, _. split; [vm_compute; reflexivity|]. vm_compute. done.
  - eexists. split; [vm_compute; reflexivity|]. vm_compute. done.
Qed.

(** The branches of the loop body, in whatever arithmetic the bucket
    computes. *)
Lemma acquire_returns {N : number} now clock (b : TokenBucket N) :
  ge N (_tokens (refill now b)) (of_int N 1) = true →
  acquire (now :: clock) b = Acquired [] now (take_token (refill now b)) clock.
Proof. intros H. unfold acquire. cbn [acquire_loop]. by rewrite H. Qed.

Lemma acquire_waits {N : number} now clock (b : TokenBucket N) :
  ge N (_tokens (refill now b)) (of_int N 1) = false →
  is_zero N (refill_rate b) = false →
  acquire (now :: clock) b
  = with_sleeps [wait_time (refill now b)] (acquire clock (refill now b)).
Proof.
  intros H Hr. unfold acquire. cbn [acquire_loop].
  rewrite H, refill_rate_refill, Hr. by rewrite acquire_loop_slept.
Qed.

Lemma acquire_takes_token {N : number} clock :
  ∀ slept (b : TokenBucket N) sleeps at_time b' unused,
  acquire_loop clock slept b = Acquired sleeps at_time b' unused →
  ∃ b1, ge N (_tokens b1) (of_int N 1) = true ∧ b' = take_token b1.
Proof.
  induction clock as [|now clock IH]; intros slept b sleeps at_time b' unused;
    cbn [acquire_loop]; [discriminate|].
  destruct (ge N (_tokens (refill now b)) (of_int N 1)) eqn:E.
  - intros [= _ _ <- _]. by exists (refill now b).
  - destruct (is_zero N (refill_rate (refill now b))); [discriminate|]. apply IH.
Qed.

(** C4, amended.
    In whatever arithmetic the bucket computes, binary64 as in the code or
    exact:
    - a call that finds, after the refill, a token count [t] that passes
      the test [t >= 1.0] returns in that iteration without sleeping, with
      the count decremented by one;
    - a call that finds a count [t] that fails the test sleeps for
      [(1 - t) / r], as the arithmetic computes it, and computes the refill
      and the wait anew after the wake;
    - a call that returns has taken exactly one token from a count that
      passed the test.
    In exact arithmetic, for a bucket of capacity [C] (up to [2^53], where
    [float(C)] is [C]) and rate [r > 0] that is full at [T0]:
    - [C] calls one after the other return without sleeping, whatever the
      clock reads;
    - when the clock has not moved during these calls, the bucket is then
      empty and the next call sleeps for [1/r] before it tests again.
    How long the call after the first [C] is blocked is not bounded below
    by [1/r]: tokens refilled since the bucket was full count. *)
Theorem token_bucket_acquire (C : nat) (r T0 : Q) :
  0 < r →
  (Z.of_nat C <= 2 ^ 53)%Z →
  let full := @new_bucket exact (Z.of_nat C) r T0 in
  (∀ clock, length clock = C →
     ∃ b', acquire_times C clock full = Some (map (λ now, ([], now)) clock, b', []))
  ∧ (∃ bC,
       acquire_times C (repeat T0 C) full = Some (repeat ([], T0) C, bC, [])
       ∧ _tokens bC == 0
       ∧ wait_time bC == 1 / r
       ∧ ∀ clock, acquire (T0 :: clock) bC = with_sleeps [wait_time bC] (acquire clock bC))
  ∧ (∀ (N : number) (b : TokenBucket N) now clock,
       (ge N (_tokens (refill now b)) (of_int N 1) = true →
        acquire (now :: clock) b = Acquired [] now (take_token (refill now b)) clock)
       ∧ (ge N (_tokens (refill now b)) (of_int N 1) = false →
          is_zero N (refill_rate b) = false →
          acquire (now :: clock) b
          = with_sleeps [wait_time (refill now b)] (acquire clock (refill now b))))
  ∧ (∀ (N : number) clock (b : TokenBucket N) sleeps at_time b' unused,
       acquire clock b = Acquired sleeps at_time b' unused →
       ∃ b1, ge N (_tokens b1) (of_int N 1) = true ∧ b' = take_token b1).
Proof.
  intros Hr _ full.
  pose proof (inject_nat_nonneg C) as HC0.
  split; [|split; [|split]].
  - intros clock Hlen.
    apply acquire_times_at_once; cbn [capacity _tokens full new_bucket]; expose; [done|lra..].
  - destruct (acquire_times_standing C full) as (bC & Hrun & H0 & Hl & Hrate & Hcap);
      [reflexivity|].
    cbn [last_refill refill_rate capacity full new_bucket] in Hrun, Hl, Hrate, Hcap.
    exists bC. split; [exact Hrun|]. split; [exact H0|]. split.
    + unfold wait_time. expose. rewrite Hrate, H0. field. lra.
    + intros clock. rewrite <- Hl at 1. rewrite acquire_sleeps.
      * by rewrite refill_same_time.
      * rewrite refill_same_time. lra.
      * rewrite Hrate. lra.
  - intros N b now clock. split; [apply acquire_returns|apply acquire_waits].
  - intros N clock b sleeps at_time b' unused. apply acquire_takes_token.
Qed.

Lemma token_bucket_acquire_witness :
  0 < 1 # 4
  ∧ ∃ b', acquire_times 15 (repeat 0 15) (@new_bucket exact 15 (1 # 4) 0)
          = Some (map (λ now, ([], now)) (repeat 0 15), b', []).
Proof.
  assert (H : 0 < 1 # 4) by reflexivity.
  split; [exact H|].
  apply (token_bucket_acquire 15 (1 # 4) 0 H); [vm_compute; discriminate|reflexivity].
Defined.

(** In binary64 the call after the first [C] can return at a clock reading
    before [T0 + 1/r]: the bucket of capacity 1 and rate 0.3 is full at 0;
    the second call comes at about 1.03, sleeps for about 2.30 and is woken
    when that sleep is over, at a reading one unit in the last place below
    [1 / 0.3], where the refilled count passes the test. *)
Example binary64_call_returns_before_period :
  ∃ s at_time b',
    acquire_times 2 third_bucket64_clock third_bucket64
      = Some ([([], 0%float); ([s], at_time)], b', [])
    ∧ at_time = (0x1.0861cef16e345p+0 + s)%float
    ∧ PrimFloat.ltb at_time (1 / 0x1.3333333333333p-2) = true.
Proof. eexists _, _, _. split; [vm_compute; reflexivity|]. split; vm_compute; reflexivity. Qed.

(** The application's limiter (15 tokens, 15/60 per second) in binary64:
    fifteen calls at once, and a sixteenth that sleeps for 4 seconds. *)
Example global_rate_limiter_binary64 :
  ∃ b b',
    acquire_times 15 (repeat 0%float 15) (@global_rate_limiter binary64 0%float)
      = Some (repeat ([], 0%float) 15, b, [])
    ∧ acquire [0; 4]%float b = Acquired [4%float] 4%float b' [].
Proof. eexists _, _. split; vm_compute; reflexivity. Qed.

End BucketFacts.


(** * Further properties of the event bus *)

Section BusRefinement.
Import EventEmitter.

Lemma channel_channels task_id st : channel task_id st = channels st !! task_id.
Proof. unfold channel, channels. by rewrite lookup_omap. Qed.

Lemma wf_apply_op st op : wf st → wf (apply_op st op).
Proof.
  destruct op; simpl; [apply wf_create_queue|apply wf_emit|apply wf_cleanup].
Qed.

Lemma channels_apply_op st op :
  wf st → channels (apply_op st op) = channels_after (channels st) op.
Proof.
  intros [Ha Hf Hi]. apply map_eq. intros t'. unfold channels.
  destruct op as [t|t ty d now|t]; simpl.
  - rewrite lookup_omap. destruct (decide (t = t')) as [<-|Hne].
    + rewrite !lookup_insert_eq. simpl. by rewrite lookup_insert_eq.
    + rewrite !lookup_insert_ne by done. rewrite lookup_omap.
      destruct (_queues st !! t') as [q'|] eqn:E; simpl; [|done].
      destruct (Ha _ _ E) as [Hlt _]. rewrite lookup_insert_ne; [done|lia].
  - unfold emit. destruct (_queues st !! t) as [q|] eqn:E; simpl.
    + rewrite lookup_omap. destruct (decide (t = t')) as [<-|Hne].
      * rewrite lookup_alter_eq, lookup_omap, E. simpl. by rewrite lookup_alter_eq.
      * rewrite lookup_alter_ne by done. rewrite lookup_omap.
        destruct (_queues st !! t') as [q'|] eqn:E'; simpl; [|done].
        rewrite lookup_alter_ne; [done|]. intros ->. apply Hne. by eapply Hi.
    + destruct (decide (t = t')) as [<-|Hne].
      * by rewrite lookup_alter_eq, lookup_omap, E.
      * by rewrite lookup_alter_ne.
  - unfold cleanup. destruct (_queues st !! t) as [q|] eqn:E; simpl.
    + rewrite lookup_omap. destruct (decide (t = t')) as [<-|Hne].
      * by rewrite !lookup_delete_eq.
      * rewrite !lookup_delete_ne by done. by rewrite lookup_omap.
    + destruct (decide (t = t')) as [<-|Hne].
      * by rewrite lookup_delete_eq, lookup_omap, E.
      * by rewrite lookup_delete_ne.
Qed.

Lemma wf_apply_ops ops : ∀ st, wf st → wf (apply_ops ops st).
Proof.
  induction ops as [|op ops IH]; intros st Hwf; [done|].
  apply (IH (apply_op st op)). by apply wf_apply_op.
Qed.

(** X1. However [create_queue], [emit] and [cleanup] are interleaved, on any
    task ids, the emitter keeps its queues apart: every registered queue
    is allocated and no two task ids share one; and each task's channel
    holds exactly what a list of its own would hold, that is, the records
    emitted on this task id since its queue was last created, in emission
    order, and nothing once it is cleaned up. *)
Theorem emitter_keeps_channels_apart ops st :
  wf st →
  wf (apply_ops ops st)
  ∧ channels (apply_ops ops st) = fold_left channels_after ops (channels st)
  ∧ ∀ task_id,
      channel task_id (apply_ops ops st)
      = fold_left channels_after ops (channels st) !! task_id.
Proof.
  intros Hwf. split; [by apply wf_apply_ops|].
  assert (H : channels (apply_ops ops st) = fold_left channels_after ops (channels st)).
  { revert st Hwf. induction ops as [|op ops IH]; intros st Hwf; [done|]. simpl.
    rewrite <- channels_apply_op by done. apply IH. by apply wf_apply_op. }
  split; [exact H|]. intros t. by rewrite channel_channels, H.
Qed.

Lemma emitter_keeps_channels_apart_witness :
  wf initial
  ∧ channel "a"
      (apply_ops [CreateQueue "a"; CreateQueue "b"; Emit "a" "x" [] "t1";
                  Emit "b" "y" [] "t2"; Emit "a" "z" [] "t3"; Cleanup "b";
                  Emit "b" "w" [] "t4"] initial)
    = Some [Event "x" [] "t1"; Event "z" [] "t3"].
Proof.
  split; [apply wf_initial|].
  pose proof (emitter_keeps_channels_apart
                [CreateQueue "a"; CreateQueue "b"; Emit "a" "x" [] "t1";
                 Emit "b" "y" [] "t2"; Emit "a" "z" [] "t3"; Cleanup "b";
                 Emit "b" "w" [] "t4"] initial wf_initial) as (_ & _ & H).
  rewrite (H "a"). reflexivity.
Defined.

End BusRefinement.


(** * Further properties of the token bucket *)

Section BucketBoundsFacts.
Import Gemini.
Local Open Scope Q_scope.

Ltac expose_exact :=
  cbn [num of_int add sub mul div gt ge is_zero exact] in *;
  change (inject_Z 1) with 1 in *; change (inject_Z 0) with 0 in *.

Lemma refill_within_capacity now (b : TokenBucket exact) :
  within_capacity b → within_capacity (refill now b).
Proof.
  intros [H0 Hc]. unfold within_capacity.
  destruct (refill_exact now b) as [[Hpos ->]|[_ ->]]; [|done].
  cbn [_tokens capacity].
  destruct (py_min_exact (inject_Z (capacity b))
              (_tokens b + (now - last_refill b) * refill_rate b)) as (Hle & _ & Hglb).
  split; [apply Hglb; lra|done].
Qed.

Lemma acquire_loop_within_capacity clock : ∀ slept (b : TokenBucket exact),
  within_capacity b →
  within_capacity (bucket_of (acquire_loop clock slept b))
  ∧ capacity (bucket_of (acquire_loop clock slept b)) = capacity b
  ∧ refill_rate (bucket_of (acquire_loop clock slept b)) = refill_rate b.
Proof.
  induction clock as [|now clock IH]; intros slept b Hb; cbn [acquire_loop]; [done|].
  pose proof (refill_within_capacity now b Hb) as [H0 Hc].
  expose_exact.
  destruct (Qle_bool 1 (_tokens (refill now b))) eqn:E.
  - apply Qle_bool_iff in E. cbn [bucket_of take_token capacity refill_rate].
    rewrite capacity_refill, refill_rate_refill. split; [|done].
    unfold within_capacity. cbn [_tokens capacity take_token]. expose_exact.
    split; lra.
  - destruct (Qeq_bool (refill_rate (refill now b)) 0).
    + cbn [bucket_of]. rewrite capacity_refill, refill_rate_refill. by split.
    + destruct (IH (wait_time (refill now b) :: slept) (refill now b)) as (Hw & Hcap & Hrate);
        [by split|].
      split; [exact Hw|]. split.
      * etransitivity; [exact Hcap|apply capacity_refill].
      * etransitivity; [exact Hrate|apply refill_rate_refill].
Qed.

(** X2. Whatever the clock reads, even if it goes back, a call of [acquire]
    leaves the token count between zero and the capacity if it found it
    there, and changes neither the capacity nor the refill rate; this holds
    whether the call returns, raises or is still waiting. *)
Theorem token_count_stays_within_capacity clock (b : TokenBucket exact) :
  within_capacity b →
  within_capacity (bucket_of (acquire clock b))
  ∧ capacity (bucket_of (acquire clock b)) = capacity b
  ∧ refill_rate (bucket_of (acquire clock b)) = refill_rate b.
Proof. apply acquire_loop_within_capacity. Qed.

Lemma token_count_stays_within_capacity_witness :
  within_capacity small_bucket
  ∧ within_capacity (bucket_of (acquire small_bucket_clock small_bucket)).
Proof.
  assert (H : within_capacity small_bucket) by (split; discriminate).
  split; [exact H|].
  apply (token_count_stays_within_capacity small_bucket_clock small_bucket H).
Defined.

(** X5. A bucket whose refill rate is zero does not make a caller wait: a call
    that finds less than one token raises [ZeroDivisionError] at once,
    without sleeping, and leaves the bucket as it was. *)
Theorem zero_rate_raises now clock (b : TokenBucket exact) :
  refill_rate b == 0 →
  _tokens b < 1 →
  acquire (now :: clock) b
  = AcquireRaised (ZeroDivisionError "float division by zero") [] b.
Proof.
  intros Hr Hlt.
  assert (Hsame : refill now b = b).
  { destruct (refill_exact now b) as [[Hpos _]|[_ ->]]; [|done].
    exfalso. rewrite Hr in Hpos. lra. }
  unfold acquire. cbn [acquire_loop]. rewrite Hsame. expose_exact.
  destruct (Qle_bool 1 (_tokens b)) eqn:E.
  { apply Qle_bool_iff in E. lra. }
  apply Qeq_bool_iff in Hr. by rewrite Hr.
Qed.

(** The same, for the bucket of an application whose rate limit is set to
    0, in exact and in binary64 arithmetic. *)
Lemma zero_rate_raises_witness :
  acquire [0] closed_bucket
  = AcquireRaised (ZeroDivisionError "float division by zero") [] closed_bucket
  ∧ acquire [0%float] closed_bucket64
    = AcquireRaised (ZeroDivisionError "float division by zero") [] closed_bucket64.
Proof.
  split; [|vm_compute; reflexivity].
  apply (zero_rate_raises 0 [] closed_bucket); reflexivity.
Defined.

End BucketBoundsFacts.


(** * Properties of the symbolic oracle *)

Section OracleFacts.
Import Schemas.
Import Oracle.

Lemma check_preconditions_spec node satisfied pres : ∀ violations,
  check_preconditions node satisfied pres violations
  = (violations ++ map (precondition_violation node) (filter (λ p, p ∉ satisfied) pres))%list.
Proof.
  induction pres as [|p pres IH]; intros violations; simpl.
  - by rewrite app_nil_r.
  - rewrite IH, filter_cons. case_bool_decide as Hp.
    + rewrite decide_False by (intros Hn; by apply Hn). done.
    + rewrite decide_True by done. simpl. by rewrite <- app_assoc.
Qed.

Lemma check_nodes_spec nodes : ∀ satisfied violations,
  check_nodes nodes satisfied violations = (violations ++ unsatisfied nodes satisfied)%list.
Proof.
  induction nodes as [|node nodes IH]; intros satisfied violations; simpl.
  - by rewrite app_nil_r.
  - by rewrite IH, check_preconditions_spec, <- app_assoc.
Qed.

Lemma unsatisfied_app nodes1 : ∀ nodes2 satisfied,
  unsatisfied (nodes1 ++ nodes2) satisfied
  = (unsatisfied nodes1 satisfied
     ++ unsatisfied nodes2
          (satisfied ∪ ⋃ (map (λ n, list_to_set (postconditions n)) nodes1)))%list.
Proof.
  induction nodes1 as [|node nodes1 IH]; intros nodes2 satisfied; simpl.
  - f_equal. cbn. by rewrite (right_id_L ∅ (∪)).
  - rewrite IH, <- app_assoc. do 3 f_equal. cbn. by rewrite (assoc_L (∪)).
Qed.

Lemma unsatisfied_errors nodes : ∀ satisfied,
  Forall (λ v, violation_type v = "precondition" ∧ severity v = "error"
               ∧ ∃ node, node ∈ nodes ∧ violation_node_id v = Some (node_id node))
    (unsatisfied nodes satisfied).
Proof.
  induction nodes as [|node nodes IH]; intros satisfied; simpl; [constructor|].
  apply Forall_app. split.
  - apply Forall_forall. intros v Hv. apply list_elem_of_fmap in Hv as (p & -> & _).
    repeat split. exists node. split; [left|done].
  - eapply Forall_impl; [apply IH|]. intros v (? & ? & node' & Hin & ?).
    repeat split; try done. exists node'. split; [by right|done].
Qed.

Lemma unsatisfied_nil nodes : ∀ satisfied,
  unsatisfied nodes satisfied = []
  ↔ ∀ i node p, nodes !! i = Some node → p ∈ preconditions node →
                p ∈ satisfied ∨ established nodes i p.
Proof.
  induction nodes as [|node nodes IH]; intros satisfied; simpl.
  - split; [|done]. intros _ i node p H. by rewrite lookup_nil in H.
  - rewrite app_nil, IH. split.
    + intros [Hhead Htail] i n p Hi Hp. destruct i as [|i]; simpl in Hi.
      * injection Hi as <-. left.
        destruct (decide (p ∈ satisfied)) as [|Hn]; [done|].
        apply fmap_nil_inv in Hhead.
        assert (Hin : p ∈ filter (λ p, p ∉ satisfied) (preconditions node))
          by (by apply list_elem_of_filter).
        rewrite Hhead in Hin. by apply elem_of_nil in Hin.
      * destruct (Htail i n p Hi Hp) as [Hs|(j & n' & Hj & Hn' & Hpost)].
        -- apply elem_of_union in Hs as [Hs|Hs]; [by left|].
           right. exists 0, node. split; [lia|]. split; [done|].
           by apply elem_of_list_to_set in Hs.
        -- right. exists (S j), n'. split; [lia|]. by split.
    + intros H. split.
      * destruct (filter (λ p, p ∉ satisfied) (preconditions node)) as [|p l] eqn:E; [done|].
        assert (Hin : p ∈ filter (λ p, p ∉ satisfied) (preconditions node))
          by (rewrite E; left).
        apply list_elem_of_filter in Hin as [Hn Hp].
        destruct (H 0 node p eq_refl Hp) as [Hs|(j & _ & Hj & _)]; [done|lia].
      * intros i n p Hi Hp.
        destruct (H (S i) n p Hi Hp) as [Hs|(j & n' & Hj & Hn' & Hpost)].
        -- left. apply elem_of_union. by left.
        -- destruct j as [|j]; simpl in Hn'.
           ++ injection Hn' as <-. left. apply elem_of_union. right.
              by apply elem_of_list_to_set.
           ++ right. exists j, n'. split; [lia|]. by split.
Qed.

Lemma is_valid_no_violations g w :
  is_valid (validate_symbolic g w) = true ↔ violations (validate_symbolic g w) = [].
Proof.
  unfold validate_symbolic. cbn [is_valid violations].
  rewrite check_nodes_spec, app_nil_l.
  pose proof (unsatisfied_errors (nodes g) ∅) as Herr.
  destruct (unsatisfied (nodes g) ∅) as [|v vs]; [done|].
  apply Forall_cons in Herr as [(_ & Hsev & _) _].
  rewrite filter_cons, decide_True by done. simpl. split; discriminate.
Qed.

(** X6. The verdict of the symbolic validation: a graph is valid exactly when
    every precondition of every node is a postcondition of a node that
    comes strictly before it in the node list (a node does not establish
    its own preconditions). In particular the empty graph is valid; and the
    world state and the edges play no part. *)
Theorem validate_symbolic_verdict g w :
  is_valid (validate_symbolic g w) = true
  ↔ ∀ i node p, nodes g !! i = Some node → p ∈ preconditions node →
                established (nodes g) i p.
Proof.
  rewrite is_valid_no_violations. unfold validate_symbolic. cbn [violations].
  rewrite check_nodes_spec, app_nil_l, unsatisfied_nil.
  split; intros H i node p Hi Hp.
  - destruct (H i node p Hi Hp) as [Hs|He]; [by apply elem_of_empty in Hs|done].
  - right. by eapply H.
Qed.

(** X7. What the result of the symbolic validation holds: one violation for
    each occurrence of a precondition that no earlier node established, in
    the order of the nodes; each is an error of type [precondition] that
    names a node of the graph; the graph is valid exactly when there is
    none; and the two suggestions are given exactly when it is invalid. *)
Theorem validate_symbolic_result g w :
  violations (validate_symbolic g w) = unsatisfied (nodes g) ∅
  ∧ Forall (λ v, violation_type v = "precondition" ∧ severity v = "error"
                 ∧ ∃ node, node ∈ nodes g ∧ violation_node_id v = Some (node_id node))
      (violations (validate_symbolic g w))
  ∧ (is_valid (validate_symbolic g w) = true ↔ violations (validate_symbolic g w) = [])
  ∧ (is_valid (validate_symbolic g w) = true → suggestions (validate_symbolic g w) = [])
  ∧ (is_valid (validate_symbolic g w) = false →
     length (suggestions (validate_symbolic g w)) = 2).
Proof.
  assert (Hv : violations (validate_symbolic g w) = unsatisfied (nodes g) ∅).
  { unfold validate_symbolic. cbn [violations]. by rewrite check_nodes_spec. }
  split; [exact Hv|]. split; [rewrite Hv; apply unsatisfied_errors|].
  split; [apply is_valid_no_violations|].
  unfold validate_symbolic. cbn [is_valid suggestions].
  split; intros ->; done.
Qed.

(** X8. Validation reads the node list from the front: the violations of a
    graph whose node list extends another's begin with the violations of
    that other graph, so a graph that extends an invalid one is invalid. *)
Theorem validate_symbolic_extends g g' w w' more :
  nodes g' = (nodes g ++ more)%list →
  violations (validate_symbolic g w) `prefix_of` violations (validate_symbolic g' w')
  ∧ (is_valid (validate_symbolic g' w') = true → is_valid (validate_symbolic g w) = true).
Proof.
  intros Hnodes.
  assert (Hpre : violations (validate_symbolic g w)
                 `prefix_of` violations (validate_symbolic g' w')).
  { unfold validate_symbolic. cbn [violations].
    rewrite !check_nodes_spec, !app_nil_l, Hnodes, unsatisfied_app.
    by apply prefix_app_r. }
  split; [exact Hpre|].
  rewrite !is_valid_no_violations. intros H'. rewrite H' in Hpre.
  by apply prefix_nil_inv in Hpre.
Qed.

End OracleFacts.

Lemma validate_symbolic_extends_witness :
  Schemas.violations (Oracle.validate_symbolic slay_first {| Schemas.attributes := [] |})
    `prefix_of`
    Schemas.violations (Oracle.validate_symbolic slay_then_forge {| Schemas.attributes := [] |})
  ∧ (Schemas.is_valid
       (Oracle.validate_symbolic slay_then_forge {| Schemas.attributes := [] |}) = true →
     Schemas.is_valid
       (Oracle.validate_symbolic slay_first {| Schemas.attributes := [] |}) = true).
Proof.
  apply (validate_symbolic_extends slay_first slay_then_forge _ _
           [needy_node "n2" "Forge" [] ["has sword"]]).
  reflexivity.
Defined.

(** * Further properties of the workflow graph *)

Section GraphFold.
Import Schemas.
Import Workflow.

Variable deconstructor_run : string → outcome LogicGraph.
Variable mapper_run : LogicGraph → outcome AnalogicalMapping.
Variable oracle_validate_symbolic : LogicGraph → WorldState → outcome ValidationResult.
Variable scribe_run :
  NarrativeNode → NarrativeMemory → string → string → string → Z → string → outcome string.

Lemma scribe_executions_repeat n :
  scribe_executions ([Deconstruct; Map; Validate] ++ repeat Scribe n) = n.
Proof.
  unfold scribe_executions. rewrite filter_app, length_app.
  replace (filter _ [Deconstruct; Map; Validate]) with (@nil node_name) by reflexivity.
  cbn [length Nat.add]. induction n as [|n IH]; [done|].
  cbn [repeat]. rewrite filter_cons_True by done. cbn [length]. by rewrite IH.
Qed.

(** The calls of a fold: one for each node when it returns, and at least
    one and at most that many when it raises. *)
Lemma render_all_calls nodes : ∀ story,
  let fold := render_all scribe_run nodes story in
  match fst fold with
  | Returned _ => length (snd fold) = length nodes
  | Raised _ => (1 ≤ length (snd fold) ≤ length nodes)%nat
  end.
Proof.
  induction nodes as [|node rest IH]; intros story; [done|].
  cbn. destruct (scribe_answer scribe_run node story) as [prose|e]; cbn; [|lia].
  specialize (IH (rendered node prose story)). cbn in IH.
  destruct (render_all scribe_run rest (rendered node prose story)) as [[s|e] cs];
    cbn in *; lia.
Qed.

Lemma render_all_cons node rest story :
  render_all scribe_run (node :: rest) story
  = match scribe_answer scribe_run node story with
    | Returned prose_chunk =>
        let '(r, cs) := render_all scribe_run rest (rendered node prose_chunk story) in
        (r, ScribeRun node (memory story) :: cs)
    | Raised e => (Raised e, [ScribeRun node (memory story)])
    end.
Proof. reflexivity. Qed.

(** The loop on the scribe node, entered with the cursor on [node] and room
    for [S room] executions: it is the fold over the nodes from [node] on
    that the room allows, and it returns only if the room is more than
    these nodes need. *)
Lemma scribe_loop_fold todo : ∀ node done state w room,
  nodes (graph (story_state state)) = (done ++ node :: todo)%list →
  current_node_index state = Z.of_nat (length done) →
  run_from deconstructor_run mapper_run oracle_validate_symbolic scribe_run
    (S room) Scribe state w
  = match render_all scribe_run (take (S room) (node :: todo)) (story_state state) with
    | (Returned story, cs) =>
        if (S (length todo) <? S room)%nat then
          (Returned {| story_state := story;
                       current_node_index := Z.of_nat (length done + S (length todo)) |},
           {| calls := (calls w ++ cs)%list;
              executed := (executed w ++ repeat Scribe (S (length todo)))%list |})
        else
          (Raised out_of_steps,
           {| calls := (calls w ++ cs)%list;
              executed := (executed w ++ repeat Scribe (S room))%list |})
    | (Raised e, cs) =>
        (Raised e,
         {| calls := (calls w ++ cs)%list;
            executed := (executed w ++ repeat Scribe (length cs))%list |})
    end.
Proof.
  induction todo as [|node' todo IH]; intros node done state w room Hnodes Hidx.
  all: assert (Hnode : nodes (graph (story_state state)) !! length done = Some node)
         by (rewrite Hnodes; apply list_lookup_middle; done).
  all: pose proof (f_equal length Hnodes) as Hlen; rewrite length_app in Hlen;
         simpl in Hlen.
  all: cbn [take]; rewrite render_all_cons; unfold scribe_answer.
  all: cbn [run_from node_function]; unfold bind at 1; unfold enter at 1; unfold bind at 1.
  all: unfold node_scribe; rewrite Hidx.
  all: destruct (Z.geb_spec (Z.of_nat (length done))
                   (Z.of_nat (length (nodes (graph (story_state state)))))); [lia|].
  all: rewrite (py_index_in_range _ _ _ Hnode).
  all: unfold bind at 1; unfold call at 1.
  all: destruct (scribe_run node (memory (story_state state)) (target_genre (story_state state))
                   (target_audience (story_state state)) (tone (story_state state))
                   (words_per_scene (story_state state)) (safety_level (story_state state)))
         as [prose|e]; [|reflexivity].
  all: fold (rendered node prose (story_state state)).
  all: unfold ret at 1; unfold edge, should_continue_scribing, apply_update.
  all: cbn [story_state current_node_index upd_story_state upd_current_node_index
            default from_option calls executed]; unfold id.
  all: change (graph (rendered node prose (story_state state)))
         with (graph (story_state state)).
  all: rewrite Hlen.
  - destruct (Z.ltb_spec (Z.of_nat (length done) + 1) (Z.of_nat (length done + 1))); [lia|].
    destruct room as [|room]; [reflexivity|].
    cbn. unfold ret. do 3 f_equal. lia.
  - destruct (Z.ltb_spec (Z.of_nat (length done) + 1)
                (Z.of_nat (length done + S (S (length todo))))); [|lia].
    destruct room as [|room]; [reflexivity|].
    rewrite (IH node' (done ++ [node])%list _ _ room).
    + cbn [story_state calls executed].
      replace (length (done ++ [node]) + S (length todo))%nat
        with (length done + S (S (length todo)))%nat by (rewrite length_app; simpl; lia).
      change (S (length (node' :: todo)) <? S (S room))%nat
        with (S (length todo) <? S room)%nat.
      destruct (render_all scribe_run (take (S room) (node' :: todo)) _) as [[story|e] cs];
        [destruct (S (length todo) <? S room)%nat|];
        cbn; rewrite <- !app_assoc; reflexivity.
    + cbn [story_state].
      change (graph (rendered node prose (story_state state)))
        with (graph (story_state state)).
      by rewrite Hnodes, <- app_assoc.
    + cbn [current_node_index]. rewrite length_app. simpl. lia.
Qed.

(** The three stages before the scribe, when they answer. *)
Lemma ainvoke_stages init g mapping validation limit :
  deconstructor_run (input_text (story_state init)) = Returned g →
  mapper_run g = Returned mapping →
  oracle_validate_symbolic g (world_state (story_state init)) = Returned validation →
  ainvoke deconstructor_run mapper_run oracle_validate_symbolic scribe_run
    (S (S (S limit))) init no_effects
  = run_from deconstructor_run mapper_run oracle_validate_symbolic scribe_run
      limit Scribe
      {| story_state := prepared g mapping validation (story_state init);
         current_node_index := 0 |}
      {| calls := stage_calls init g; executed := [Deconstruct; Map; Validate] |}.
Proof.
  intros Hdec Hmap Hval. unfold ainvoke, entry_point.
  erewrite run_from_S;
    [|cbn [node_function]; unfold node_deconstruct, bind, call, ret; rewrite Hdec; reflexivity].
  cbn [edge].
  erewrite run_from_S;
    [|cbn [node_function]; unfold node_map, bind, call, ret; cbn; rewrite Hmap; reflexivity].
  cbn [edge].
  erewrite run_from_S;
    [|cbn [node_function]; unfold node_validate, bind, call, ret; cbn; rewrite Hval;
      reflexivity].
  reflexivity.
Qed.

(** A run whose first three stages answer is the fold over the nodes that
    the recursion limit leaves room for. *)
Lemma ainvoke_fold init g mapping validation limit :
  deconstructor_run (input_text (story_state init)) = Returned g →
  mapper_run g = Returned mapping →
  oracle_validate_symbolic g (world_state (story_state init)) = Returned validation →
  (4 ≤ limit)%nat →
  ainvoke deconstructor_run mapper_run oracle_validate_symbolic scribe_run
    limit init no_effects
  = run_of_fold limit init g
      (render_all scribe_run (take (limit - 3) (nodes g))
         (prepared g mapping validation (story_state init))).
Proof.
  intros Hdec Hmap Hval Hlim.
  destruct limit as [|[|[|[|room]]]]; [lia..|].
  rewrite (ainvoke_stages init g mapping validation (S room) Hdec Hmap Hval).
  replace (S (S (S (S room))) - 3)%nat with (S room) by lia.
  destruct (nodes g) as [|node rest] eqn:Hnodes.
  - erewrite run_from_S;
      [|cbn [node_function]; apply node_scribe_idle; cbn; rewrite Hnodes; simpl; lia].
    rewrite apply_empty_update. unfold edge, should_continue_scribing, run_of_fold.
    cbn. rewrite Hnodes. by destruct room.
  - rewrite (scribe_loop_fold rest node [] _ _ room); [|cbn; by rewrite Hnodes|done].
    cbn [story_state calls executed]. unfold run_of_fold. rewrite Hnodes.
    change (S (S (S (S room))) - 3)%nat with (S room).
    replace (Nat.max (length (node :: rest)) 1) with (S (length rest)) by (simpl; lia).
    destruct (render_all scribe_run (take (S room) (node :: rest)) _) as [[story|e] cs];
      [destruct (S (length rest) <? S room)%nat|]; reflexivity.
Qed.

(** With room for every node, the fold is over the whole node list. *)
Lemma ainvoke_fold_room init g mapping validation limit :
  deconstructor_run (input_text (story_state init)) = Returned g →
  mapper_run g = Returned mapping →
  oracle_validate_symbolic g (world_state (story_state init)) = Returned validation →
  (3 + Nat.max (length (nodes g)) 1 ≤ limit)%nat →
  ainvoke deconstructor_run mapper_run oracle_validate_symbolic scribe_run
    limit init no_effects
  = run_of_fold limit init g
      (render_all scribe_run (nodes g) (prepared g mapping validation (story_state init))).
Proof.
  intros Hdec Hmap Hval Hlim.
  rewrite (ainvoke_fold init g mapping validation limit Hdec Hmap Hval) by lia.
  by rewrite take_ge by lia.
Qed.

(** X9. A run of the graph is a fold over the node list, as far as the
    recursion limit leaves room. Let the deconstructor, the mapper and the
    oracle answer; the run then needs three node executions and one for
    each node of the deconstructor's graph (one if there is none), and it
    can return only under a limit larger than that.
    - Under such a limit the run renders the nodes one after the other,
      each on the story the node before it left: it returns the story of
      the last node with the cursor at the number of nodes, after one
      scribe call for each node; or it raises what the scribe raised at
      the first node it failed on, after one execution of the scribe node
      for each call made.
    - Under a smaller limit (of 4 at least) the run renders the first
      [limit - 3] nodes in the same way and is then given up with
      [GraphRecursionError], unless the scribe failed before.
    A run that raises returns no story: what was rendered is lost. *)
Theorem run_is_a_fold_over_the_nodes init g mapping validation limit :
  deconstructor_run (input_text (story_state init)) = Returned g →
  mapper_run g = Returned mapping →
  oracle_validate_symbolic g (world_state (story_state init)) = Returned validation →
  (4 ≤ limit)%nat →
  let run := ainvoke deconstructor_run mapper_run oracle_validate_symbolic scribe_run
               limit init no_effects in
  let story0 := prepared g mapping validation (story_state init) in
  let needed := (3 + Nat.max (length (nodes g)) 1)%nat in
  ((needed < limit)%nat →
   let fold := render_all scribe_run (nodes g) story0 in
   calls (snd run) = (stage_calls init g ++ snd fold)%list
   ∧ (∀ story, fst fold = Returned story →
        fst run = Returned {| story_state := story;
                              current_node_index := Z.of_nat (length (nodes g)) |}
        ∧ length (snd fold) = length (nodes g))
   ∧ (∀ e, fst fold = Raised e →
        fst run = Raised e
        ∧ scribe_executions (executed (snd run)) = length (snd fold)
        ∧ (1 ≤ length (snd fold) ≤ length (nodes g))%nat))
  ∧ ((limit ≤ needed)%nat →
     let fold := render_all scribe_run (take (limit - 3) (nodes g)) story0 in
     calls (snd run) = (stage_calls init g ++ snd fold)%list
     ∧ (∀ story, fst fold = Returned story →
          fst run = Raised out_of_steps
          ∧ scribe_executions (executed (snd run)) = (limit - 3)%nat)
     ∧ (∀ e, fst fold = Raised e →
          fst run = Raised e
          ∧ scribe_executions (executed (snd run)) = length (snd fold))).
Proof.
  intros Hdec Hmap Hval Hlim run story0 needed. subst run needed. split.
  - intros Hroom fold.
    rewrite (ainvoke_fold_room init g mapping validation limit Hdec Hmap Hval) by lia.
    fold story0. fold fold.
    pose proof (render_all_calls (nodes g) story0) as Hcs. fold fold in Hcs.
    assert (Hlt : (Nat.max (length (nodes g)) 1 <? limit - 3)%nat = true)
      by (apply Nat.ltb_lt; lia).
    destruct fold as [[story|e] cs]; unfold run_of_fold; rewrite ?Hlt;
      cbn [fst snd calls executed] in *.
    + split; [done|]. split; [|intros e [=]]. by intros _ [= <-].
    + split; [done|]. split; [intros s [=]|].
      intros _ [= <-]. split; [done|]. split; [apply scribe_executions_repeat|done].
  - intros Hroom fold.
    rewrite (ainvoke_fold init g mapping validation limit Hdec Hmap Hval Hlim).
    fold story0. fold fold.
    assert (Hlt : (Nat.max (length (nodes g)) 1 <? limit - 3)%nat = false)
      by (apply Nat.ltb_ge; lia).
    destruct fold as [[story|e] cs]; unfold run_of_fold; rewrite ?Hlt;
      cbn [fst snd calls executed].
    + split; [done|]. split; [|intros e [=]].
      intros _ _. split; [done|apply scribe_executions_repeat].
    + split; [done|]. split; [intros s [=]|].
      intros _ [= <-]. split; [done|apply scribe_executions_repeat].
Qed.

(** ** The chunks of the story *)

Lemma dict_set_keys k v d :
  map fst (dict_set k v d) = add_key (map fst d) k.
Proof.
  unfold add_key. induction d as [|[k' v'] d IH]; [done|]. cbn [dict_set map fst].
  destruct (String.eqb_spec k k') as [->|Hne].
  - rewrite decide_True by left. done.
  - cbn [map fst]. rewrite IH. destruct (decide (k ∈ map fst d)) as [Hin|Hnin].
    + rewrite decide_True by (by right). done.
    + rewrite decide_False; [done|]. intros [?|?]%elem_of_cons; done.
Qed.

Lemma render_all_keys nodes : ∀ story story' cs,
  render_all scribe_run nodes story = (Returned story', cs) →
  map fst (rendered_chunks story')
  = fold_left add_key (map node_id nodes) (map fst (rendered_chunks story)).
Proof.
  induction nodes as [|node rest IH]; intros story story' cs H.
  - by injection H as <- <-.
  - rewrite render_all_cons in H.
    destruct (scribe_answer scribe_run node story) as [prose|e]; [|discriminate H].
    destruct (render_all scribe_run rest (rendered node prose story)) as [r cs'] eqn:E.
    injection H as -> <-. rewrite (IH _ _ _ E). cbn [map fold_left].
    f_equal. cbn. apply dict_set_keys.
Qed.

Lemma add_keys_spec ids : ∀ keys,
  NoDup keys →
  NoDup (fold_left add_key ids keys)
  ∧ (∀ id, id ∈ fold_left add_key ids keys ↔ id ∈ keys ∨ id ∈ ids)
  ∧ (length (fold_left add_key ids keys) ≤ length keys + length ids)%nat
  ∧ (length (fold_left add_key ids keys) = (length keys + length ids)%nat
     ↔ NoDup ids ∧ ∀ id, id ∈ ids → id ∉ keys).
Proof.
  induction ids as [|i ids IH]; intros keys Hnd; cbn [fold_left].
  - split; [done|]. split.
    { intros id. split; [by left|]. intros [H|H]; [done|by apply elem_of_nil in H]. }
    simpl. split; [lia|]. split; [|lia]. intros _. split; [constructor|].
    intros id H. by apply elem_of_nil in H.
  - destruct (decide (i ∈ keys)) as [Hin|Hnin].
    + replace (add_key keys i) with keys by (unfold add_key; by rewrite decide_True).
      destruct (IH keys Hnd) as (Hnd' & Hmem & Hle & Heq).
      split; [done|]. split.
      { intros id. rewrite Hmem, elem_of_cons.
        split; [intros [?|?]; auto|intros [?|[->|?]]; auto]. }
      simpl. split; [lia|].
      split; [lia|]. intros [_ Hfresh]. destruct (Hfresh i); [left|done].
    + replace (add_key keys i) with (keys ++ [i])%list
        by (unfold add_key; by rewrite decide_False).
      assert (Hnd1 : NoDup (keys ++ [i])).
      { apply NoDup_app. split; [done|]. split; [|apply NoDup_singleton].
        intros x Hx ->%list_elem_of_singleton. done. }
      destruct (IH (keys ++ [i])%list Hnd1) as (Hnd' & Hmem & Hle & Heq).
      rewrite length_app in Hle, Heq. simpl in Hle, Heq.
      split; [done|]. split.
      { intros id. rewrite Hmem, elem_of_app, list_elem_of_singleton, elem_of_cons.
        split; [intros [[?|?]|?]; auto|intros [?|[?|?]]; auto]. }
      simpl. split; [lia|].
      rewrite NoDup_cons.
      replace (length keys + S (length ids))%nat with (length keys + 1 + length ids)%nat
        by lia.
      rewrite Heq. split.
      * intros [Hnd2 Hfresh]. split; [split; [|done]|].
        -- intros Hi. apply (Hfresh i Hi). apply elem_of_app. right. left.
        -- intros id [->|Hid]%elem_of_cons; [done|]. intros Hk.
           apply (Hfresh id Hid). apply elem_of_app. by left.
      * intros [[Hi Hnd2] Hfresh]. split; [done|].
        intros id Hid [Hk| ->%list_elem_of_singleton]%elem_of_app; [|done].
        apply (Hfresh id); [by right|done].
Qed.

(** X10. The chunks of a finished run are keyed by node id, so there is one chunk
    for each distinct id of the graph, not one for each node: for a story
    that starts without chunks, the keys of the chunks are the node ids,
    each once; there are at most as many chunks as nodes, and exactly as
    many if and only if no two nodes share an id. *)
Theorem one_chunk_for_each_node_id init g mapping validation limit final :
  deconstructor_run (input_text (story_state init)) = Returned g →
  mapper_run g = Returned mapping →
  oracle_validate_symbolic g (world_state (story_state init)) = Returned validation →
  (3 + Nat.max (length (nodes g)) 1 ≤ limit)%nat →
  rendered_chunks (story_state init) = [] →
  fst (ainvoke deconstructor_run mapper_run oracle_validate_symbolic scribe_run
         limit init no_effects) = Returned final →
  let chunks := rendered_chunks (story_state final) in
  NoDup (map fst chunks)
  ∧ (∀ id, id ∈ map fst chunks ↔ id ∈ map node_id (nodes g))
  ∧ (length chunks ≤ length (nodes g))%nat
  ∧ (length chunks = length (nodes g) ↔ NoDup (map node_id (nodes g))).
Proof.
  intros Hdec Hmap Hval Hlim Hempty Hrun chunks.
  rewrite (ainvoke_fold_room init g mapping validation limit Hdec Hmap Hval Hlim) in Hrun.
  destruct (render_all scribe_run (nodes g) _) as [[story|e] cs] eqn:E;
    unfold run_of_fold in Hrun; [|discriminate Hrun].
  destruct (Nat.max (length (nodes g)) 1 <? limit - 3)%nat; [|discriminate Hrun].
  cbn in Hrun. injection Hrun as <-. subst chunks. cbn [story_state].
  pose proof (render_all_keys _ _ _ _ E) as Hkeys.
  change (rendered_chunks (prepared g mapping validation (story_state init)))
    with (rendered_chunks (story_state init)) in Hkeys.
  rewrite Hempty in Hkeys. cbn [map] in Hkeys.
  destruct (add_keys_spec (map node_id (nodes g)) [] (NoDup_nil_2))
    as (Hnd & Hmem & Hle & Heq).
  rewrite <- Hkeys in Hnd, Hmem, Hle, Heq.
  rewrite !length_map in Hle, Heq. simpl in Hle, Heq.
  split; [done|]. split.
  { intros id. rewrite Hmem. split; [|by right].
    intros [H|H]; [by apply elem_of_nil in H|done]. }
  split; [done|]. rewrite Heq. split; [by intros [? _]|].
  intros ?. split; [done|]. intros id _ Hnil. by apply elem_of_nil in Hnil.
Qed.

(** ** What the scribe is given *)

Lemma render_all_requests nodes : ∀ story,
  let reqs := scribe_requests (snd (render_all scribe_run nodes story)) in
  map fst reqs `prefix_of` nodes
  ∧ (∀ node m, reqs !! 0%nat = Some (node, m) → m = memory story)
  ∧ (∀ k node m, reqs !! k = Some (node, m) →
       style_guide m = style_guide (memory story)
       ∧ critical_facts m = critical_facts (memory story)
       ∧ entity_registry m = entity_registry (memory story))
  ∧ (∀ k node m node' m',
       reqs !! k = Some (node, m) → reqs !! S k = Some (node', m') →
       scribe_run node m (target_genre story) (target_audience story) (tone story)
         (words_per_scene story) (safety_level story) = Returned (last_paragraph m')
       ∧ running_summary m' = running_summary m ++ nl ++ last_paragraph m').
Proof.
  induction nodes as [|node rest IH]; intros story reqs; subst reqs.
  - cbn. split; [done|]. split; [done|]. split; [|done].
    intros k node m H. by rewrite lookup_nil in H.
  - rewrite render_all_cons.
    destruct (scribe_answer scribe_run node story) as [prose|e] eqn:Hans.
    + specialize (IH (rendered node prose story)). cbn zeta in IH.
      destruct (render_all scribe_run rest (rendered node prose story)) as [r cs].
      cbn [snd scribe_requests map fst] in *.
      destruct IH as (Hpre & Hfirst & Hkeep & Hchain).
      split; [by apply prefix_cons|]. split; [by intros ? ? [= _ <-]|]. split.
      * intros [|k] n m Hk; [by injection Hk as _ <-|].
        apply (Hkeep k n m Hk).
      * intros [|k] n m n' m' Hk Hk'.
        -- injection Hk as <- <-. cbn in Hk'. apply Hfirst in Hk'. subst m'.
           split; [exact Hans|done].
        -- apply (Hchain k n m n' m' Hk Hk').
    + cbn. split; [apply prefix_cons, prefix_nil|]. split; [by intros ? ? [= _ <-]|].
      split.
      * intros [|k] n m Hk; [by injection Hk as _ <-|]. destruct k; discriminate Hk.
      * intros [|k] n m n' m' Hk Hk'; [discriminate Hk'|destruct k; discriminate Hk].
Qed.

(** X11. What the scribe agent is given from call to call. The calls are made
    for the graph's nodes in order and the first with the memory the run
    started with; each later call gets as last paragraph the prose the call
    before it returned, and as running summary that of the call before
    with a newline and that prose added; the style guide, the critical
    facts and the entity registry are in every call those of the start:
    nothing in the run updates them. This holds also of a run that the
    scribe ends with an exception. *)
Theorem scribe_is_given_the_previous_prose init g mapping validation limit :
  deconstructor_run (input_text (story_state init)) = Returned g →
  mapper_run g = Returned mapping →
  oracle_validate_symbolic g (world_state (story_state init)) = Returned validation →
  (3 + Nat.max (length (nodes g)) 1 ≤ limit)%nat →
  let story := story_state init in
  let reqs :=
    scribe_requests
      (calls (snd (ainvoke deconstructor_run mapper_run oracle_validate_symbolic scribe_run
                     limit init no_effects))) in
  map fst reqs `prefix_of` nodes g
  ∧ (∀ node m, reqs !! 0%nat = Some (node, m) → m = memory story)
  ∧ (∀ k node m, reqs !! k = Some (node, m) →
       style_guide m = style_guide (memory story)
       ∧ critical_facts m = critical_facts (memory story)
       ∧ entity_registry m = entity_registry (memory story))
  ∧ (∀ k node m node' m',
       reqs !! k = Some (node, m) → reqs !! S k = Some (node', m') →
       scribe_run node m (target_genre story) (target_audience story) (tone story)
         (words_per_scene story) (safety_level story) = Returned (last_paragraph m')
       ∧ running_summary m' = running_summary m ++ nl ++ last_paragraph m').
Proof.
  intros Hdec Hmap Hval Hlim story reqs. subst reqs.
  rewrite (ainvoke_fold_room init g mapping validation limit Hdec Hmap Hval Hlim).
  pose proof (render_all_requests (nodes g)
                (prepared g mapping validation (story_state init))) as H.
  cbn zeta in H. unfold run_of_fold.
  destruct (render_all scribe_run (nodes g) _) as [[s|e] cs];
    [destruct (Nat.max (length (nodes g)) 1 <? limit - 3)%nat|]; exact H.
Qed.

(** A scribe that answers renders every node, and leaves the graph and the
    validation results as they are. *)
Lemma render_all_answers nodes : ∀ story,
  scribe_answers scribe_run story →
  ∃ story' cs,
    render_all scribe_run nodes story = (Returned story', cs)
    ∧ scribe_calls cs = nodes
    ∧ graph story' = graph story
    ∧ analogical_mapping story' = analogical_mapping story
    ∧ validation_results story' = validation_results story.
Proof.
  induction nodes as [|node rest IH]; intros story Hans.
  - by eexists _, _.
  - rewrite render_all_cons. unfold scribe_answer.
    destruct (Hans node (memory story)) as [prose ->].
    destruct (IH (rendered node prose story)) as (story' & cs & -> & Hcs & Hg & Hm & Hv).
    { intros n m. apply Hans. }
    eexists _, _. split; [reflexivity|]. cbn. by rewrite Hcs.
Qed.

(** ** A stage that fails *)

(** X12. A failure of one of the first three stages ends the run with the
    stage's exception: the stages after it are not entered, no agent is
    called again, and the scribe is never reached. *)
Theorem failed_stage_ends_the_run init limit e :
  let text := input_text (story_state init) in
  let run := ainvoke deconstructor_run mapper_run oracle_validate_symbolic scribe_run in
  (deconstructor_run text = Raised e →
   run (S limit) init no_effects
   = (Raised e, {| calls := [DeconstructorRun text]; executed := [Deconstruct] |}))
  ∧ (∀ g, deconstructor_run text = Returned g → mapper_run g = Raised e →
     run (S (S limit)) init no_effects
     = (Raised e, {| calls := [DeconstructorRun text; MapperRun g];
                     executed := [Deconstruct; Map] |}))
  ∧ (∀ g mapping,
     deconstructor_run text = Returned g → mapper_run g = Returned mapping →
     oracle_validate_symbolic g (world_state (story_state init)) = Raised e →
     run (S (S (S limit))) init no_effects
     = (Raised e, {| calls := stage_calls init g;
                     executed := [Deconstruct; Map; Validate] |})).
Proof.
  intros text run. subst text run. unfold ainvoke, entry_point. split; [|split].
  - intros Hdec. cbn [run_from node_function].
    unfold bind, enter, node_deconstruct, bind, call. by rewrite Hdec.
  - intros g Hdec Hmap.
    erewrite run_from_S;
      [|cbn [node_function]; unfold node_deconstruct, bind, call, ret; rewrite Hdec;
        reflexivity].
    cbn [edge run_from node_function].
    unfold bind, enter, node_map, bind, call. cbn. by rewrite Hmap.
  - intros g mapping Hdec Hmap Hval.
    erewrite run_from_S;
      [|cbn [node_function]; unfold node_deconstruct, bind, call, ret; rewrite Hdec;
        reflexivity].
    cbn [edge].
    erewrite run_from_S;
      [|cbn [node_function]; unfold node_map, bind, call, ret; cbn; rewrite Hmap;
        reflexivity].
    cbn [edge run_from node_function].
    unfold bind, enter, node_validate, bind, call. cbn. by rewrite Hval.
Qed.

End GraphFold.

Section SymbolicValidation.
Import Schemas.
Import Workflow.

Variable deconstructor_run : string → outcome LogicGraph.
Variable mapper_run : LogicGraph → outcome AnalogicalMapping.
Variable scribe_run :
  NarrativeNode → NarrativeMemory → string → string → string → Z → string → outcome string.

(** X13. The validation stage decides nothing. Take the symbolic oracle of
    agents/oracle.py as the validation stage, a deconstructor, a mapper
    and a scribe that answer, and a recursion limit larger than the
    [3 + max N 1] node executions that a graph of [N] nodes needs. The
    validation stage then never fails, and whatever its verdict, every
    node of the graph is rendered: the run returns with the verdict added
    to the story's validation results, and the scribe was called once for
    each node, in order. In particular a graph that the oracle finds
    invalid is rendered like a valid one. *)
Theorem validation_does_not_gate_rendering init g mapping limit :
  deconstructor_run (input_text (story_state init)) = Returned g →
  mapper_run g = Returned mapping →
  scribe_answers scribe_run (story_state init) →
  (3 + Nat.max (length (nodes g)) 1 < limit)%nat →
  ∃ final w,
    ainvoke deconstructor_run mapper_run symbolic_oracle scribe_run limit init no_effects
      = (Returned final, w)
    ∧ scribe_calls (calls w) = nodes g
    ∧ graph (story_state final) = g
    ∧ analogical_mapping (story_state final) = Some mapping
    ∧ validation_results (story_state final)
      = (validation_results (story_state init)
         ++ [Oracle.validate_symbolic g (world_state (story_state init))])%list.
Proof.
  intros Hdec Hmap Hans Hlim.
  rewrite (ainvoke_fold_room deconstructor_run mapper_run symbolic_oracle scribe_run
             init g mapping _ limit Hdec Hmap eq_refl) by lia.
  destruct (render_all_answers scribe_run (nodes g)
              (prepared g mapping
                 (Oracle.validate_symbolic g (world_state (story_state init)))
                 (story_state init)))
    as (story' & cs & -> & Hcs & Hg & Hm & Hv).
  { intros n m. apply Hans. }
  unfold run_of_fold.
  replace (Nat.max (length (nodes g)) 1 <? limit - 3)%nat with true
    by (symmetry; apply Nat.ltb_lt; lia).
  eexists _, _. split; [reflexivity|]. cbn [calls story_state].
  split; [by rewrite scribe_calls_app, Hcs|]. by rewrite Hg, Hm, Hv.
Qed.

End SymbolicValidation.

(** Under the default limit: a scribe that fails on the second of two
    nodes, and a graph of 22 nodes with a scribe that answers. *)
Lemma run_is_a_fold_over_the_nodes_witness :
  let short := Workflow.ainvoke (demo_deconstructor knight_graph) demo_mapper demo_oracle
                 failing_scribe Workflow.default_recursion_limit
                 (Narrative.initial_state knight_request) Workflow.no_effects in
  let long := Workflow.ainvoke (demo_deconstructor long_graph) demo_mapper demo_oracle
                demo_scribe Workflow.default_recursion_limit
                (Narrative.initial_state knight_request) Workflow.no_effects in
  (fst short = Raised (RetryError (ValueError "Empty text in response"))
   ∧ scribe_executions (Workflow.executed (snd short)) = 2%nat)
  ∧ (fst long = Raised out_of_steps
     ∧ scribe_executions (Workflow.executed (snd long)) = 22%nat
     ∧ scribe_calls (Workflow.calls (snd long)) = Schemas.nodes long_graph).
Proof.
  cbv zeta. split.
  - destruct (run_is_a_fold_over_the_nodes (demo_deconstructor knight_graph) demo_mapper
                demo_oracle failing_scribe (Narrative.initial_state knight_request)
                knight_graph _ _ Workflow.default_recursion_limit
                eq_refl eq_refl eq_refl ltac:(vm_compute; lia))
      as [Hroom _].
    destruct (Hroom ltac:(vm_compute; lia)) as (_ & _ & Hraised).
    destruct (Hraised _ eq_refl) as (Hrun & Hexec & _).
    split; [exact Hrun|exact Hexec].
  - destruct (run_is_a_fold_over_the_nodes (demo_deconstructor long_graph) demo_mapper
                demo_oracle demo_scribe (Narrative.initial_state knight_request)
                long_graph _ _ Workflow.default_recursion_limit
                eq_refl eq_refl eq_refl ltac:(vm_compute; lia))
      as [_ Hshort].
    destruct (Hshort ltac:(vm_compute; lia)) as (Hcalls & Hreturned & _).
    assert (Hfold : ∃ story,
              fst (render_all demo_scribe
                     (take (Workflow.default_recursion_limit - 3) (Schemas.nodes long_graph))
                     (prepared long_graph
                        {| Schemas.mapping_reasoning := ""; Schemas.entity_archetypes := [];
                           Schemas.action_patterns := []; Schemas.structure_type := "Unknown";
                           Schemas.emotional_arc := [] |}
                        {| Schemas.validation_reasoning := ""; Schemas.is_valid := true;
                           Schemas.violations := []; Schemas.suggestions := [] |}
                        (Workflow.story_state (Narrative.initial_state knight_request))))
              = Returned story)
      by (eexists; vm_compute; reflexivity).
    destruct Hfold as [story Hfold].
    destruct (Hreturned story Hfold) as [Hrun Hexec].
    split; [exact Hrun|]. split; [exact Hexec|].
    rewrite Hcalls. vm_compute. reflexivity.
Defined.

Lemma one_chunk_for_each_node_id_witness :
  match fst (Workflow.ainvoke (demo_deconstructor knight_graph) demo_mapper demo_oracle
               demo_scribe 25 (Narrative.initial_state knight_request)
               Workflow.no_effects) with
  | Returned final =>
      map fst (Schemas.rendered_chunks (Workflow.story_state final)) = ["n1"; "n2"]
      ∧ (length (Schemas.rendered_chunks (Workflow.story_state final))
         = length (Schemas.nodes knight_graph)
         ↔ NoDup (map Schemas.node_id (Schemas.nodes knight_graph)))
  | Raised _ => False
  end.
Proof.
  destruct (fst (Workflow.ainvoke (demo_deconstructor knight_graph) demo_mapper demo_oracle
                   demo_scribe 25 (Narrative.initial_state knight_request)
                   Workflow.no_effects)) as [final|e] eqn:E.
  - split.
    + vm_compute in E. injection E as <-. reflexivity.
    + apply (one_chunk_for_each_node_id (demo_deconstructor knight_graph) demo_mapper
               demo_oracle demo_scribe (Narrative.initial_state knight_request)
               knight_graph _ _ 25 final eq_refl eq_refl eq_refl ltac:(vm_compute; lia)
               eq_refl E).
  - vm_compute in E. discriminate E.
Defined.

Lemma scribe_is_given_the_previous_prose_witness :
  let reqs :=
    scribe_requests
      (Workflow.calls
         (snd (Workflow.ainvoke (demo_deconstructor knight_graph) demo_mapper demo_oracle
                 demo_scribe 25 (Narrative.initial_state knight_request)
                 Workflow.no_effects))) in
  map fst reqs = Schemas.nodes knight_graph
  ∧ map (Schemas.last_paragraph ∘ snd) reqs = [""; "Prose for n1"]
  ∧ ∀ k node m node' m',
      reqs !! k = Some (node, m) → reqs !! S k = Some (node', m') →
      Schemas.running_summary m'
      = Schemas.running_summary m ++ Schemas.nl ++ Schemas.last_paragraph m'.
Proof.
  cbv zeta. split; [reflexivity|]. split; [reflexivity|].
  intros k node m node' m' Hk Hk'.
  eapply (scribe_is_given_the_previous_prose (demo_deconstructor knight_graph) demo_mapper
            demo_oracle demo_scribe (Narrative.initial_state knight_request)
            knight_graph _ _ 25 eq_refl eq_refl eq_refl ltac:(vm_compute; lia));
    [exact Hk|exact Hk'].
Defined.

Lemma failed_stage_ends_the_run_witness :
  Workflow.ainvoke (demo_deconstructor knight_graph) failing_mapper demo_oracle demo_scribe
    25 (Narrative.initial_state knight_request) Workflow.no_effects
  = (Raised (RetryError (TransportError "503")),
     {| Workflow.calls := [Workflow.DeconstructorRun "A knight seeks a dragon";
                           Workflow.MapperRun knight_graph];
        Workflow.executed := [Workflow.Deconstruct; Workflow.Map] |}).
Proof.
  apply (failed_stage_ends_the_run (demo_deconstructor knight_graph) failing_mapper
           demo_oracle demo_scribe (Narrative.initial_state knight_request) 23
           (RetryError (TransportError "503"))); reflexivity.
Defined.

(** The oracle finds [slay_first] invalid, and the run renders it. *)
Lemma validation_does_not_gate_rendering_witness :
  Schemas.is_valid (Oracle.validate_symbolic slay_first {| Schemas.attributes := [] |})
    = false
  ∧ ∃ final w,
      Workflow.ainvoke (demo_deconstructor slay_first) demo_mapper symbolic_oracle
        demo_scribe 25 (Narrative.initial_state knight_request) Workflow.no_effects
        = (Returned final, w)
      ∧ scribe_calls (Workflow.calls w) = Schemas.nodes slay_first
      ∧ map Schemas.is_valid (Schemas.validation_results (Workflow.story_state final))
        = [false].
Proof.
  split; [reflexivity|].
  destruct (validation_does_not_gate_rendering (demo_deconstructor slay_first) demo_mapper
              demo_scribe (Narrative.initial_state knight_request) slay_first _ 25
              eq_refl eq_refl (demo_scribe_answers _) ltac:(vm_compute; lia))
    as (final & w & Hrun & Hcalls & _ & _ & Hval).
  exists final, w. split; [exact Hrun|]. split; [exact Hcalls|]. by rewrite Hval.
Defined.

(** * Further properties of the gateway *)

Section RetryOutcome.
Context {T : Type}.
Variable fn : nat → outcome T.

(** How the controller ends: every attempt before the last one failed, the
    waits are those of the attempts that failed, and the call either
    returns what its last attempt returned, or has used up its attempts and
    raises [RetryError] around what the last one raised. *)
Lemma retrying_outcome remaining : ∀ first waited,
  let run := Gemini.retrying remaining first fn waited in
  (first ≤ Gemini.attempt_number run ≤ first + remaining)%nat
  ∧ Gemini.waits run
    = (rev waited
       ++ map (Gemini.wait_exponential 1 2 10)
            (seq first (Gemini.attempt_number run - first)))%list
  ∧ (∀ j, (first ≤ j < Gemini.attempt_number run)%nat → ∃ e, fn j = Raised e)
  ∧ match Gemini.result run with
    | Returned v => fn (Gemini.attempt_number run) = Returned v
    | Raised e =>
        Gemini.attempt_number run = (first + remaining)%nat
        ∧ ∃ e', e = RetryError e' ∧ fn (Gemini.attempt_number run) = Raised e'
    end.
Proof.
  induction remaining as [|remaining IH]; intros first waited; cbn [Gemini.retrying].
  - destruct (fn first) as [v|e] eqn:E; cbn.
    + rewrite Nat.sub_diag, app_nil_r.
      split; [lia|]. split; [done|]. split; [intros j Hj; lia|done].
    + rewrite Nat.sub_diag, app_nil_r.
      split; [lia|]. split; [done|]. split; [intros j Hj; lia|].
      split; [lia|by exists e].
  - destruct (fn first) as [v|e] eqn:E.
    + cbn. rewrite Nat.sub_diag, app_nil_r.
      split; [lia|]. split; [done|]. split; [intros j Hj; lia|done].
    + specialize (IH (S first) (Gemini.wait_exponential 1 2 10 first :: waited)).
      cbn zeta in IH. destruct IH as (Hk & Hw & Hfail & Hres).
      set (run := Gemini.retrying remaining (S first) fn _) in *.
      split; [lia|]. split; [|split].
      * rewrite Hw. cbn [rev]. rewrite <- app_assoc. f_equal.
        replace (Gemini.attempt_number run - first)%nat
          with (S (Gemini.attempt_number run - S first)) by lia.
        reflexivity.
      * intros j Hj. destruct (decide (j = first)) as [->|Hne]; [by exists e|].
        apply Hfail. lia.
      * destruct (Gemini.result run) as [v|e']; [done|].
        destruct Hres as [Hn Hres]. split; [lia|done].
Qed.

End RetryOutcome.

Section GatewayOutcome.
Context {T : Type}.
Variable model_validate_json : string → outcome T.
Variable env : Gemini.backend.

Lemma attempt_returned req k v :
  Gemini.attempt_of model_validate_json env req k = Returned v →
  Gemini.limiter env k = Returned tt
  ∧ ∃ r json_text,
      Gemini.generate_content env k req = Returned r
      ∧ Gemini.candidates r ≠ []
      ∧ Gemini.text r = Returned (Some json_text)
      ∧ json_text ≠ ""
      ∧ model_validate_json json_text = Returned v.
Proof.
  unfold Gemini.attempt_of, Gemini.generate_structured_body, Gemini.parse_output.
  destruct (Gemini.limiter env k) as [[]|e] eqn:Hlim; [|discriminate].
  destruct (Gemini.generate_content env k req) as [r|e] eqn:Hgen; [|discriminate].
  destruct (Gemini.candidates r) as [|c cs] eqn:Hcand; [discriminate|].
  destruct (Gemini.text r) as [[json_text|]|e] eqn:Htext; [|discriminate..].
  destruct json_text as [|a s]; [discriminate|].
  intros H. split; [done|]. exists r, (String a s).
  split; [done|]. split; [by rewrite Hcand|]. by repeat split.
Qed.

(** X14. Where a returned value comes from. A value that the decorated call
    returns is what [model_validate_json] made of the non-empty text of a
    response with at least one candidate, which the backend gave to the
    call's last attempt after the rate limiter let that attempt pass; every
    attempt before it failed, and the call waited 2 seconds after each of
    them: within three attempts the exponential wait stays at its
    minimum. *)
Theorem returned_value_is_a_validated_answer (model_name prompt response_model : string)
    (temperature : Q) (safety_level : string) (v : T) :
  let req := Gemini.build_request model_name prompt response_model temperature safety_level in
  let run := Gemini.generate_structured model_validate_json env model_name prompt
               response_model temperature safety_level in
  let k := Gemini.attempt_number run in
  Gemini.result run = Returned v →
  (1 ≤ k ≤ 3)%nat
  ∧ Gemini.limiter env k = Returned tt
  ∧ (∃ r json_text,
       Gemini.generate_content env k req = Returned r
       ∧ Gemini.candidates r ≠ []
       ∧ Gemini.text r = Returned (Some json_text)
       ∧ json_text ≠ ""
       ∧ model_validate_json json_text = Returned v)
  ∧ (∀ j, (1 ≤ j < k)%nat →
       ∃ e, Gemini.attempt_of model_validate_json env req j = Raised e)
  ∧ Gemini.waits run = repeat 2%Z (k - 1).
Proof.
  intros req run k Hres. subst k.
  pose proof (retrying_outcome (Gemini.attempt_of model_validate_json env req) 2 1 [])
    as (Hk & Hw & Hfail & Hlast).
  change (Gemini.retrying 2 1 (Gemini.attempt_of model_validate_json env req) [])
    with run in *.
  rewrite Hres in Hlast. apply attempt_returned in Hlast as [Hlim Hresp].
  split; [simpl in Hk; lia|]. split; [done|]. split; [done|]. split; [done|].
  rewrite Hw. simpl in Hk.
  destruct (Gemini.attempt_number run) as [|[|[|[|k]]]]; try lia; reflexivity.
Qed.

(** X15. What a failed call raises. The decorated call raises only when three
    attempts have failed, 2 seconds after the first and 2 seconds after the
    second, and what it raises is then a [RetryError] around the third
    attempt's exception: no exception of an attempt reaches the caller as
    it is. *)
Theorem failed_call_raises_retry_error (model_name prompt response_model : string)
    (temperature : Q) (safety_level : string) (e : exn) :
  let req := Gemini.build_request model_name prompt response_model temperature safety_level in
  let run := Gemini.generate_structured model_validate_json env model_name prompt
               response_model temperature safety_level in
  Gemini.result run = Raised e →
  Gemini.attempt_number run = 3%nat
  ∧ (∃ e3, e = RetryError e3
           ∧ Gemini.attempt_of model_validate_json env req 3 = Raised e3)
  ∧ (∀ j, (1 ≤ j ≤ 3)%nat →
       ∃ ej, Gemini.attempt_of model_validate_json env req j = Raised ej)
  ∧ Gemini.waits run = [2; 2]%Z.
Proof.
  intros req run Hres.
  pose proof (retrying_outcome (Gemini.attempt_of model_validate_json env req) 2 1 [])
    as (Hk & Hw & Hfail & Hlast).
  change (Gemini.retrying 2 1 (Gemini.attempt_of model_validate_json env req) [])
    with run in *.
  rewrite Hres in Hlast. destruct Hlast as (Hn & e3 & -> & H3).
  simpl in Hn. rewrite Hn in *.
  split; [done|]. split; [by exists e3|]. split; [|by rewrite Hw].
  intros j Hj. destruct (decide (j = 3)) as [->|Hne]; [by exists e3|].
  apply Hfail. lia.
Qed.

End GatewayOutcome.

Lemma returned_value_is_a_validated_answer_witness :
  let run := Gemini.generate_structured (λ s, Returned s) flaky_backend
               "gemini-1.5-pro" "prompt" "ScribeOutput" 0.7 "none" in
  Gemini.result run = Returned "{}"
  ∧ Gemini.attempt_number run = 3%nat
  ∧ Gemini.limiter flaky_backend (Gemini.attempt_number run) = Returned tt
  ∧ Gemini.waits run = repeat 2%Z (Gemini.attempt_number run - 1).
Proof.
  pose proof (returned_value_is_a_validated_answer (λ s, Returned s) flaky_backend
                "gemini-1.5-pro" "prompt" "ScribeOutput" 0.7 "none" "{}" eq_refl)
    as (_ & Hlim & _ & _ & Hw).
  cbv zeta. split; [reflexivity|]. split; [reflexivity|]. split; [exact Hlim|exact Hw].
Defined.

Lemma failed_call_raises_retry_error_witness :
  let run := Gemini.generate_structured (λ s, Returned s) filtered_backend
               "gemini-1.5-pro" "prompt" "ScribeOutput" 0.7 "none" in
  Gemini.result run = Raised (RetryError (ValueError "Empty text in response"))
  ∧ Gemini.attempt_number run = 3%nat
  ∧ Gemini.waits run = [2; 2]%Z.
Proof.
  pose proof (failed_call_raises_retry_error (λ s, Returned s) filtered_backend
                "gemini-1.5-pro" "prompt" "ScribeOutput" 0.7 "none" _ eq_refl)
    as (Hn & _ & _ & Hw).
  cbv zeta. split; [reflexivity|]. split; [exact Hn|exact Hw].
Defined.

(** * Further properties of the background task and of the stream *)

Section WorkerFacts.
Import Narrative.
Variable count_words : string → Z.

(** The emitter after the first part of the worker, for a job in the store. *)
Lemma start_emitter task_id req now trace st j :
  JOBS st !! task_id = Some j →
  event_emitter (snd (run_generation_workflow_start task_id req now trace st))
  = EventEmitter.queue_put (EventEmitter.next_queue (event_emitter st))
      (opening_record req now)
      (snd (EventEmitter.create_queue task_id (event_emitter st))).
Proof.
  intros Hj. unfold run_generation_workflow_start.
  unfold bind at 1. unfold with_emitter at 1. unfold bind at 1.
  cbn [EventEmitter.create_queue ret].
  unfold bind at 1. rewrite with_emitter_emit. cbn [snd].
  unfold try_before_await, bind.
  erewrite jobs_setitem_known by (cbn [JOBS]; exact Hj).
  cbn [snd event_emitter JOBS]. unfold EventEmitter.emit. cbn [EventEmitter._queues].
  rewrite lookup_insert_eq. reflexivity.
Qed.

(** The emitter after the second part: the closing record is published and
    the channel is unregistered. *)
Lemma resume_emitter task_id awaited now trace st j :
  JOBS st !! task_id = Some j →
  let closing := closing_record count_words awaited now trace in
  run_generation_workflow_resume count_words task_id awaited now trace st
  = (Returned tt,
     {| JOBS := <[task_id := settled awaited j]> (JOBS st);
        event_emitter :=
          snd (EventEmitter.cleanup task_id
                 (snd (EventEmitter.emit task_id (EventEmitter.ev_type closing)
                         (EventEmitter.ev_data closing) now (event_emitter st)))) |}).
Proof.
  intros Hj closing. subst closing.
  unfold run_generation_workflow_resume, try_finally, try_except, finally_clause.
  destruct awaited as [final_state|e].
  - unfold try_after_await, bind.
    erewrite jobs_setitem_known by exact Hj.
    erewrite jobs_setitem_known by (cbn [JOBS]; apply lookup_insert_eq).
    rewrite with_emitter_emit, with_emitter_cleanup. cbn.
    rewrite insert_insert_eq. reflexivity.
  - unfold raise, except_clause, bind.
    erewrite jobs_setitem_known by exact Hj.
    erewrite jobs_setitem_known by (cbn [JOBS]; apply lookup_insert_eq).
    rewrite with_emitter_emit, with_emitter_cleanup. cbn.
    rewrite insert_insert_eq. reflexivity.
Qed.

Lemma closing_record_closes awaited now trace :
  closes_stream (EventEmitter.ev_type (closing_record count_words awaited now trace)) = true.
Proof. by destruct awaited. Qed.

Lemma closing_record_timestamp awaited now trace :
  closing_record count_words awaited now trace
  = EventEmitter.Event
      (EventEmitter.ev_type (closing_record count_words awaited now trace))
      (EventEmitter.ev_data (closing_record count_words awaited now trace)) now.
Proof. by destruct awaited. Qed.

(** X16. How the background task ends. Whatever the graph run produced, the
    second part of the task returns normally; it publishes exactly one more
    record on the job's channel, of type [workflow_complete] or [error], and
    then unregisters the channel: the record stays in the queue object, for
    a subscriber that holds it, but the emitter no longer finds a queue for
    the job. The queues, channels and records of other jobs are as
    before. *)
Theorem worker_closes_its_channel task_id awaited now trace st j queue buffered :
  JOBS st !! task_id = Some j →
  EventEmitter.get_queue task_id (event_emitter st) = Some queue →
  EventEmitter.queue_objs (event_emitter st) !! queue = Some buffered →
  let run := run_generation_workflow_resume count_words task_id awaited now trace st in
  let closing := closing_record count_words awaited now trace in
  fst run = Returned tt
  ∧ closes_stream (EventEmitter.ev_type closing) = true
  ∧ EventEmitter.get_queue task_id (event_emitter (snd run)) = None
  ∧ EventEmitter.queue_objs (event_emitter (snd run)) !! queue
    = Some (buffered ++ [closing])%list
  ∧ (∀ queue', queue' ≠ queue →
       EventEmitter.queue_objs (event_emitter (snd run)) !! queue'
       = EventEmitter.queue_objs (event_emitter st) !! queue')
  ∧ (∀ t, t ≠ task_id →
       EventEmitter.get_queue t (event_emitter (snd run))
       = EventEmitter.get_queue t (event_emitter st)
       ∧ JOBS (snd run) !! t = JOBS st !! t).
Proof.
  intros Hj Hq Hbuf run closing. subst run.
  rewrite (resume_emitter task_id awaited now trace st j Hj). cbn [fst snd].
  fold closing. unfold EventEmitter.get_queue in Hq.
  unfold EventEmitter.emit, EventEmitter.cleanup. rewrite Hq. cbn. rewrite Hq. cbn.
  split; [done|]. split; [apply closing_record_closes|].
  split; [apply lookup_delete_eq|]. split; [|split].
  - rewrite lookup_alter_eq, Hbuf. cbn. do 3 f_equal. subst closing.
    symmetry. apply closing_record_timestamp.
  - intros queue' Hne. by rewrite lookup_alter_ne.
  - intros t Hne. unfold EventEmitter.get_queue. cbn.
    by rewrite lookup_delete_ne, lookup_insert_ne.
Qed.

(** X17. What the status endpoint answers along a job: after the submission the
    job is queued; after the first part of the background task it is
    processing; after the second part it is completed, with the story text,
    the number of graph nodes and the chunks of the final state and no
    error, when the graph run returned, and failed, with the text of the
    exception and no result, when the graph run raised. The query changes
    nothing, and the jobs of other ids are as before. *)
Theorem status_along_a_job st uuid4 req awaited now0 now1 trace0 trace1 :
  let st1 := snd (start_generation uuid4 req st) in
  let st2 := snd (run_generation_workflow_start uuid4 req now0 trace0 st1) in
  let st3 := snd (run_generation_workflow_resume count_words uuid4 awaited now1 trace1 st2) in
  get_generation_status uuid4 st1
    = (Returned {| resp_task_id := uuid4; resp_status := "queued";
                   resp_result := None; resp_error := None |}, st1)
  ∧ get_generation_status uuid4 st2
    = (Returned {| resp_task_id := uuid4; resp_status := "processing";
                   resp_result := None; resp_error := None |}, st2)
  ∧ get_generation_status uuid4 st3 = (Returned (final_response uuid4 awaited), st3)
  ∧ (∀ t, t ≠ uuid4 → JOBS st3 !! t = JOBS st !! t).
Proof.
  intros st1 st2 st3.
  set (j := {| status := "queued"; task_id := uuid4; result := None; error := None |}).
  assert (H1 : JOBS st1 = <[uuid4 := j]> (JOBS st)) by reflexivity.
  assert (Hj1 : JOBS st1 !! uuid4 = Some j) by (rewrite H1; apply lookup_insert_eq).
  destruct (start_known uuid4 req now0 trace0 st1 j Hj1) as [em2 Hstart].
  assert (H2 : JOBS st2 = <[uuid4 := set_status "processing" j]> (JOBS st1))
    by (subst st2; by rewrite Hstart).
  assert (Hj2 : JOBS st2 !! uuid4 = Some (set_status "processing" j))
    by (rewrite H2; apply lookup_insert_eq).
  destruct (resume_known count_words uuid4 awaited now1 trace1 st2 _ Hj2) as [em3 Hres].
  assert (H3 : JOBS st3 = <[uuid4 := settled awaited (set_status "processing" j)]> (JOBS st2))
    by (subst st3; by rewrite Hres).
  assert (Hj3 : JOBS st3 !! uuid4 = Some (settled awaited (set_status "processing" j)))
    by (rewrite H3; apply lookup_insert_eq).
  unfold get_generation_status. rewrite Hj1, Hj2, Hj3.
  split; [done|]. split; [done|]. split; [by destruct awaited|].
  intros t Hne. rewrite H3, H2, H1. by rewrite !lookup_insert_ne.
Qed.

Lemma start_unknown task_id req now trace st :
  JOBS st !! task_id = None →
  run_generation_workflow_start task_id req now trace st
  = (Returned (Finished (Raised (KeyError task_id))),
     {| JOBS := JOBS st;
        event_emitter :=
          snd (EventEmitter.cleanup task_id
                 (snd (EventEmitter.emit task_id "workflow_start"
                         (EventEmitter.ev_data (opening_record req now)) now
                         (snd (EventEmitter.create_queue task_id (event_emitter st)))))) |}).
Proof.
  intros Hj. unfold run_generation_workflow_start.
  unfold bind at 1. unfold with_emitter at 1. unfold bind at 1.
  cbn [EventEmitter.create_queue ret].
  unfold bind at 1. rewrite with_emitter_emit. cbn [snd].
  unfold try_before_await, bind, jobs_setitem. cbn [JOBS]. rewrite Hj.
  unfold try_finally, except_clause, bind, jobs_setitem. cbn [JOBS]. rewrite Hj.
  unfold finally_clause. rewrite with_emitter_cleanup. reflexivity.
Qed.

(** X18. A background task started for an id that is not in the job store: the
    [try] block fails on the first assignment with [KeyError], the handler
    fails on its own first assignment in the same way, the [finally] clause
    still unregisters the channel, and the task ends with the [KeyError].
    No job record is made, and the queue that was created holds the opening
    record and no closing one. *)
Theorem worker_without_job_record task_id req now trace st :
  JOBS st !! task_id = None →
  let run := run_generation_workflow_start task_id req now trace st in
  let queue := EventEmitter.next_queue (event_emitter st) in
  fst run = Returned (Finished (Raised (KeyError task_id)))
  ∧ JOBS (snd run) = JOBS st
  ∧ EventEmitter.get_queue task_id (event_emitter (snd run)) = None
  ∧ EventEmitter.queue_objs (event_emitter (snd run)) !! queue
    = Some [opening_record req now].
Proof.
  intros Hj run queue. subst run queue.
  rewrite (start_unknown task_id req now trace st Hj). cbn [fst snd JOBS event_emitter].
  split; [done|]. split; [done|].
  unfold EventEmitter.get_queue, EventEmitter.emit, EventEmitter.cleanup,
    EventEmitter.create_queue.
  cbn [snd EventEmitter._queues]. rewrite lookup_insert_eq.
  cbn [snd EventEmitter._queues EventEmitter.queue_put]. rewrite lookup_insert_eq.
  cbn [snd EventEmitter._queues EventEmitter.queue_objs].
  split; [apply lookup_delete_eq|].
  unfold EventEmitter.queue_put. cbn [EventEmitter.queue_objs].
  by rewrite lookup_alter_eq, lookup_insert_eq.
Qed.

End WorkerFacts.

Section AttachedSubscriber.
Import Narrative.
Variable count_words : string → Z.

(** One resumption, without a timeout, of a subscriber that reads [queue]. *)
Lemma receive_reading s queue rest now :
  subscriber s = inl (Reading queue) →
  EventEmitter.queue_objs (bus s) !! queue = Some rest →
  act s (Receive now false)
  = match rest with
    | [] => s
    | e :: rest' =>
        {| bus := popped queue rest' (bus s);
           subscriber :=
             inl (if closes_stream (EventEmitter.ev_type e) then Leaving else Reading queue);
           received := (received s ++ [sse_of_event e])%list |}
    end.
Proof.
  intros Hsub Hq. cbn [act]. rewrite Hsub. cbn [anext]. unfold read_queue. rewrite Hq.
  destruct rest; [|done]. destruct s. cbn in *. by rewrite Hsub.
Qed.

Lemma idle_reading s queue now n :
  subscriber s = inl (Reading queue) →
  EventEmitter.queue_objs (bus s) !! queue = Some [] →
  run (repeat (Receive now false) n) s = s.
Proof.
  intros Hsub Hq. induction n as [|n IH]; [done|].
  cbn [repeat]. by rewrite run_cons, (receive_reading s queue [] now Hsub Hq).
Qed.

Lemma left_stays now n : ∀ s,
  subscriber s = inl Leaving ∨ subscriber s = inr (Returned tt) →
  subscriber (run (repeat (Receive now false) n) s) = inl Leaving
  ∨ subscriber (run (repeat (Receive now false) n) s) = inr (Returned tt).
Proof.
  induction n as [|n IH]; intros s Hs; [done|]. cbn [repeat]. rewrite run_cons.
  apply IH. right. by apply receive_left.
Qed.

(** The emitter after the second part of the worker, when the job is in the
    store and its channel registered. *)
Lemma resume_queue task_id awaited now trace st j queue :
  JOBS st !! task_id = Some j →
  EventEmitter.get_queue task_id (event_emitter st) = Some queue →
  event_emitter (snd (run_generation_workflow_resume count_words task_id awaited now trace st))
  = {| EventEmitter.queue_objs :=
         alter (λ items, (items ++ [closing_record count_words awaited now trace])%list)
           queue (EventEmitter.queue_objs (event_emitter st));
       EventEmitter.next_queue := EventEmitter.next_queue (event_emitter st);
       EventEmitter._queues := delete task_id (EventEmitter._queues (event_emitter st)) |}.
Proof.
  intros Hj Hq. rewrite (resume_emitter count_words task_id awaited now trace st j Hj).
  cbn [snd event_emitter]. unfold EventEmitter.get_queue in Hq.
  unfold EventEmitter.emit. rewrite Hq. cbn [snd].
  unfold EventEmitter.cleanup, EventEmitter.queue_put. cbn [EventEmitter._queues].
  rewrite Hq. cbn [snd EventEmitter.queue_objs EventEmitter.next_queue EventEmitter._queues].
  by rewrite <- closing_record_timestamp.
Qed.

(** X19. A subscriber beside the worker. Take a subscriber that starts
    reading while the job runs; its first resumption delivers the opening
    record.
    - If none of its waits times out, then once the worker has ended,
      whatever the graph run produced, its next resumption delivers the
      closing record, although the channel is no longer registered, and
      the stream ends there: it has received the opening and the closing
      record and nothing else.
    - If a wait times out before the worker has ended (30 seconds pass
      without a record), the subscriber gets the [error] chunk of the
      failed heartbeat instead, its stream ends there, and the closing
      record that the worker publishes later is never delivered to it.
    A subscriber that starts only after the worker has ended finds no
    queue: its first resumption ends the iteration with the [NameError] of
    the name [datetime], without a record. *)
Theorem attached_subscriber_gets_the_closing_record
    task_id req awaited now0 trace0 now1 trace1 now k n st j :
  JOBS st !! task_id = Some j →
  let st1 := snd (run_generation_workflow_start task_id req now0 trace0 st) in
  let s0 := subscribe task_id (event_emitter st1) in
  let opening := sse_of_event (opening_record req now0) in
  let closing := sse_of_event (closing_record count_words awaited now1 trace1) in
  (let s1 := run (repeat (Receive now false) (S k)) s0 in
   let s2 := finish_job count_words task_id awaited now1 trace1 (JOBS st1) s1 in
   let s3 := run (repeat (Receive now false) (S n)) s2 in
   received s1 = [opening]
   ∧ received s3 = [opening; closing]
   ∧ (subscriber s3 = inl Leaving ∨ subscriber s3 = inr (Returned tt))
   ∧ EventEmitter.get_queue task_id (bus s2) = None
   ∧ (∀ now' timed_out,
        anext now' timed_out (NotStarted task_id) (bus s2)
        = (Stopped (Raised (NameError "datetime")), bus s2)))
  ∧ (let t1 := run [Receive now false; Receive now true] s0 in
     let t2 := finish_job count_words task_id awaited now1 trace1 (JOBS st1) t1 in
     let t3 := run (repeat (Receive now false) n) t2 in
     received t1 = [opening; timeout_chunk]
     ∧ subscriber t1 = inl Leaving
     ∧ received t3 = [opening; timeout_chunk]).
Proof.
  intros Hj st1 s0 opening closing.
  set (queue := EventEmitter.next_queue (event_emitter st)).
  set (em1 := event_emitter st1).
  assert (Hem1 : em1 = EventEmitter.queue_put queue (opening_record req now0)
                         (snd (EventEmitter.create_queue task_id (event_emitter st))))
    by (subst em1 st1; by apply (start_emitter task_id req now0 trace0 st j)).
  assert (Hreg1 : EventEmitter._queues em1 !! task_id = Some queue)
    by (rewrite Hem1; cbn; apply lookup_insert_eq).
  assert (Hq1 : EventEmitter.queue_objs em1 !! queue = Some [opening_record req now0]).
  { rewrite Hem1. cbn [EventEmitter.queue_put EventEmitter.queue_objs snd
                       EventEmitter.create_queue].
    by rewrite lookup_alter_eq, lookup_insert_eq. }
  (* the first resumption delivers the opening record *)
  set (s1' := {| bus := popped queue [] em1; subscriber := inl (Reading queue);
                 received := [opening] |}).
  assert (Hfirst : act s0 (Receive now false) = s1').
  { subst s0. fold em1. cbn [act subscribe subscriber bus anext].
    unfold EventEmitter.get_queue. rewrite Hreg1. unfold read_queue. rewrite Hq1.
    reflexivity. }
  assert (Hq1' : EventEmitter.queue_objs (bus s1') !! queue = Some [])
    by (cbn; apply lookup_insert_eq).
  split.
  - intros s1 s2 s3.
    assert (Hs1 : s1 = s1').
    { subst s1. cbn [repeat]. rewrite run_cons, Hfirst.
      by apply (idle_reading s1' queue now k). }
    (* the worker ends *)
    destruct (start_known task_id req now0 trace0 st j Hj) as [em Hstart].
    assert (Hj1 : JOBS st1 !! task_id = Some (set_status "processing" j))
      by (subst st1; rewrite Hstart; cbn; apply lookup_insert_eq).
    assert (Hbus2 : bus s2
                    = {| EventEmitter.queue_objs :=
                           alter (λ items,
                                    (items
                                     ++ [closing_record count_words awaited now1 trace1])%list)
                             queue (EventEmitter.queue_objs (bus s1'));
                         EventEmitter.next_queue := EventEmitter.next_queue (bus s1');
                         EventEmitter._queues :=
                           delete task_id (EventEmitter._queues (bus s1')) |}).
    { subst s2. unfold finish_job. cbn [bus]. rewrite Hs1.
      by rewrite (resume_queue task_id awaited now1 trace1
                    {| JOBS := JOBS st1; event_emitter := bus s1' |} _ queue Hj1 Hreg1). }
    assert (Hq2 : EventEmitter.queue_objs (bus s2) !! queue
                  = Some [closing_record count_words awaited now1 trace1]).
    { rewrite Hbus2. cbn. by rewrite lookup_alter_eq, lookup_insert_eq. }
    assert (Hsub2 : subscriber s2 = inl (Reading queue)) by (subst s2; by rewrite Hs1).
    assert (Hrec2 : received s2 = [opening]) by (subst s2; by rewrite Hs1).
    assert (Hnone : EventEmitter.get_queue task_id (bus s2) = None)
      by (rewrite Hbus2; apply lookup_delete_eq).
    (* the next resumption delivers the closing record and leaves the loop *)
    assert (Hact : act s2 (Receive now false)
                   = {| bus := popped queue [] (bus s2); subscriber := inl Leaving;
                        received := [opening; closing] |}).
    { rewrite (receive_reading s2 queue _ now Hsub2 Hq2).
      by rewrite closing_record_closes, Hrec2. }
    split; [by rewrite Hs1|]. split; [|split; [|split; [done|]]].
    + subst s3. cbn [repeat]. rewrite run_cons, Hact. rewrite drain_left; [done|by left].
    + subst s3. cbn [repeat]. rewrite run_cons, Hact. apply left_stays. by left.
    + intros now' timed_out. by apply event_generator_unknown_task.
  - intros t1 t2 t3.
    (* the wait for the next record times out *)
    assert (Ht1 : t1 = {| bus := bus s1'; subscriber := inl Leaving;
                          received := [opening; timeout_chunk] |}).
    { subst t1. rewrite !run_cons, Hfirst. cbn [run fold_left].
      subst s1'. cbn [act subscriber bus anext] in *. unfold read_queue.
      by rewrite Hq1'. }
    split; [by rewrite Ht1|]. split; [by rewrite Ht1|].
    subst t3. rewrite drain_left; subst t2; unfold finish_job; cbn [received subscriber];
      rewrite Ht1; [done|by left].
Qed.

(** X20. The stream never sends a heartbeat. When the wait for a record times
    out, the generator yields an [error] chunk (the message says that
    [datetime] is not defined) and leaves its loop, so a silence of 30
    seconds ends the stream; and every chunk the generator yields is the
    oldest record of a queue, taken from it, or this chunk. *)
Theorem stream_never_sends_a_heartbeat now em :
  (∀ queue,
     EventEmitter.queue_objs em !! queue = Some [] →
     anext now true (Reading queue) em = (Yielded timeout_chunk Leaving, em)
     ∧ anext now true Leaving em = (Stopped (Returned tt), em))
  ∧ (∀ timed_out g chunk g' em',
       anext now timed_out g em = (Yielded chunk g', em') →
       (∃ queue e rest,
          EventEmitter.queue_objs em !! queue = Some (e :: rest)
          ∧ chunk = sse_of_event e ∧ em' = popped queue rest em
          ∧ g' = if closes_stream (EventEmitter.ev_type e) then Leaving else Reading queue)
       ∨ (timed_out = true ∧ chunk = timeout_chunk ∧ g' = Leaving ∧ em' = em)).
Proof.
  assert (Hread : ∀ timed_out queue chunk g' em',
            read_queue now timed_out queue em = (Yielded chunk g', em') →
            (∃ queue e rest,
               EventEmitter.queue_objs em !! queue = Some (e :: rest)
               ∧ chunk = sse_of_event e ∧ em' = popped queue rest em
               ∧ g' = if closes_stream (EventEmitter.ev_type e) then Leaving
                      else Reading queue)
            ∨ (timed_out = true ∧ chunk = timeout_chunk ∧ g' = Leaving ∧ em' = em)).
  { intros timed_out queue chunk g' em'. unfold read_queue.
    destruct (EventEmitter.queue_objs em !! queue) as [[|e rest]|] eqn:Hq.
    - destruct timed_out; [|discriminate]. intros [= <- <- <-]. by right.
    - intros [= <- <- <-]. left. by exists queue, e, rest.
    - destruct timed_out; [|discriminate]. intros [= <- <- <-]. by right. }
  split.
  - intros queue Hq. split; [|done]. cbn [anext]. unfold read_queue. by rewrite Hq.
  - intros timed_out [t|queue|] chunk g' em'; cbn [anext].
    + destruct (EventEmitter.get_queue t em) as [queue|]; [apply Hread|discriminate].
    + apply Hread.
    + discriminate.
Qed.

End AttachedSubscriber.

Lemma worker_closes_its_channel_witness :
  let st := snd (Narrative.run_generation_workflow_start "abc123" knight_request "t0" ""
                   (snd (Narrative.start_generation "abc123" knight_request
                           other_job_store))) in
  let run := Narrative.run_generation_workflow_resume demo_count_words "abc123"
               (Raised (RetryError (ValueError "Empty text in response"))) "t1" "trace" st in
  fst run = Returned tt
  ∧ EventEmitter.get_queue "abc123" (Narrative.event_emitter (snd run)) = None
  ∧ EventEmitter.queue_objs (Narrative.event_emitter (snd run)) !! 0%nat
    = Some [opening_record knight_request "t0";
            EventEmitter.Event "error"
              [("message", VStr "RetryError[ValueError]"); ("traceback", VStr "trace")]
              "t1"]
  ∧ Narrative.status <$> Narrative.JOBS (snd run) !! "other" = Some "queued".
Proof.
  cbv zeta.
  pose proof (worker_closes_its_channel demo_count_words "abc123"
                (Raised (RetryError (ValueError "Empty text in response"))) "t1" "trace"
                (snd (Narrative.run_generation_workflow_start "abc123" knight_request "t0" ""
                        (snd (Narrative.start_generation "abc123" knight_request
                                other_job_store))))
                _ 0%nat [opening_record knight_request "t0"]
                ltac:(vm_compute; reflexivity) ltac:(vm_compute; reflexivity)
                ltac:(vm_compute; reflexivity))
    as (Hret & _ & Hnone & Hq & _ & Hother).
  split; [exact Hret|]. split; [exact Hnone|]. split; [exact Hq|].
  destruct (Hother "other" ltac:(discriminate)) as [_ ->]. vm_compute. reflexivity.
Defined.

Lemma worker_without_job_record_witness :
  let run := Narrative.run_generation_workflow_start "ghost" knight_request "t0" ""
               Narrative.initial in
  fst run = Returned (Narrative.Finished (Raised (KeyError "ghost")))
  ∧ Narrative.JOBS (snd run) = ∅
  ∧ EventEmitter.get_queue "ghost" (Narrative.event_emitter (snd run)) = None
  ∧ EventEmitter.queue_objs (Narrative.event_emitter (snd run)) !! 0%nat
    = Some [opening_record knight_request "t0"].
Proof.
  apply (worker_without_job_record "ghost" knight_request "t0" "" Narrative.initial).
  reflexivity.
Defined.

Lemma attached_subscriber_gets_the_closing_record_witness :
  let st1 := snd (Narrative.run_generation_workflow_start "abc123" knight_request "t0" ""
                    (Narrative.mem submitted)) in
  let s0 := Narrative.subscribe "abc123" (Narrative.event_emitter st1) in
  let s1 := Narrative.run (repeat (Narrative.Receive "t" false) 3) s0 in
  let s2 := finish_job demo_count_words "abc123" graph_run "t1" "" (Narrative.JOBS st1) s1 in
  let s3 := Narrative.run (repeat (Narrative.Receive "t" false) 2) s2 in
  let t1 := Narrative.run [Narrative.Receive "t" false; Narrative.Receive "t" true] s0 in
  let t2 := finish_job demo_count_words "abc123" graph_run "t1" "" (Narrative.JOBS st1) t1 in
  let t3 := Narrative.run (repeat (Narrative.Receive "t" false) 1) t2 in
  map Narrative.sse_type (Narrative.received s3) = ["workflow_start"; "workflow_complete"]
  ∧ map Narrative.sse_type (Narrative.received t3) = ["workflow_start"; "error"]
  ∧ EventEmitter.get_queue "abc123" (Narrative.bus s2) = None.
Proof.
  cbv zeta.
  pose proof (attached_subscriber_gets_the_closing_record demo_count_words "abc123"
                knight_request graph_run "t0" "" "t1" "" "t" 2 1
                (Narrative.mem submitted) _ ltac:(vm_compute; reflexivity))
    as [(_ & H3 & _ & Hnone & _) (_ & _ & Ht3)].
  cbv zeta in H3, Hnone, Ht3.
  split; [rewrite H3; vm_compute; reflexivity|].
  split; [rewrite Ht3; vm_compute; reflexivity|exact Hnone].
Defined.

Lemma stream_never_sends_a_heartbeat_witness :
  Narrative.anext "t" true (Narrative.Reading 0) job_channel
  = (Narrative.Yielded timeout_chunk Narrative.Leaving, job_channel).
Proof.
  apply (stream_never_sends_a_heartbeat "t" job_channel). vm_compute. reflexivity.
Defined.
